(** * scenecut: scene-change detection driver, frame utilities and buffers

    A shallow embedding of the TypeScript driver ([SceneDetector],
    [WasmBridge], the frame utilities, [BufferPool], [RingBuffer],
    [FrameBuffer], the frame extraction of [FFmpegDecoder]) and of the C
    helpers [pad_frame] and [calculate_padded_size], with the properties
    established about them.

    Conventions.
    - JavaScript numbers that hold counts, sizes, positions and frame
      numbers are integers of [Z]; the repository never stores a fraction
      in them.  Presentation timestamps are fractions of a second: their
      type is left abstract ([number]) and nothing is computed on them.
    - C values of type [uint32_t] are integers of [Z] reduced modulo
      [2^32] after every operation.
    - [Uint8Array], [Buffer] and raw C planes are lists of [byte].
    - A JavaScript call either returns or throws: [outcome]. *)

From Stdlib Require Import ZArith Lia List Bool.
From Stdlib.Strings Require Import String Byte.
From stdpp Require Import base tactics option list numbers sorting gmap.

Local Open Scope Z_scope.

(** ** Results of calls that may throw *)

Inductive outcome (E A : Type) : Type :=
| Returns (a : A)
| Throws (e : E).
Arguments Returns {E A} a.
Arguments Throws {E A} e.

(** ** types/index.ts *)

Inductive SensitivityLevel := SensLow | SensMedium | SensHigh | SensCustom.
Inductive SearchRange := RangeAuto | RangeSmall | RangeMedium | RangeLarge.

Record CustomThresholds := {
  intraThresh : Z;
  intraThresh2 : Z
}.

Record RawFrame {number : Type} := {
  data : list byte;
  width : Z;
  height : Z;
  stride : Z;
  pts : number;
  frameNumber : Z
}.
Arguments RawFrame : clear implicits.

Record SceneInfo {number : Type} := {
  sceneFrameNumber : Z;
  timestamp : number;
  timecode : string
}.
Arguments SceneInfo : clear implicits.

Record Resolution := { resWidth : Z; resHeight : Z }.

Record VideoMetadata {number : Type} := {
  totalFrames : Z;
  duration : number;
  fps : number;
  resolution : Resolution
}.
Arguments VideoMetadata : clear implicits.

(** ** utils/frame-processor.ts *)

Module FrameProcessor.

Inductive error :=
| InvalidFrameDimensions (w h : Z)
| FrameDimensionsTooLarge (w h : Z)
| FrameDataIsEmpty
| FrameDataSizeMismatch (expected got : Z).

Definition validateFrameDimensions (width height : Z) : outcome error unit :=
  if (width <=? 0) || (height <=? 0) then
    Throws (InvalidFrameDimensions width height)
  else if (8192 <? width) || (8192 <? height) then
    Throws (FrameDimensionsTooLarge width height)
  else Returns tt.

Definition calculateFcode (searchRange : SearchRange) (width height : Z) : Z :=
  match searchRange with
  | RangeSmall => 2
  | RangeMedium => 4
  | RangeLarge => 6
  | RangeAuto =>
      let pixels := width * height in
      if pixels <=? 720 * 480 then 3
      else if pixels <=? 1920 * 1080 then 4
      else 5
  end.

Definition calculateThresholds (sensitivity : SensitivityLevel) : CustomThresholds :=
  match sensitivity with
  | SensLow => {| intraThresh := 3000; intraThresh2 := 150 |}
  | SensMedium => {| intraThresh := 2000; intraThresh2 := 90 |}
  | SensHigh => {| intraThresh := 1000; intraThresh2 := 50 |}
  | SensCustom => {| intraThresh := 2000; intraThresh2 := 90 |}
  end.

Definition validateFrame {number} (frame : RawFrame number) : outcome error unit :=
  if Z.of_nat (length (data frame)) =? 0 then Throws FrameDataIsEmpty
  else
    let expectedSize := width frame * height frame in
    if Z.of_nat (length (data frame)) <? expectedSize then
      Throws (FrameDataSizeMismatch expectedSize (Z.of_nat (length (data frame))))
    else validateFrameDimensions (width frame) (height frame).

(** The frames the specification calls invalid. *)
Definition invalid_frame {number} (frame : RawFrame number) : Prop :=
  data frame = [] \/
  Z.of_nat (length (data frame)) < width frame * height frame \/
  width frame <= 0 \/ height frame <= 0 \/
  8192 < width frame \/ 8192 < height frame.

Lemma validateFrame_throws_iff {number} (frame : RawFrame number) :
  (exists e, validateFrame frame = Throws e) <-> invalid_frame frame.
Proof.
  unfold validateFrame, validateFrameDimensions, invalid_frame.
  destruct (data frame) as [|b l] eqn:Hd; cbn [length].
  - split; [auto | eauto].
  - rewrite (proj2 (Z.eqb_neq _ 0)) by lia.
    destruct (Z.ltb_spec (Z.of_nat (S (length l))) (width frame * height frame)).
    + split; [auto | eauto].
    + destruct (Z.leb_spec (width frame) 0); cbn [orb].
      { split; [auto | eauto]. }
      destruct (Z.leb_spec (height frame) 0); cbn [orb].
      { split; [auto 6 | eauto]. }
      destruct (Z.ltb_spec 8192 (width frame)); cbn [orb].
      { split; [auto 6 | eauto]. }
      destruct (Z.ltb_spec 8192 (height frame)); cbn [orb].
      { split; [auto 7 | eauto]. }
      split.
      * intros [e He]; discriminate.
      * intros [?|[?|[?|[?|[?|?]]]]]; first [discriminate | lia].
Qed.

Lemma validateFrame_returns {number} (frame : RawFrame number) :
  width frame * height frame <= Z.of_nat (length (data frame)) ->
  1 <= width frame <= 8192 -> 1 <= height frame <= 8192 ->
  validateFrame frame = Returns tt.
Proof.
  intros Hlen Hw Hh.
  destruct (validateFrame frame) as [[]|e] eqn:Hv; [reflexivity|].
  assert (Hinv : invalid_frame frame) by (apply validateFrame_throws_iff; eauto).
  destruct Hinv as [Hnil|[?|[?|[?|[?|?]]]]]; try lia.
  rewrite Hnil in Hlen. cbn in Hlen. nia.
Qed.

Lemma validateFrame_valid {number} (frame : RawFrame number) :
  validateFrame frame = Returns tt ->
  width frame * height frame <= Z.of_nat (length (data frame)) /\
  1 <= width frame <= 8192 /\ 1 <= height frame <= 8192.
Proof.
  intros Hv.
  assert (Hok : ~ invalid_frame frame).
  { intros Hinv. apply validateFrame_throws_iff in Hinv as [e He]. congruence. }
  unfold invalid_frame in Hok. lia.
Qed.

(** C7. [calculateFcode] maps the search range to [fcode]: small to 2,
    medium to 4, large to 6, and auto to 3 when [W * H <= 720 * 480],
    to 4 when [W * H <= 1920 * 1080] otherwise, and to 5 beyond; so
    704x480 selects 3, 1280x720 selects 4 and 3840x2160 selects 5. *)
Theorem calculateFcode_mapping (W H : Z) :
  calculateFcode RangeSmall W H = 2 /\
  calculateFcode RangeMedium W H = 4 /\
  calculateFcode RangeLarge W H = 6 /\
  (W * H <= 720 * 480 -> calculateFcode RangeAuto W H = 3) /\
  (720 * 480 < W * H <= 1920 * 1080 -> calculateFcode RangeAuto W H = 4) /\
  (1920 * 1080 < W * H -> calculateFcode RangeAuto W H = 5) /\
  calculateFcode RangeAuto 704 480 = 3 /\
  calculateFcode RangeAuto 1280 720 = 4 /\
  calculateFcode RangeAuto 3840 2160 = 5.
Proof.
  unfold calculateFcode.
  repeat split; try reflexivity; intros Hpix;
    destruct (Z.leb_spec (W * H) (720 * 480)); try lia;
    destruct (Z.leb_spec (W * H) (1920 * 1080)); try lia; reflexivity.
Qed.

(** The thresholds [calculateThresholds] assigns to each sensitivity. *)
Lemma calculateThresholds_table :
  calculateThresholds SensLow = {| intraThresh := 3000; intraThresh2 := 150 |} /\
  calculateThresholds SensMedium = {| intraThresh := 2000; intraThresh2 := 90 |} /\
  calculateThresholds SensHigh = {| intraThresh := 1000; intraThresh2 := 50 |}.
Proof. repeat split. Qed.

End FrameProcessor.


(** Case analysis on every integer comparison in the goal. *)
Ltac cases_Z :=
  repeat match goal with
    | |- context [?a <=? ?b] => destruct (Z.leb_spec a b)
    | |- context [?a <? ?b] => destruct (Z.ltb_spec a b)
    | |- context [?a =? ?b] => destruct (Z.eqb_spec a b)
    end; cbn [andb orb negb].

(** ** Byte buffers *)

Module Bytes.

(** Buffers are byte lists addressed by an offset from their start. *)
Definition load (l : list byte) (i : Z) : byte := default x00 (l !! Z.to_nat i).
Definition store (l : list byte) (i : Z) (v : byte) : list byte := <[Z.to_nat i := v]> l.


(** Copies [n] bytes from offset [s] of [src] to offset [d] of [dst]. *)
Definition blit (dst : list byte) (d : Z) (src : list byte) (s : Z) (n : Z) : list byte :=
  take (Z.to_nat d) dst ++ take (Z.to_nat n) (drop (Z.to_nat s) src)
    ++ drop (Z.to_nat d + Z.to_nat n) dst.

Lemma length_store l i v : length (store l i v) = length l.
Proof. unfold store. apply length_insert. Qed.

Lemma load_store l i v k :
  0 <= i < Z.of_nat (length l) -> 0 <= k ->
  load (store l i v) k = if k =? i then v else load l k.
Proof.
  intros Hi Hk. unfold load, store.
  destruct (Z.eqb_spec k i) as [->|Hne].
  - rewrite list_lookup_insert_eq by lia. reflexivity.
  - rewrite list_lookup_insert_ne by lia. reflexivity.
Qed.

Lemma length_blit dst d src s n :
  0 <= d -> 0 <= n -> d + n <= Z.of_nat (length dst) ->
  0 <= s -> s + n <= Z.of_nat (length src) ->
  length (blit dst d src s n) = length dst.
Proof.
  intros. unfold blit.
  rewrite !length_app, !length_take, !length_drop. lia.
Qed.

Lemma load_blit dst d src s n k :
  0 <= d -> 0 <= n -> d + n <= Z.of_nat (length dst) ->
  0 <= s -> s + n <= Z.of_nat (length src) -> 0 <= k ->
  load (blit dst d src s n) k =
    if (d <=? k) && (k <? d + n) then load src (s + (k - d)) else load dst k.
Proof.
  intros Hd Hn Hdn Hs Hsn Hk. unfold load, blit.
  destruct (Z.leb_spec d k); cbn [andb].
  - destruct (Z.ltb_spec k (d + n)).
    + rewrite lookup_app_r by (rewrite length_take; lia).
      rewrite lookup_app_l by (rewrite !length_take, length_drop; lia).
      rewrite lookup_take_lt by (rewrite length_take; lia).
      rewrite lookup_drop. f_equal. f_equal. rewrite length_take. lia.
    + rewrite lookup_app_r by (rewrite length_take; lia).
      rewrite lookup_app_r by (rewrite !length_take, length_drop; lia).
      rewrite lookup_drop. f_equal. f_equal.
      rewrite !length_take, length_drop. lia.
  - rewrite lookup_app_l by (rewrite length_take; lia).
    rewrite lookup_take_lt by lia. reflexivity.
Qed.

Lemma lookup_load (l : list byte) (i : Z) :
  0 <= i < Z.of_nat (length l) -> l !! Z.to_nat i = Some (load l i).
Proof.
  intros Hi. unfold load.
  destruct (lookup_lt_is_Some_2 l (Z.to_nat i)) as [b Hb]; [lia|].
  rewrite Hb. reflexivity.
Qed.

Lemma load_app l1 l2 k :
  0 <= k ->
  load (l1 ++ l2) k =
    if k <? Z.of_nat (length l1) then load l1 k else load l2 (k - Z.of_nat (length l1)).
Proof.
  intros Hk. unfold load. destruct (Z.ltb_spec k (Z.of_nat (length l1))).
  - rewrite lookup_app_l by lia. reflexivity.
  - rewrite lookup_app_r by lia. do 2 f_equal. lia.
Qed.

Lemma load_take l n k : 0 <= k < n -> load (take (Z.to_nat n) l) k = load l k.
Proof. intros Hk. unfold load. rewrite lookup_take_lt by lia. reflexivity. Qed.

Lemma load_drop l n k : 0 <= n -> 0 <= k -> load (drop (Z.to_nat n) l) k = load l (n + k).
Proof. intros Hn Hk. unfold load. rewrite lookup_drop. do 2 f_equal. lia. Qed.

Lemma list_eq_load (l1 l2 : list byte) :
  length l1 = length l2 ->
  (forall k, 0 <= k < Z.of_nat (length l1) -> load l1 k = load l2 k) ->
  l1 = l2.
Proof.
  intros Hlen Hload. apply list_eq. intros i.
  destruct (decide (i < length l1)%nat) as [Hi|Hi].
  - replace i with (Z.to_nat (Z.of_nat i)) by lia.
    rewrite !lookup_load by lia. f_equal. apply Hload. lia.
  - rewrite !lookup_ge_None_2 by lia. reflexivity.
Qed.

End Bytes.


(** ** wasm/wasm-interface.c: [calculate_padded_size] and [pad_frame] *)

Module PadFrame.

Import Bytes.

(** [uint32_t] arithmetic. *)
Definition u32 (z : Z) : Z := z mod 2 ^ 32.
Definition add32 (a b : Z) : Z := u32 (a + b).
Definition sub32 (a b : Z) : Z := u32 (a - b).
Definition mul32 (a b : Z) : Z := u32 (a * b).

Definition memset (dst : list byte) (v : byte) (n : Z) : list byte :=
  replicate (Z.to_nat n) v ++ drop (Z.to_nat n) dst.

(** [memcpy (dst + d, src + s, n)]; the two regions never overlap here. *)
Definition memcpy (dst : list byte) (d : Z) (src : list byte) (s : Z) (n : Z) : list byte :=
  blit dst d src s n.

(** [for (i = lo; i < hi; i++) st = body i st]. *)
Fixpoint iter_from {S : Type} (n : nat) (i : Z) (body : Z -> S -> S) (st : S) : S :=
  match n with
  | O => st
  | S n' => iter_from n' (i + 1) body (body i st)
  end.

Definition for_range {S : Type} (lo hi : Z) (body : Z -> S -> S) (st : S) : S :=
  iter_from (Z.to_nat (hi - lo)) lo body st.

Definition edge_size : Z := 64.

Definition mb_count (dim : Z) : Z := add32 dim 15 / 16.
Definition edged (mb : Z) : Z := add32 (mul32 16 mb) (2 * 64).

Definition calculate_padded_size (width height : Z) : Z :=
  let mb_width := mb_count width in
  let mb_height := mb_count height in
  let edged_width := edged mb_width in
  let edged_height := edged mb_height in
  mul32 edged_width edged_height.

(** Copy frame data to center of padded buffer. *)
Definition copy_rows (src : list byte) (width height edged_width : Z)
    (dst : list byte) : list byte :=
  for_range 0 height (fun y dst =>
    memcpy dst (add32 (mul32 (add32 y edge_size) edged_width) edge_size)
           src (mul32 y width) width) dst.

(** Pad right edge (if frame width is not multiple of 16). *)
Definition pad_right (src : list byte) (width height edged_width padded_width : Z)
    (dst : list byte) : list byte :=
  if width <? padded_width then
    for_range 0 height (fun y dst =>
      let edge_value := load src (sub32 (add32 (mul32 y width) width) 1) in
      for_range width padded_width (fun x dst =>
        store dst (add32 (add32 (mul32 (add32 y edge_size) edged_width) edge_size) x)
              edge_value) dst) dst
  else dst.

(** Pad bottom edge (if frame height is not multiple of 16). *)
Definition pad_bottom (height edged_width padded_width padded_height : Z)
    (dst : list byte) : list byte :=
  if height <? padded_height then
    for_range height padded_height (fun y dst =>
      memcpy dst (add32 (mul32 (add32 y edge_size) edged_width) edge_size)
             dst (add32 (mul32 (add32 (sub32 height 1) edge_size) edged_width) edge_size)
             padded_width) dst
  else dst.

(** Top and bottom borders. *)
Definition pad_top_bottom (edged_width edged_height : Z) (dst : list byte) : list byte :=
  for_range 0 edge_size (fun i dst =>
    let dst := memcpy dst (mul32 i edged_width)
                      dst (mul32 edge_size edged_width) edged_width in
    memcpy dst (mul32 (sub32 (sub32 edged_height 1) i) edged_width)
           dst (mul32 (sub32 (sub32 edged_height 1) edge_size) edged_width)
           edged_width) dst.

(** Left and right borders. *)
Definition pad_left_right (edged_width edged_height padded_width : Z)
    (dst : list byte) : list byte :=
  for_range 0 edged_height (fun y dst =>
    let left_val := load dst (add32 (mul32 y edged_width) edge_size) in
    let right_val :=
      load dst (sub32 (add32 (add32 (mul32 y edged_width) edge_size) padded_width) 1) in
    let dst := for_range 0 edge_size (fun i dst =>
                 store dst (add32 (mul32 y edged_width) i) left_val) dst in
    for_range 0 edge_size (fun i dst =>
      store dst (add32 (add32 (add32 (mul32 y edged_width) edge_size) padded_width) i)
            right_val) dst) dst.

(** [pad_frame(srcPtr, dstPtr, width, height)]: [src] is the raw plane at
    [srcPtr], [dst] the contents of the destination buffer on entry; the
    result is the destination buffer on return. *)
Definition pad_frame (src dst : list byte) (width height : Z) : list byte :=
  let mb_width := mb_count width in
  let mb_height := mb_count height in
  let edged_width := edged mb_width in
  let edged_height := edged mb_height in
  let dst := memset dst x00 (mul32 edged_width edged_height) in
  let dst := copy_rows src width height edged_width dst in
  let padded_width := mul32 mb_width 16 in
  let dst := pad_right src width height edged_width padded_width dst in
  let padded_height := mul32 mb_height 16 in
  let dst := pad_bottom height edged_width padded_width padded_height dst in
  let dst := pad_top_bottom edged_width edged_height dst in
  pad_left_right edged_width edged_height padded_width dst.
(** *** Reading back what the primitives wrote *)

Lemma u32_small z : 0 <= z < 2 ^ 32 -> u32 z = z.
Proof. intros. unfold u32. apply Z.mod_small. lia. Qed.

Lemma add32_small a b : 0 <= a + b < 2 ^ 32 -> add32 a b = a + b.
Proof. apply u32_small. Qed.

Lemma sub32_small a b : 0 <= a - b < 2 ^ 32 -> sub32 a b = a - b.
Proof. apply u32_small. Qed.

Lemma mul32_small a b : 0 <= a * b < 2 ^ 32 -> mul32 a b = a * b.
Proof. apply u32_small. Qed.

Lemma length_memset l v n :
  0 <= n <= Z.of_nat (length l) -> length (memset l v n) = length l.
Proof.
  intros Hn. unfold memset.
  rewrite length_app, length_replicate, length_drop. lia.
Qed.

Lemma load_memset l v n k :
  0 <= k -> load (memset l v n) k = if k <? n then v else load l k.
Proof.
  intros Hk. unfold load, memset.
  destruct (Z.ltb_spec k n).
  - rewrite lookup_app_l by (rewrite length_replicate; lia).
    rewrite lookup_replicate_2 by lia. reflexivity.
  - rewrite lookup_app_r by (rewrite length_replicate; lia).
    rewrite length_replicate, lookup_drop. f_equal. f_equal. lia.
Qed.

Lemma length_memcpy dst d src s n :
  0 <= d -> 0 <= n -> d + n <= Z.of_nat (length dst) ->
  0 <= s -> s + n <= Z.of_nat (length src) ->
  length (memcpy dst d src s n) = length dst.
Proof. apply length_blit. Qed.

Lemma load_memcpy dst d src s n k :
  0 <= d -> 0 <= n -> d + n <= Z.of_nat (length dst) ->
  0 <= s -> s + n <= Z.of_nat (length src) -> 0 <= k ->
  load (memcpy dst d src s n) k =
    if (d <=? k) && (k <? d + n) then load src (s + (k - d)) else load dst k.
Proof. apply load_blit. Qed.

(** Loop invariants: [P i st] holds before iteration [i]. *)
Lemma for_range_ind {S : Type} (P : Z -> S -> Prop) lo hi body st :
  lo <= hi ->
  P lo st ->
  (forall i st, lo <= i < hi -> P i st -> P (i + 1) (body i st)) ->
  P hi (for_range lo hi body st).
Proof.
  intros Hle H0 Hstep. unfold for_range.
  remember (Z.to_nat (hi - lo)) as n eqn:Hn.
  revert lo st Hle H0 Hstep Hn.
  induction n as [|n IH]; intros lo st Hle H0 Hstep Hn; cbn [iter_from].
  - replace hi with lo by lia. exact H0.
  - apply IH; try lia.
    + apply Hstep; [lia | exact H0].
    + intros i st' Hi. apply Hstep. lia.
Qed.

Lemma for_range_empty {S : Type} lo hi (body : Z -> S -> S) st :
  hi <= lo -> for_range lo hi body st = st.
Proof.
  intros. unfold for_range. replace (Z.to_nat (hi - lo)) with O by lia. reflexivity.
Qed.

(** Stores at consecutive offsets [base + lo .. base + hi). *)
Lemma store_run dst lo hi base (f : Z -> Z) v :
  lo <= hi -> 0 <= base + lo -> base + hi <= Z.of_nat (length dst) ->
  (forall i, lo <= i < hi -> f i = base + i) ->
  let r := for_range lo hi (fun i d => store d (f i) v) dst in
  length r = length dst /\
  forall k, 0 <= k ->
    load r k = if (base + lo <=? k) && (k <? base + hi) then v else load dst k.
Proof.
  intros Hle Hlo Hhi Hf r. subst r.
  apply (for_range_ind (fun i st =>
    length st = length dst /\
    forall k, 0 <= k ->
      load st k = if (base + lo <=? k) && (k <? base + i) then v else load dst k));
    [exact Hle | |].
  - split; [reflexivity|]. intros k Hk.
    destruct (Z.leb_spec (base + lo) k), (Z.ltb_spec k (base + lo));
      cbn [andb]; first [reflexivity | lia].
  - intros i st Hi [Hlen Hst]. rewrite length_store. split; [exact Hlen|].
    intros k Hk. rewrite Hf by exact Hi.
    rewrite load_store by lia. rewrite Hst by exact Hk.
    destruct (Z.eqb_spec k (base + i)), (Z.leb_spec (base + lo) k),
      (Z.ltb_spec k (base + i)), (Z.ltb_spec k (base + (i + 1)));
      cbn [andb]; first [reflexivity | lia].
Qed.

Lemma row_bound i n w : 0 <= i < n -> 0 <= w -> 0 <= i * w /\ i * w + w <= w * n.
Proof. intros. nia. Qed.

(** Removes the [uint32_t] reductions that the bounds in the context make
    vacuous, innermost first. *)
Ltac unwrap32 :=
  unfold add32, sub32, mul32;
  repeat match goal with
    | |- context [u32 ?e] =>
        lazymatch e with
        | context [u32 _] => fail
        | _ => rewrite (u32_small e) by lia
        end
    end.

(** *** The geometry of a padded plane *)

Section Geometry.

Variables W H PW PH EW EH : Z.
Hypothesis HW : 0 < W <= PW.
Hypothesis HH : 0 < H <= PH.
Hypothesis HEW : EW = PW + 128.
Hypothesis HEH : EH = PH + 128.
Hypothesis Hfit : EW * EH < 2 ^ 32.

(** The byte at column [x] of row [y]. *)
Definition px (dst : list byte) (x y : Z) : byte := load dst (y * EW + x).

Lemma row_fits y : 0 <= y < EH -> 0 <= y * EW /\ y * EW + EW <= EW * EH.
Proof. intros Hy. apply row_bound; [exact Hy | lia]. Qed.

Lemma dims_small :
  128 < EW < 2 ^ 32 /\ 128 < EH < 2 ^ 32 /\ W * H <= EW * EH /\ PW * PH <= EW * EH.
Proof. nia. Qed.

Lemma in_row_segment x y x0 y0 n :
  0 <= x < EW -> 0 <= x0 -> 0 <= n -> x0 + n <= EW ->
  (y0 * EW + x0 <=? y * EW + x) && (y * EW + x <? y0 * EW + x0 + n)
  = (y =? y0) && (x0 <=? x) && (x <? x0 + n).
Proof.
  intros Hx Hx0 Hn Hseg.
  destruct (Z.eqb_spec y y0) as [->|Hne]; cbn [andb].
  - destruct (Z.leb_spec (y0 * EW + x0) (y0 * EW + x)), (Z.leb_spec x0 x),
      (Z.ltb_spec (y0 * EW + x) (y0 * EW + x0 + n)), (Z.ltb_spec x (x0 + n));
      cbn [andb]; first [reflexivity | lia].
  - destruct (Z.leb_spec (y0 * EW + x0) (y * EW + x)),
      (Z.ltb_spec (y * EW + x) (y0 * EW + x0 + n));
      cbn [andb]; first [reflexivity | nia].
Qed.

Lemma copy_rows_spec src dst :
  W * H <= Z.of_nat (length src) -> EW * EH <= Z.of_nat (length dst) ->
  let r := copy_rows src W H EW dst in
  length r = length dst /\
  forall x y, 0 <= x < EW -> 0 <= y < EH ->
    px r x y =
      if (64 <=? y) && (y <? 64 + H) && (64 <=? x) && (x <? 64 + W)
      then load src ((y - 64) * W + (x - 64)) else px dst x y.
Proof.
  intros Hsrc Hdst r. subst r. unfold copy_rows, edge_size.
  pose proof dims_small as Hdims.
  apply (for_range_ind (fun i st =>
    length st = length dst /\
    forall x y, 0 <= x < EW -> 0 <= y < EH ->
      px st x y =
        if (64 <=? y) && (y <? 64 + i) && (64 <=? x) && (x <? 64 + W)
        then load src ((y - 64) * W + (x - 64)) else px dst x y)); [lia | |].
  - split; [reflexivity|]. intros x y Hx Hy. cases_Z; first [reflexivity | lia].
  - intros i st Hi [Hlen Hst].
    assert (Hrow := row_fits (i + 64) ltac:(lia)).
    assert (Hsrow := row_bound i H W Hi ltac:(lia)).
    unwrap32.
    split; [rewrite length_memcpy by lia; exact Hlen|].
    intros x y Hx Hy. unfold px.
    assert (Hrow' := row_fits y Hy).
    rewrite load_memcpy by lia.
    rewrite (in_row_segment x y 64 (i + 64) W) by lia.
    fold (px st x y). rewrite Hst by assumption.
    cases_Z; try reflexivity; try lia.
    f_equal. subst y. nia.
Qed.

Lemma pad_right_spec src dst :
  W * H <= Z.of_nat (length src) -> EW * EH <= Z.of_nat (length dst) ->
  let r := pad_right src W H EW PW dst in
  length r = length dst /\
  forall x y, 0 <= x < EW -> 0 <= y < EH ->
    px r x y =
      if (64 <=? y) && (y <? 64 + H) && (64 + W <=? x) && (x <? 64 + PW)
      then load src ((y - 64) * W + W - 1) else px dst x y.
Proof.
  intros Hsrc Hdst r. subst r. unfold pad_right, edge_size.
  pose proof dims_small as Hdims.
  destruct (Z.ltb_spec W PW) as [Hlt|Hge].
  2:{ split; [reflexivity|]. intros x y Hx Hy. cases_Z; first [reflexivity | lia]. }
  apply (for_range_ind (fun i st =>
    length st = length dst /\
    forall x y, 0 <= x < EW -> 0 <= y < EH ->
      px st x y =
        if (64 <=? y) && (y <? 64 + i) && (64 + W <=? x) && (x <? 64 + PW)
        then load src ((y - 64) * W + W - 1) else px dst x y)); [lia | |].
  - split; [reflexivity|]. intros x y Hx Hy. cases_Z; first [reflexivity | lia].
  - intros i st Hi [Hlen Hst].
    assert (Hrow := row_fits (i + 64) ltac:(lia)).
    assert (Hsrow := row_bound i H W Hi ltac:(lia)).
    destruct (store_run st W PW ((i + 64) * EW + 64)
                (fun x => add32 (add32 (mul32 (add32 i 64) EW) 64) x)
                (load src (sub32 (add32 (mul32 i W) W) 1)))
      as [Hlen' Hrun]; try lia.
    { intros x Hx. unwrap32. reflexivity. }
    split; [rewrite Hlen'; exact Hlen|].
    intros x y Hx Hy. unfold px.
    assert (Hrow' := row_fits y Hy).
    rewrite Hrun by lia.
    replace ((i + 64) * EW + 64 + PW) with ((i + 64) * EW + (64 + W) + (PW - W)) by lia.
    replace ((i + 64) * EW + 64 + W) with ((i + 64) * EW + (64 + W)) by lia.
    rewrite (in_row_segment x y (64 + W) (i + 64) (PW - W)) by lia.
    fold (px st x y). rewrite Hst by assumption.
    unwrap32.
    cases_Z; try reflexivity; try lia.
    f_equal. subst y. nia.
Qed.

Lemma pad_bottom_spec dst :
  EW * EH <= Z.of_nat (length dst) ->
  let r := pad_bottom H EW PW PH dst in
  length r = length dst /\
  forall x y, 0 <= x < EW -> 0 <= y < EH ->
    px r x y =
      if (64 + H <=? y) && (y <? 64 + PH) && (64 <=? x) && (x <? 64 + PW)
      then px dst x (H - 1 + 64) else px dst x y.
Proof.
  intros Hdst r. subst r. unfold pad_bottom, edge_size.
  pose proof dims_small as Hdims.
  destruct (Z.ltb_spec H PH) as [Hlt|Hge].
  2:{ split; [reflexivity|]. intros x y Hx Hy. cases_Z; first [reflexivity | lia]. }
  apply (for_range_ind (fun i st =>
    length st = length dst /\
    forall x y, 0 <= x < EW -> 0 <= y < EH ->
      px st x y =
        if (64 + H <=? y) && (y <? 64 + i) && (64 <=? x) && (x <? 64 + PW)
        then px dst x (H - 1 + 64) else px dst x y)); [lia | |].
  - split; [reflexivity|]. intros x y Hx Hy. cases_Z; first [reflexivity | lia].
  - intros i st Hi [Hlen Hst].
    assert (Hrow := row_fits (i + 64) ltac:(lia)).
    assert (Hsrc := row_fits (H - 1 + 64) ltac:(lia)).
    unwrap32.
    split; [rewrite length_memcpy by lia; exact Hlen|].
    intros x y Hx Hy. unfold px.
    assert (Hrow' := row_fits y Hy).
    rewrite load_memcpy by lia.
    rewrite (in_row_segment x y 64 (i + 64) PW) by lia.
    fold (px st x y). rewrite Hst by assumption.
    destruct (Z.eqb_spec y (i + 64)) as [->|Hne]; cbn [andb].
    + match goal with
      | |- context [load st ?e] => replace e with ((H - 1 + 64) * EW + x) by lia
      end.
      fold (px st x (H - 1 + 64)). rewrite Hst by lia.
      cases_Z; try reflexivity; try lia.
    + cases_Z; try reflexivity; try lia.
Qed.

Lemma pad_top_bottom_spec dst :
  EW * EH <= Z.of_nat (length dst) ->
  let r := pad_top_bottom EW EH dst in
  length r = length dst /\
  forall x y, 0 <= x < EW -> 0 <= y < EH ->
    px r x y =
      if y <? 64 then px dst x 64
      else if EH - 64 <=? y then px dst x (EH - 1 - 64)
      else px dst x y.
Proof.
  intros Hdst r. subst r. unfold pad_top_bottom, edge_size.
  pose proof dims_small as Hdims.
  apply (for_range_ind (fun i st =>
    length st = length dst /\
    forall x y, 0 <= x < EW -> 0 <= y < EH ->
      px st x y =
        if y <? i then px dst x 64
        else if EH - i <=? y then px dst x (EH - 1 - 64)
        else px dst x y)); [lia | |].
  - split; [reflexivity|]. intros x y Hx Hy. cases_Z; first [reflexivity | lia].
  - intros i st Hi [Hlen Hst].
    assert (Hr1 := row_fits i ltac:(lia)).
    assert (Hr2 := row_fits 64 ltac:(lia)).
    assert (Hr3 := row_fits (EH - 1 - i) ltac:(lia)).
    assert (Hr4 := row_fits (EH - 1 - 64) ltac:(lia)).
    unwrap32.
    set (st1 := memcpy st (i * EW) st (64 * EW) EW).
    assert (Hlen1 : length st1 = length dst).
    { subst st1. rewrite length_memcpy by lia. exact Hlen. }
    split; [rewrite length_memcpy by lia; exact Hlen1|].
    intros x y Hx Hy. unfold px.
    assert (Hrow' := row_fits y Hy).
    rewrite load_memcpy by lia.
    replace ((EH - 1 - i) * EW) with ((EH - 1 - i) * EW + 0) at 1 2 by lia.
    rewrite (in_row_segment x y 0 (EH - 1 - i) EW) by lia.
    assert (Hst1 : forall x' y', 0 <= x' < EW -> 0 <= y' < EH ->
              load st1 (y' * EW + x') =
                if y' =? i then px st x' 64 else px st x' y').
    { intros x' y' Hx' Hy'. subst st1.
      assert (Hrow'' := row_fits y' Hy').
      rewrite load_memcpy by lia.
      replace (i * EW) with (i * EW + 0) at 1 2 by lia.
      rewrite (in_row_segment x' y' 0 i EW) by lia.
      destruct (Z.eqb_spec y' i) as [->|Hne]; cbn [andb].
      - cases_Z; try lia. unfold px. f_equal. lia.
      - reflexivity. }
    destruct (Z.eqb_spec y (EH - 1 - i)) as [->|Hne]; cbn [andb].
    + match goal with
      | |- context [load st1 ?e] => replace e with ((EH - 1 - 64) * EW + x) by lia
      end.
      rewrite Hst1 by lia.
      destruct (Z.eqb_spec (EH - 1 - 64) i); [lia|].
      rewrite !Hst by lia.
      cases_Z; try reflexivity; try lia.
    + rewrite Hst1 by lia. rewrite !Hst by lia.
      cases_Z; try reflexivity; try lia.
Qed.

Lemma pad_left_right_spec dst :
  EW * EH <= Z.of_nat (length dst) ->
  let r := pad_left_right EW EH PW dst in
  length r = length dst /\
  forall x y, 0 <= x < EW -> 0 <= y < EH ->
    px r x y =
      if x <? 64 then px dst 64 y
      else if 64 + PW <=? x then px dst (64 + PW - 1) y
      else px dst x y.
Proof.
  intros Hdst r. subst r. unfold pad_left_right, edge_size.
  pose proof dims_small as Hdims.
  match goal with |- length ?r = _ /\ _ =>
    enough (Hinv : length r = length dst /\
      forall x y, 0 <= x < EW -> 0 <= y < EH ->
        px r x y =
          if y <? EH then
            if x <? 64 then px dst 64 y
            else if 64 + PW <=? x then px dst (64 + PW - 1) y
            else px dst x y
          else px dst x y)
  end.
  { destruct Hinv as [Hl Hp]. split; [exact Hl|]. intros x y Hx Hy.
    rewrite Hp by assumption. destruct (Z.ltb_spec y EH); [reflexivity | lia]. }
  apply (for_range_ind (fun i st =>
    length st = length dst /\
    forall x y, 0 <= x < EW -> 0 <= y < EH ->
      px st x y =
        if y <? i then
          if x <? 64 then px dst 64 y
          else if 64 + PW <=? x then px dst (64 + PW - 1) y
          else px dst x y
        else px dst x y)); [lia | |].
  - split; [reflexivity|]. intros x y Hx Hy. cases_Z; first [reflexivity | lia].
  - intros i st Hi [Hlen Hst].
    assert (Hrow := row_fits i Hi).
    set (left_val := load st (add32 (mul32 i EW) 64)).
    set (right_val := load st (sub32 (add32 (add32 (mul32 i EW) 64) PW) 1)).
    destruct (store_run st 0 64 (i * EW) (fun k => add32 (mul32 i EW) k) left_val)
      as [Hlen1 Hrun1]; try lia.
    { intros k Hk. unwrap32. reflexivity. }
    set (st1 := for_range 0 64 (fun k d => store d (add32 (mul32 i EW) k) left_val) st)
      in *.
    destruct (store_run st1 0 64 (i * EW + 64 + PW)
                (fun k => add32 (add32 (add32 (mul32 i EW) 64) PW) k) right_val)
      as [Hlen2 Hrun2]; try lia.
    { intros k Hk. unwrap32. reflexivity. }
    split; [rewrite Hlen2, Hlen1; exact Hlen|].
    intros x y Hx Hy. unfold px.
    assert (Hrow' := row_fits y Hy).
    rewrite Hrun2, Hrun1 by lia.
    replace (i * EW + 64 + PW + 64) with (i * EW + (64 + PW) + 64) by lia.
    replace (i * EW + 64 + PW + 0) with (i * EW + (64 + PW)) by lia.
    rewrite (in_row_segment x y (64 + PW) i 64) by lia.
    replace (i * EW + 64) with (i * EW + 0 + 64) at 1 by lia.
    rewrite (in_row_segment x y 0 i 64) by lia.
    fold (px st x y). rewrite Hst by assumption.
    subst left_val right_val. unwrap32.
    replace (i * EW + 64 + PW - 1) with (i * EW + (64 + PW - 1)) by lia.
    fold (px st 64 i). fold (px st (64 + PW - 1) i).
    rewrite !Hst by lia.
    destruct (Z.eqb_spec y i) as [->|Hne]; cbn [andb].
    + cases_Z; try reflexivity; try lia.
    + cases_Z; try reflexivity; try lia.
Qed.

(** The six steps of [pad_frame], composed. *)
Definition pad_steps (src dst : list byte) : list byte :=
  pad_left_right EW EH PW
    (pad_top_bottom EW EH
      (pad_bottom H EW PW PH
        (pad_right src W H EW PW
          (copy_rows src W H EW (memset dst x00 (EW * EH)))))).

Definition clamp (v n : Z) : Z := Z.min (Z.max v 0) (n - 1).

Lemma pad_steps_spec src dst :
  W * H <= Z.of_nat (length src) -> EW * EH <= Z.of_nat (length dst) ->
  length (pad_steps src dst) = length dst /\
  forall x y, 0 <= x < EW -> 0 <= y < EH ->
    px (pad_steps src dst) x y = load src (clamp (y - 64) H * W + clamp (x - 64) W).
Proof.
  intros Hsrc Hdst. unfold pad_steps.
  pose proof dims_small as Hdims.
  set (d0 := memset dst x00 (EW * EH)).
  assert (Hl0 : length d0 = length dst) by (apply length_memset; lia).
  destruct (copy_rows_spec src d0 Hsrc ltac:(lia)) as [Hl1 H1].
  set (d1 := copy_rows src W H EW d0) in *.
  destruct (pad_right_spec src d1 Hsrc ltac:(lia)) as [Hl2 H2].
  set (d2 := pad_right src W H EW PW d1) in *.
  destruct (pad_bottom_spec d2 ltac:(lia)) as [Hl3 H3].
  set (d3 := pad_bottom H EW PW PH d2) in *.
  destruct (pad_top_bottom_spec d3 ltac:(lia)) as [Hl4 H4].
  set (d4 := pad_top_bottom EW EH d3) in *.
  destruct (pad_left_right_spec d4 ltac:(lia)) as [Hl5 H5].
  set (d5 := pad_left_right EW EH PW d4) in *.
  split; [congruence|].
  assert (G2 : forall x y, 64 <= x < 64 + PW -> 64 <= y < 64 + H ->
            px d2 x y = load src ((y - 64) * W + clamp (x - 64) W)).
  { intros x y Hx Hy. rewrite H2, H1 by lia. unfold clamp.
    cases_Z; try lia; f_equal; lia. }
  assert (G3 : forall x y, 64 <= x < 64 + PW -> 64 <= y < 64 + PH ->
            px d3 x y = load src (clamp (y - 64) H * W + clamp (x - 64) W)).
  { intros x y Hx Hy. rewrite H3 by lia.
    destruct (Z.leb_spec (64 + H) y); cbn [andb].
    - cases_Z; try lia. rewrite G2 by lia. f_equal. unfold clamp. f_equal. f_equal. lia.
    - rewrite G2 by lia. f_equal. unfold clamp. f_equal. f_equal. lia. }
  assert (G4 : forall x y, 64 <= x < 64 + PW -> 0 <= y < EH ->
            px d4 x y = load src (clamp (y - 64) H * W + clamp (x - 64) W)).
  { intros x y Hx Hy. rewrite H4 by lia.
    destruct (Z.ltb_spec y 64).
    - rewrite G3 by lia. f_equal. unfold clamp. f_equal. f_equal. lia.
    - destruct (Z.leb_spec (EH - 64) y).
      + rewrite G3 by lia. f_equal. unfold clamp. f_equal. f_equal. lia.
      + apply G3; lia. }
  intros x y Hx Hy. rewrite H5 by lia.
  destruct (Z.ltb_spec x 64).
  - rewrite G4 by lia. f_equal. unfold clamp. f_equal. lia.
  - destruct (Z.leb_spec (64 + PW) x).
    + rewrite G4 by lia. f_equal. unfold clamp. f_equal. lia.
    + apply G4; lia.
Qed.

End Geometry.

(** Sizes of the padded plane, without the 32-bit reductions. *)
Definition padded_width (W : Z) : Z := 16 * ((W + 15) / 16).
Definition edged_width (W : Z) : Z := padded_width W + 128.

Lemma padded_width_bounds W : 0 < W -> W <= padded_width W < W + 16.
Proof.
  intros HW. unfold padded_width.
  pose proof (Z.div_mod (W + 15) 16 ltac:(lia)).
  pose proof (Z.mod_pos_bound (W + 15) 16 ltac:(lia)). lia.
Qed.

Lemma pad_frame_steps src dst W H :
  0 < W -> 0 < H -> edged_width W * edged_width H < 2 ^ 32 ->
  pad_frame src dst W H =
    pad_steps W H (padded_width W) (padded_width H) (edged_width W) (edged_width H)
      src dst.
Proof.
  intros HW HH Hfit.
  pose proof (padded_width_bounds W HW) as HPW.
  pose proof (padded_width_bounds H HH) as HPH.
  pose proof (dims_small W H (padded_width W) (padded_width H) (edged_width W)
                (edged_width H) ltac:(lia) ltac:(lia) eq_refl eq_refl Hfit) as Hd.
  unfold edged_width, padded_width in *.
  unfold pad_frame, pad_steps, mb_count, edged.
  unwrap32.
  replace ((W + 15) / 16 * 16) with (16 * ((W + 15) / 16)) by lia.
  replace ((H + 15) / 16 * 16) with (16 * ((H + 15) / 16)) by lia.
  reflexivity.
Qed.

(** [calculate_padded_size] is the byte size of the padded plane. *)
Lemma calculate_padded_size_small W H :
  0 < W -> 0 < H -> edged_width W * edged_width H < 2 ^ 32 ->
  calculate_padded_size W H = edged_width W * edged_width H.
Proof.
  intros HW HH Hfit.
  pose proof (padded_width_bounds W HW) as HPW.
  pose proof (padded_width_bounds H HH) as HPH.
  pose proof (dims_small W H (padded_width W) (padded_width H) (edged_width W)
                (edged_width H) ltac:(lia) ltac:(lia) eq_refl eq_refl Hfit) as Hd.
  unfold edged_width, padded_width in *.
  unfold calculate_padded_size, mb_count, edged.
  unwrap32. reflexivity.
Qed.

Lemma edged_small W H :
  1 <= W <= 8192 -> 1 <= H <= 8192 ->
  128 < edged_width W /\ 128 < edged_width H /\
  edged_width W * edged_width H < 2 ^ 32.
Proof.
  intros HW HH.
  pose proof (padded_width_bounds W ltac:(lia)).
  pose proof (padded_width_bounds H ltac:(lia)).
  unfold edged_width.
  assert ((padded_width W + 128) * (padded_width H + 128) <= 8336 * 8336)
    by (apply Z.mul_le_mono_nonneg; lia).
  lia.
Qed.

Lemma length_pad_frame src dst W H :
  0 < W -> 0 < H -> edged_width W * edged_width H < 2 ^ 32 ->
  W * H <= Z.of_nat (length src) ->
  edged_width W * edged_width H <= Z.of_nat (length dst) ->
  length (pad_frame src dst W H) = length dst.
Proof.
  intros HW HH Hfit Hsrc Hdst.
  pose proof (padded_width_bounds W HW). pose proof (padded_width_bounds H HH).
  rewrite pad_frame_steps by assumption.
  apply (pad_steps_spec W H (padded_width W) (padded_width H)); auto; lia.
Qed.

(** The padded plane depends on the first [W * H] source bytes only: not
    on what follows them, nor on what the destination held. *)
Lemma pad_frame_plane_ext src1 src2 dst1 dst2 W H :
  0 < W -> 0 < H -> edged_width W * edged_width H < 2 ^ 32 ->
  W * H <= Z.of_nat (length src1) -> W * H <= Z.of_nat (length src2) ->
  edged_width W * edged_width H <= Z.of_nat (length dst1) ->
  edged_width W * edged_width H <= Z.of_nat (length dst2) ->
  take (Z.to_nat (W * H)) src1 = take (Z.to_nat (W * H)) src2 ->
  take (Z.to_nat (edged_width W * edged_width H)) (pad_frame src1 dst1 W H)
  = take (Z.to_nat (edged_width W * edged_width H)) (pad_frame src2 dst2 W H).
Proof.
  intros HW HH Hfit Hs1 Hs2 Hd1 Hd2 Hsrc.
  pose proof (padded_width_bounds W HW) as HPW.
  pose proof (padded_width_bounds H HH) as HPH.
  set (EW := edged_width W) in *. set (EH := edged_width H) in *.
  assert (HEW : EW = padded_width W + 128) by reflexivity.
  assert (HEH : EH = padded_width H + 128) by reflexivity.
  pose proof (length_pad_frame src1 dst1 W H HW HH Hfit Hs1 Hd1) as Hl1.
  pose proof (length_pad_frame src2 dst2 W H HW HH Hfit Hs2 Hd2) as Hl2.
  rewrite !pad_frame_steps in * by assumption. fold EW EH in Hl1, Hl2 |- *.
  destruct (pad_steps_spec W H (padded_width W) (padded_width H) EW EH
              ltac:(lia) ltac:(lia) HEW HEH Hfit src1 dst1 Hs1 Hd1) as [_ Hp1].
  destruct (pad_steps_spec W H (padded_width W) (padded_width H) EW EH
              ltac:(lia) ltac:(lia) HEW HEH Hfit src2 dst2 Hs2 Hd2) as [_ Hp2].
  apply list_eq_load.
  { rewrite !length_take. lia. }
  intros k Hk. rewrite length_take in Hk.
  rewrite !load_take by lia.
  assert (HEWpos : 0 < EW) by lia.
  pose proof (Z.div_mod k EW ltac:(lia)) as Hdm.
  pose proof (Z.mod_pos_bound k EW HEWpos) as Hmod.
  assert (Hy : 0 <= k / EW < EH).
  { split; [apply Z.div_pos; lia|]. apply Z.div_lt_upper_bound; lia. }
  specialize (Hp1 _ _ Hmod Hy). specialize (Hp2 _ _ Hmod Hy). unfold px in Hp1, Hp2.
  replace (k / EW * EW + k mod EW) with k in Hp1, Hp2 by lia.
  rewrite Hp1, Hp2.
  set (i := clamp (k / EW - 64) H * W + clamp (k mod EW - 64) W).
  assert (Hi : 0 <= i < W * H).
  { subst i. unfold clamp.
    pose proof (row_bound (Z.min (Z.max (k / EW - 64) 0) (H - 1)) H W ltac:(lia) ltac:(lia)).
    lia. }
  rewrite <- (load_take src1 (W * H) i Hi), <- (load_take src2 (W * H) i Hi).
  rewrite Hsrc. reflexivity.
Qed.

(** C3. For [1 <= W, H], a source plane of [W * H] bytes and a destination
    of [EW * EH] bytes that fits the 32-bit address space
    ([EW = 16 * ceil (W / 16) + 128], likewise [EH]), [pad_frame] leaves
    in the destination, at every position [(x, y)] with [0 <= x < EW] and
    [0 <= y < EH], the source byte at row [min (max (y - 64) 0) (H - 1)]
    and column [min (max (x - 64) 0) (W - 1)]; in particular a plane of
    constant value [v] is padded to a plane of constant value [v]. *)
Theorem pad_frame_edge_replicated (src dst : list byte) (W H : Z) :
  let EW := 16 * ((W + 15) / 16) + 128 in
  let EH := 16 * ((H + 15) / 16) + 128 in
  1 <= W -> 1 <= H ->
  Z.of_nat (length src) = W * H ->
  Z.of_nat (length dst) = EW * EH ->
  EW * EH < 2 ^ 32 ->
  let out := pad_frame src dst W H in
  Z.of_nat (length out) = EW * EH /\
  (forall x y, 0 <= x < EW -> 0 <= y < EH ->
     exists b,
       out !! Z.to_nat (y * EW + x) = Some b /\
       src !! Z.to_nat (Z.min (Z.max (y - 64) 0) (H - 1) * W
                        + Z.min (Z.max (x - 64) 0) (W - 1)) = Some b) /\
  (forall v, (forall b, b ∈ src -> b = v) -> out = replicate (Z.to_nat (EW * EH)) v).
Proof.
  intros EW EH HW HH Hsrc Hdst Hfit out.
  assert (HEW : EW = edged_width W) by reflexivity.
  assert (HEH : EH = edged_width H) by reflexivity.
  pose proof (padded_width_bounds W ltac:(lia)) as HPW.
  pose proof (padded_width_bounds H ltac:(lia)) as HPH.
  assert (Hbig : 128 < EW /\ 128 < EH) by (rewrite HEW, HEH; unfold edged_width; lia).
  subst out. rewrite pad_frame_steps by (fold EW EH; lia).
  destruct (pad_steps_spec W H (padded_width W) (padded_width H) EW EH
              ltac:(lia) ltac:(lia) HEW HEH Hfit src dst ltac:(lia) ltac:(lia))
    as [Hlen Hpx].
  rewrite <- HEW, <- HEH.
  set (out := pad_steps _ _ _ _ _ _ src dst) in *.
  assert (Hcell : forall x y, 0 <= x < EW -> 0 <= y < EH ->
            0 <= y * EW + x < Z.of_nat (length out)).
  { intros x y Hx Hy.
    pose proof (row_bound y EH EW Hy ltac:(lia)). lia. }
  assert (Hsrcidx : forall x y,
            0 <= clamp (y - 64) H * W + clamp (x - 64) W < Z.of_nat (length src)).
  { intros x y. unfold clamp.
    pose proof (row_bound (Z.min (Z.max (y - 64) 0) (H - 1)) H W ltac:(lia) ltac:(lia)).
    lia. }
  split; [lia|]. split.
  - intros x y Hx Hy. exists (px EW out x y). split.
    + apply lookup_load. apply Hcell; assumption.
    + rewrite Hpx by assumption. apply lookup_load. apply Hsrcidx.
  - intros v Hv. apply list_eq. intros k.
    destruct (decide (k < length out)%nat) as [Hk|Hk].
    + rewrite lookup_replicate_2 by lia.
      assert (HEWpos : 0 < EW) by lia.
      assert (Hklt : Z.of_nat k < EW * EH) by lia.
      pose proof (Z.div_mod (Z.of_nat k) EW ltac:(lia)) as Hdm.
      pose proof (Z.mod_pos_bound (Z.of_nat k) EW HEWpos) as Hmod.
      assert (Hy : 0 <= Z.of_nat k / EW < EH).
      { split; [apply Z.div_pos; lia|]. apply Z.div_lt_upper_bound; lia. }
      specialize (Hpx _ _ Hmod Hy). unfold px in Hpx.
      replace (Z.of_nat k / EW * EW + Z.of_nat k mod EW) with (Z.of_nat k) in Hpx by lia.
      replace k with (Z.to_nat (Z.of_nat k)) at 1 by lia.
      rewrite lookup_load by lia. rewrite Hpx.
      f_equal. apply Hv. apply list_elem_of_lookup.
      eexists. apply lookup_load. apply Hsrcidx.
    + rewrite lookup_ge_None_2 by lia.
      symmetry. apply lookup_replicate_None. lia.
Qed.

Lemma pad_frame_edge_replicated_witness :
  let src := ["a"; "b"; "c"; "d"; "e"; "f"]%byte in
  let dst := replicate (Z.to_nat 20736) "?"%byte in
  Z.of_nat (length (pad_frame src dst 3 2)) = 144 * 144.
Proof.
  intros src dst.
  refine (proj1 (pad_frame_edge_replicated src dst 3 2 _ _ _ _ _));
    [lia | lia | reflexivity | vm_compute; reflexivity | vm_compute; reflexivity].
Defined.

(** *** What [pad_frame] leaves alone *)

Section Beyond.

Variables W H PW PH EW EH : Z.
Hypothesis HW : 0 < W <= PW.
Hypothesis HH : 0 < H <= PH.
Hypothesis HEW : EW = PW + 128.
Hypothesis HEH : EH = PH + 128.
Hypothesis Hfit : EW * EH < 2 ^ 32.

(** [st] is as long as [dst] and holds the bytes of [dst] from the end of
    the plane on. *)
Definition beyond (dst st : list byte) : Prop :=
  length st = length dst /\ forall k, EW * EH <= k -> load st k = load dst k.

Lemma beyond_refl dst : beyond dst dst.
Proof. split; reflexivity. Qed.

Lemma beyond_trans d1 d2 d3 : beyond d1 d2 -> beyond d2 d3 -> beyond d1 d3.
Proof.
  intros [Hl1 H1] [Hl2 H2]. split; [congruence|].
  intros k Hk. rewrite H2, H1 by exact Hk. reflexivity.
Qed.

Lemma in_plane y : 0 <= y < EH -> 0 <= y * EW /\ y * EW + EW <= EW * EH.
Proof. intros Hy. apply row_bound; [exact Hy | lia]. Qed.

Lemma plane_dims :
  128 < EW < 2 ^ 32 /\ 128 < EH < 2 ^ 32 /\ W * H <= EW * EH /\ PW * PH <= EW * EH.
Proof. nia. Qed.

Lemma memcpy_beyond st d src s n :
  0 <= d -> 0 <= n -> d + n <= EW * EH -> EW * EH <= Z.of_nat (length st) ->
  0 <= s -> s + n <= Z.of_nat (length src) ->
  beyond st (memcpy st d src s n).
Proof.
  intros Hd Hn Hdn Hlen Hs Hsn. split; [apply length_memcpy; lia|].
  intros k Hk. rewrite load_memcpy by lia.
  destruct (Z.leb_spec d k), (Z.ltb_spec k (d + n)); cbn [andb]; first [reflexivity | lia].
Qed.

Lemma store_run_beyond st lo hi base (f : Z -> Z) v :
  lo <= hi -> 0 <= base + lo -> base + hi <= EW * EH ->
  EW * EH <= Z.of_nat (length st) ->
  (forall i, lo <= i < hi -> f i = base + i) ->
  beyond st (for_range lo hi (fun i d => store d (f i) v) st).
Proof.
  intros Hle Hlo Hhi Hlen Hf.
  destruct (store_run st lo hi base f v Hle Hlo ltac:(lia) Hf) as [Hl Hrun].
  split; [exact Hl|]. intros k Hk. rewrite Hrun by lia.
  destruct (Z.leb_spec (base + lo) k), (Z.ltb_spec k (base + hi)); cbn [andb];
    first [reflexivity | lia].
Qed.

(** A loop whose every iteration stays within the plane does. *)
Lemma for_range_beyond lo hi (body : Z -> list byte -> list byte) dst :
  lo <= hi -> EW * EH <= Z.of_nat (length dst) ->
  (forall i st, lo <= i < hi -> EW * EH <= Z.of_nat (length st) -> beyond st (body i st)) ->
  beyond dst (for_range lo hi body dst).
Proof.
  intros Hle Hlen Hbody.
  apply (for_range_ind (fun _ st => beyond dst st)); [exact Hle | apply beyond_refl |].
  intros i st Hi Hst. apply (beyond_trans _ st); [exact Hst|].
  apply Hbody; [exact Hi|]. destruct Hst as [Hl _]. rewrite Hl. exact Hlen.
Qed.

Lemma copy_rows_beyond src dst :
  W * H <= Z.of_nat (length src) -> EW * EH <= Z.of_nat (length dst) ->
  beyond dst (copy_rows src W H EW dst).
Proof.
  intros Hsrc Hdst. unfold copy_rows, edge_size. pose proof plane_dims as Hdims.
  apply for_range_beyond; [lia | exact Hdst |].
  intros i st Hi Hlen.
  assert (Hrow := in_plane (i + 64) ltac:(lia)).
  assert (Hsrow := row_bound i H W Hi ltac:(lia)).
  unwrap32. apply memcpy_beyond; lia.
Qed.

Lemma pad_right_beyond src dst :
  W * H <= Z.of_nat (length src) -> EW * EH <= Z.of_nat (length dst) ->
  beyond dst (pad_right src W H EW PW dst).
Proof.
  intros Hsrc Hdst. unfold pad_right, edge_size. pose proof plane_dims as Hdims.
  destruct (Z.ltb_spec W PW) as [Hlt|Hge]; [|apply beyond_refl].
  apply for_range_beyond; [lia | exact Hdst |].
  intros i st Hi Hlen.
  assert (Hrow := in_plane (i + 64) ltac:(lia)).
  apply (store_run_beyond st W PW ((i + 64) * EW + 64)); try lia.
  intros x Hx. unwrap32. reflexivity.
Qed.

Lemma pad_bottom_beyond dst :
  EW * EH <= Z.of_nat (length dst) -> beyond dst (pad_bottom H EW PW PH dst).
Proof.
  intros Hdst. unfold pad_bottom, edge_size. pose proof plane_dims as Hdims.
  destruct (Z.ltb_spec H PH) as [Hlt|Hge]; [|apply beyond_refl].
  apply for_range_beyond; [lia | exact Hdst |].
  intros i st Hi Hlen.
  assert (Hrow := in_plane (i + 64) ltac:(lia)).
  assert (Hsrc := in_plane (H - 1 + 64) ltac:(lia)).
  unwrap32. apply memcpy_beyond; lia.
Qed.

Lemma pad_top_bottom_beyond dst :
  EW * EH <= Z.of_nat (length dst) -> beyond dst (pad_top_bottom EW EH dst).
Proof.
  intros Hdst. unfold pad_top_bottom, edge_size. pose proof plane_dims as Hdims.
  apply for_range_beyond; [lia | exact Hdst |].
  intros i st Hi Hlen.
  assert (Hr1 := in_plane i ltac:(lia)).
  assert (Hr2 := in_plane 64 ltac:(lia)).
  assert (Hr3 := in_plane (EH - 1 - i) ltac:(lia)).
  assert (Hr4 := in_plane (EH - 1 - 64) ltac:(lia)).
  unwrap32.
  assert (H1 : beyond st (memcpy st (i * EW) st (64 * EW) EW))
    by (apply memcpy_beyond; lia).
  apply (beyond_trans _ _ _ H1). destruct H1 as [Hl1 _].
  apply memcpy_beyond; lia.
Qed.

Lemma pad_left_right_beyond dst :
  EW * EH <= Z.of_nat (length dst) -> beyond dst (pad_left_right EW EH PW dst).
Proof.
  intros Hdst. unfold pad_left_right, edge_size. pose proof plane_dims as Hdims.
  apply for_range_beyond; [lia | exact Hdst |].
  intros i st Hi Hlen.
  assert (Hrow := in_plane i Hi).
  match goal with |- beyond st (for_range 0 64 ?g (for_range 0 64 ?f st)) =>
    assert (H1 : beyond st (for_range 0 64 f st)) end.
  { apply (store_run_beyond st 0 64 (i * EW)); try lia.
    intros k Hk. unwrap32. reflexivity. }
  apply (beyond_trans _ _ _ H1). destruct H1 as [Hl1 _].
  apply (store_run_beyond _ 0 64 (i * EW + 64 + PW)); try lia.
  intros k Hk. unwrap32. reflexivity.
Qed.

Lemma pad_steps_beyond src dst :
  W * H <= Z.of_nat (length src) -> EW * EH <= Z.of_nat (length dst) ->
  beyond dst (pad_steps W H PW PH EW EH src dst).
Proof.
  intros Hsrc Hdst. unfold pad_steps. pose proof plane_dims as Hdims.
  assert (H0 : beyond dst (memset dst x00 (EW * EH))).
  { split; [apply length_memset; lia|]. intros k Hk. rewrite load_memset by lia.
    destruct (Z.ltb_spec k (EW * EH)); [lia | reflexivity]. }
  assert (Hlen : forall st, beyond dst st -> EW * EH <= Z.of_nat (length st)).
  { intros st [Hl _]. rewrite Hl. exact Hdst. }
  assert (H1 := beyond_trans _ _ _ H0 (copy_rows_beyond src _ Hsrc (Hlen _ H0))).
  assert (H2 := beyond_trans _ _ _ H1 (pad_right_beyond src _ Hsrc (Hlen _ H1))).
  assert (H3 := beyond_trans _ _ _ H2 (pad_bottom_beyond _ (Hlen _ H2))).
  assert (H4 := beyond_trans _ _ _ H3 (pad_top_bottom_beyond _ (Hlen _ H3))).
  exact (beyond_trans _ _ _ H4 (pad_left_right_beyond _ (Hlen _ H4))).
Qed.

End Beyond.

(** X30. [pad_frame] touches the two planes it is given and nothing
    else: in a destination buffer that is longer than the padded plane,
    the bytes behind the plane are left as they were, and the plane it
    writes is determined by the first [W * H] bytes of the source, whatever
    follows them and whatever the destination held. *)
Theorem pad_frame_stays_within_planes (src src' dst dst' : list byte) (W H : Z) :
  let EW := 16 * ((W + 15) / 16) + 128 in
  let EH := 16 * ((H + 15) / 16) + 128 in
  1 <= W -> 1 <= H -> EW * EH < 2 ^ 32 ->
  W * H <= Z.of_nat (length src) -> EW * EH <= Z.of_nat (length dst) ->
  W * H <= Z.of_nat (length src') -> EW * EH <= Z.of_nat (length dst') ->
  take (Z.to_nat (W * H)) src' = take (Z.to_nat (W * H)) src ->
  length (pad_frame src dst W H) = length dst /\
  drop (Z.to_nat (EW * EH)) (pad_frame src dst W H) = drop (Z.to_nat (EW * EH)) dst /\
  take (Z.to_nat (EW * EH)) (pad_frame src' dst' W H)
    = take (Z.to_nat (EW * EH)) (pad_frame src dst W H).
Proof.
  intros EW EH HW HH Hfit Hsrc Hdst Hsrc' Hdst' Hsame.
  assert (HEW : EW = edged_width W) by reflexivity.
  assert (HEH : EH = edged_width H) by reflexivity.
  pose proof (padded_width_bounds W ltac:(lia)) as HPW.
  pose proof (padded_width_bounds H ltac:(lia)) as HPH.
  rewrite HEW, HEH in *.
  destruct (pad_steps_beyond W H (padded_width W) (padded_width H) (edged_width W)
              (edged_width H) ltac:(lia) ltac:(lia) eq_refl eq_refl Hfit src dst Hsrc Hdst)
    as [Hlen Hfar].
  rewrite <- pad_frame_steps in Hlen, Hfar by lia.
  split; [exact Hlen|]. split.
  - assert (Hpos : 0 <= edged_width W * edged_width H) by (unfold edged_width; nia).
    apply list_eq_load.
    + rewrite !length_drop, Hlen. reflexivity.
    + intros k Hk. rewrite !load_drop by lia. apply Hfar. lia.
  - apply pad_frame_plane_ext; try assumption; lia.
Qed.

Lemma pad_frame_stays_within_planes_witness :
  let src := ["a"; "b"; "c"; "d"; "e"; "f"]%byte in
  let dst := replicate (Z.to_nat 20736) "?"%byte ++ ["x"; "y"]%byte in
  drop (Z.to_nat (144 * 144)) (pad_frame src dst 3 2) = drop (Z.to_nat (144 * 144)) dst.
Proof.
  intros src dst.
  assert (Hlen : Z.of_nat (length dst) = 20738).
  { unfold dst. rewrite length_app, length_replicate. cbn [length]. lia. }
  refine (proj1 (proj2 (pad_frame_stays_within_planes src src dst dst 3 2 _ _ _ _ _ _ _ _)));
    try first [lia | reflexivity | rewrite Hlen; vm_compute; discriminate
               | cbn [length]; vm_compute; discriminate].
Defined.

End PadFrame.

(** ** utils/buffer-pool.ts *)

Module BufferPool.

(** [Uint8Array] objects live in a store; a value of type [Uint8Array] is a
    reference into it, so that a released buffer the caller still holds is
    the very object the pool hands out again.  The length of a
    [Uint8Array] is fixed when it is created. *)
Definition ref := positive.
Abbreviation store := (gmap ref (list byte)).

Record BufferPool := {
  pool : gmap Z (list ref);
  maxPoolSize : Z
}.

Inductive error := RangeError_invalid_typed_array_length (size : Z).

Definition constructor (maxPoolSize : Z) : BufferPool :=
  {| pool := ∅; maxPoolSize := maxPoolSize |}.

(** [new Uint8Array(size)]: a fresh object of [size] zero bytes. *)
Definition new_Uint8Array (size : Z) (h : store) : outcome error (ref * store) :=
  if size <? 0 then Throws (RangeError_invalid_typed_array_length size)
  else
    let r := fresh (dom h) in
    Returns (r, <[r := replicate (Z.to_nat size) x00]> h).

(** [buffer.fill(0)]. *)
Definition fill0 (buffer : ref) (h : store) : store :=
  alter (fun d => replicate (length d) x00) buffer h.

(** [Array.prototype.pop]: removes and returns the last element. *)
Definition pop {A} (l : list A) : option (A * list A) :=
  match last l with
  | Some x => Some (x, removelast l)
  | None => None
  end.

Definition acquire (size : Z) (bp : BufferPool) (h : store)
    : outcome error (ref * BufferPool * store) :=
  let fresh_one :=
    match new_Uint8Array size h with
    | Returns (r, h') => Returns (r, bp, h')
    | Throws e => Throws e
    end in
  match pool bp !! size with
  | Some poolForSize =>
      match pop poolForSize with
      | Some (buffer, rest) =>
          Returns (buffer,
                   {| pool := <[size := rest]> (pool bp); maxPoolSize := maxPoolSize bp |},
                   fill0 buffer h)
      | None => fresh_one
      end
  | None => fresh_one
  end.

Definition release (buffer : ref) (bp : BufferPool) (h : store) : BufferPool :=
  let size := Z.of_nat (length (default [] (h !! buffer))) in
  let poolForSize := default [] (pool bp !! size) in
  let poolForSize :=
    if Z.of_nat (length poolForSize) <? maxPoolSize bp
    then poolForSize ++ [buffer] else poolForSize in
  {| pool := <[size := poolForSize]> (pool bp); maxPoolSize := maxPoolSize bp |}.

(** What a program holding a pool can do between two calls of the pool:
    call [acquire] or [release], write into any array (also one it has
    released), create arrays of its own. *)
Inductive step : BufferPool * store -> BufferPool * store -> Prop :=
| step_acquire size bp h buffer bp' h' :
    acquire size bp h = Returns (buffer, bp', h') ->
    step (bp, h) (bp', h')
| step_release buffer bp h :
    is_Some (h !! buffer) ->
    step (bp, h) (release buffer bp h, h)
| step_write r d d' bp h :
    h !! r = Some d -> length d' = length d ->
    step (bp, h) (bp, <[r := d']> h)
| step_new r d bp h :
    h !! r = None ->
    step (bp, h) (bp, <[r := d]> h).

Inductive reachable (maxPoolSize : Z) (h0 : store) : BufferPool * store -> Prop :=
| reach_init : reachable maxPoolSize h0 (constructor maxPoolSize, h0)
| reach_step st st' : reachable maxPoolSize h0 st -> step st st' ->
    reachable maxPoolSize h0 st'.

(** Pooled buffers are live and filed under their own length. *)
Definition pool_ok (st : BufferPool * store) : Prop :=
  forall size bufs b, pool st.1 !! size = Some bufs -> b ∈ bufs ->
    exists d, st.2 !! b = Some d /\ Z.of_nat (length d) = size.

Lemma pop_Some {A} (l : list A) x rest :
  pop l = Some (x, rest) -> l = rest ++ [x].
Proof.
  unfold pop. destruct (last l) as [y|] eqn:Hl; [|discriminate].
  intros [= <- <-]. apply last_Some in Hl as [l' ->].
  rewrite removelast_last. reflexivity.
Qed.

Lemma pop_None {A} (l : list A) : pop l = None -> l = [].
Proof.
  unfold pop. destruct (last l) eqn:Hl; [discriminate|].
  intros _. apply last_None in Hl. exact Hl.
Qed.

Lemma acquire_inv size bp h buffer bp' h' :
  acquire size bp h = Returns (buffer, bp', h') ->
  (exists bufs, pool bp !! size = Some (bufs ++ [buffer]) /\
     bp' = {| pool := <[size := bufs]> (pool bp); maxPoolSize := maxPoolSize bp |} /\
     h' = fill0 buffer h)
  \/ (0 <= size /\ buffer = fresh (dom h) /\ bp' = bp /\
      h' = <[buffer := replicate (Z.to_nat size) x00]> h /\
      forall bufs, pool bp !! size = Some bufs -> bufs = []).
Proof.
  unfold acquire, new_Uint8Array. intros Hacq.
  destruct (pool bp !! size) as [bufs|] eqn:Hp.
  - destruct (pop bufs) as [[b rest]|] eqn:Hpop.
    + left. apply pop_Some in Hpop. inversion Hacq; subst. eauto.
    + right. apply pop_None in Hpop. subst bufs.
      destruct (Z.ltb_spec size 0); [discriminate|].
      inversion Hacq; subst. repeat split; try lia. congruence.
  - right. destruct (Z.ltb_spec size 0); [discriminate|].
    inversion Hacq; subst. repeat split; try lia. congruence.
Qed.

Lemma fresh_not_in (h : store) : h !! fresh (dom h) = None.
Proof. apply not_elem_of_dom. apply is_fresh. Qed.

Lemma step_pool_ok st st' : pool_ok st -> step st st' -> pool_ok st'.
Proof.
  intros Hok Hstep. destruct Hstep as
    [size bp h buffer bp' h' Hacq | buffer bp h [d Hd] | r d d' bp h Hr Hlen | r d bp h Hr].
  - apply acquire_inv in Hacq as [(bufs & Hp & -> & ->) | (Hsz & -> & -> & -> & _)].
    + intros k l b Hl Hb. cbn in *.
      assert (Hlive : exists d, h !! b = Some d /\ Z.of_nat (length d) = k).
      { destruct (decide (k = size)) as [->|Hne].
        - rewrite lookup_insert_eq in Hl. injection Hl as <-.
          apply (Hok size (bufs ++ [buffer]) b Hp). apply elem_of_app. auto.
        - rewrite lookup_insert_ne in Hl by congruence. exact (Hok k l b Hl Hb). }
      destruct Hlive as (d & Hd & Hlen). unfold fill0.
      destruct (decide (b = buffer)) as [->|Hne].
      * exists (replicate (length d) x00). rewrite lookup_alter_eq, Hd.
        split; [reflexivity|]. rewrite length_replicate. exact Hlen.
      * exists d. rewrite lookup_alter_ne by congruence. auto.
    + intros k l b Hl Hb. cbn in *.
      destruct (Hok k l b Hl Hb) as (d & Hd & Hlen).
      exists d. split; [|exact Hlen].
      rewrite lookup_insert_ne; [exact Hd|].
      intros <-. rewrite fresh_not_in in Hd. discriminate.
  - intros k l b Hl Hb. cbn in *. rewrite Hd in Hl. cbn in Hl.
    destruct (decide (k = Z.of_nat (length d))) as [->|Hne].
    + rewrite lookup_insert_eq in Hl. injection Hl as <-.
      assert (Hcase : b ∈ default [] (pool bp !! Z.of_nat (length d)) \/ b = buffer).
      { destruct (Z.of_nat (length (default [] (pool bp !! Z.of_nat (length d))))
                    <? maxPoolSize bp); [|auto].
        apply elem_of_app in Hb as [Hb|Hb]; [auto|].
        apply list_elem_of_singleton in Hb. auto. }
      destruct Hcase as [Hin | ->]; [|eauto].
      destruct (pool bp !! Z.of_nat (length d)) as [bufs|] eqn:Hp; cbn in Hin.
      * exact (Hok _ bufs b Hp Hin).
      * apply elem_of_nil in Hin. contradiction.
    + rewrite lookup_insert_ne in Hl by congruence. exact (Hok k l b Hl Hb).
  - intros k l b Hl Hb. cbn in *.
    destruct (Hok k l b Hl Hb) as (d0 & Hd0 & Hlen0). cbn in Hd0.
    destruct (decide (b = r)) as [Heq|Hne].
    + subst b. exists d'. rewrite lookup_insert_eq. split; [reflexivity|].
      rewrite Hr in Hd0. injection Hd0 as <-. lia.
    + exists d0. rewrite lookup_insert_ne by congruence. auto.
  - intros k l b Hl Hb. cbn in *.
    destruct (Hok k l b Hl Hb) as (d0 & Hd0 & Hlen0). cbn in Hd0.
    exists d0. split; [|exact Hlen0].
    rewrite lookup_insert_ne; [exact Hd0|]. intros <-. congruence.
Qed.

Lemma reachable_pool_ok m h0 st : reachable m h0 st -> pool_ok st.
Proof.
  induction 1 as [|st st' _ IH Hstep].
  - intros k l b Hl. cbn in Hl. rewrite lookup_empty in Hl. discriminate.
  - exact (step_pool_ok st st' IH Hstep).
Qed.

(** C10. In every state a program can reach, [acquire size] (for a
    size [0 <= size]) returns a [Uint8Array] of exactly [size] bytes, all
    zero: either a fresh one, or the last buffer released under that
    length, which is zero-filled before it is handed out. *)
Theorem acquire_zeroed (m : Z) (h0 : store) (bp : BufferPool) (h : store) (size : Z) :
  reachable m h0 (bp, h) -> 0 <= size ->
  exists buffer bp' h',
    acquire size bp h = Returns (buffer, bp', h') /\
    h' !! buffer = Some (replicate (Z.to_nat size) x00) /\
    (h !! buffer = None \/
     exists bufs, pool bp !! size = Some (bufs ++ [buffer]) /\ is_Some (h !! buffer)).
Proof.
  intros Hreach Hsize.
  pose proof (reachable_pool_ok m h0 (bp, h) Hreach) as Hok.
  assert (Hfresh : exists buffer bp' h',
    new_Uint8Array size h = Returns (buffer, h') /\ bp' = bp /\
    h' !! buffer = Some (replicate (Z.to_nat size) x00) /\ h !! buffer = None).
  { unfold new_Uint8Array. destruct (Z.ltb_spec size 0); [lia|].
    eexists _, bp, _. split; [reflexivity|]. split; [reflexivity|].
    split; [apply lookup_insert_eq | apply fresh_not_in]. }
  unfold acquire.
  destruct (pool bp !! size) as [bufs|] eqn:Hp.
  - destruct (pop bufs) as [[b rest]|] eqn:Hpop.
    + apply pop_Some in Hpop. subst bufs.
      destruct (Hok size (rest ++ [b]) b Hp) as (d & Hd & Hlen).
      { apply elem_of_app. right. apply list_elem_of_singleton. reflexivity. }
      cbn in Hd. eexists b, _, _. split; [reflexivity|]. split.
      * unfold fill0. rewrite lookup_alter_eq, Hd. cbn. do 2 f_equal. lia.
      * right. exists rest. split; [reflexivity | eauto].
    + destruct Hfresh as (b & bp' & h' & -> & -> & Hz & Hnew). eauto 10.
  - destruct Hfresh as (b & bp' & h' & -> & -> & Hz & Hnew). eauto 10.
Qed.

Lemma acquire_zeroed_witness :
  let h0 : store := {[ 1%positive := ["a"; "b"; "c"]%byte ]} in
  let bp := release 1%positive (constructor 4) h0 in
  exists buffer bp' h',
    acquire 3 bp h0 = Returns (buffer, bp', h') /\
    h' !! buffer = Some (replicate (Z.to_nat 3) x00) /\
    (h0 !! buffer = None \/
     exists bufs, pool bp !! 3 = Some (bufs ++ [buffer]) /\ is_Some (h0 !! buffer)).
Proof.
  intros h0 bp.
  apply (acquire_zeroed 4 h0 bp h0 3); [|lia].
  eapply reach_step; [apply reach_init|].
  apply step_release. exists ["a"; "b"; "c"]%byte. reflexivity.
Defined.

(** The buffer handed out in that run is the released one, zero-filled. *)
Example acquire_reuses_released :
  let h0 : store := {[ 1%positive := ["a"; "b"; "c"]%byte ]} in
  match acquire 3 (release 1%positive (constructor 4) h0) h0 with
  | Returns (buffer, _, h') => buffer = 1%positive /\ h' !! buffer = Some [x00; x00; x00]
  | Throws _ => False
  end.
Proof. vm_compute. split; reflexivity. Qed.

(** *** The rest of the class: [getStats], [clear], [getTotalMemory] *)

Record Stat := {
  size : Z;
  count : Z
}.

(** The comparator [(a, b) => b.size - a.size] puts [a] before [b] when
    [b.size <= a.size]. *)
Definition by_size_descending (a b : Stat) : Prop := size b <= size a.

#[local] Instance by_size_descending_dec a b : Decision (by_size_descending a b).
Proof. unfold by_size_descending. apply _. Defined.

#[local] Instance by_size_descending_total : Total by_size_descending.
Proof. intros a b. unfold by_size_descending. lia. Qed.

#[local] Instance by_size_descending_trans : Transitive by_size_descending.
Proof. intros a b c. unfold by_size_descending. lia. Qed.

(** The entries of a [Map] are visited in insertion order, those of a
    [gmap] in an order of its own.  [getStats] sorts what it collects and
    the keys of a map are distinct, [getTotalMemory] adds integers: neither
    depends on the order. *)
Definition stat_of (entry : Z * list ref) : Stat :=
  {| size := entry.1; count := Z.of_nat (length entry.2) |}.

Definition getStats (bp : BufferPool) : list Stat :=
  let stats := map stat_of (map_to_list (pool bp)) in
  merge_sort by_size_descending stats.

Definition clear (bp : BufferPool) : BufferPool :=
  {| pool := ∅; maxPoolSize := maxPoolSize bp |}.

Definition getTotalMemory (bp : BufferPool) : Z :=
  map_fold (fun size buffers total => total + size * Z.of_nat (length buffers))
           0 (pool bp).

(** [buffer.length] of a live array. *)
Definition byteLength (h : store) (buffer : ref) : Z :=
  Z.of_nat (length (default [] (h !! buffer))).

(** The arrays the pool holds, one occurrence for each time it holds them. *)
Definition pooled (bp : BufferPool) : list ref :=
  concat (map snd (map_to_list (pool bp))).

Definition sum_with {A} (f : A -> Z) (l : list A) : Z :=
  foldr (fun x total => total + f x) 0 l.

Lemma sum_with_app {A} (f : A -> Z) l1 l2 :
  sum_with f (l1 ++ l2) = sum_with f l1 + sum_with f l2.
Proof. unfold sum_with. induction l1 as [|x l1 IH]; cbn; [|rewrite IH]; lia. Qed.

Lemma sum_with_perm {A} (f : A -> Z) l1 l2 :
  l1 ≡ₚ l2 -> sum_with f l1 = sum_with f l2.
Proof.
  unfold sum_with. induction 1; cbn; lia.
Qed.

Lemma sum_with_const {A} (f : A -> Z) c l :
  (forall x, x ∈ l -> f x = c) -> sum_with f l = c * Z.of_nat (length l).
Proof.
  unfold sum_with. induction l as [|x l IH]; intros Hc; cbn [foldr length]; [lia|].
  rewrite IH by (intros; apply Hc; set_solver).
  rewrite (Hc x) by set_solver. lia.
Qed.

Lemma getTotalMemory_entries bp :
  getTotalMemory bp =
  sum_with (fun entry => entry.1 * Z.of_nat (length entry.2)) (map_to_list (pool bp)).
Proof.
  unfold getTotalMemory, sum_with. rewrite map_fold_foldr.
  induction (map_to_list (pool bp)) as [|[k bufs] l IH]; cbn; [reflexivity|].
  rewrite IH. reflexivity.
Qed.

Lemma release_maxPoolSize buffer bp h : maxPoolSize (release buffer bp h) = maxPoolSize bp.
Proof. reflexivity. Qed.

Lemma step_maxPoolSize st st' : step st st' -> maxPoolSize st'.1 = maxPoolSize st.1.
Proof.
  destruct 1 as [sz bp h b bp' h' Hacq| | |]; try reflexivity.
  apply acquire_inv in Hacq as [(bufs & _ & -> & _) | (_ & _ & -> & _)]; reflexivity.
Qed.

Lemma reachable_maxPoolSize m h0 st : reachable m h0 st -> maxPoolSize st.1 = m.
Proof.
  induction 1 as [|st st' _ IH Hstep]; [reflexivity|].
  rewrite (step_maxPoolSize _ _ Hstep). exact IH.
Qed.

Definition bounded (st : BufferPool * store) : Prop :=
  forall sz bufs, pool st.1 !! sz = Some bufs ->
    Z.of_nat (length bufs) <= Z.max (maxPoolSize st.1) 0.

Lemma step_bounded st st' : bounded st -> step st st' -> bounded st'.
Proof.
  intros Hb Hstep. destruct Hstep as
    [sz bp h b bp' h' Hacq | b bp h _ | r d d' bp h _ _ | r d bp h _]; try exact Hb.
  - apply acquire_inv in Hacq as [(bufs & Hp & -> & _) | (_ & _ & -> & _)]; [|exact Hb].
    intros k l Hl. cbn in *. destruct (decide (k = sz)) as [->|Hne].
    + rewrite lookup_insert_eq in Hl. injection Hl as <-.
      specialize (Hb sz _ Hp). cbn in Hb. rewrite length_app in Hb. cbn in Hb. lia.
    + rewrite lookup_insert_ne in Hl by congruence. exact (Hb k l Hl).
  - intros k l Hl. cbn in *.
    set (n := Z.of_nat (length (default [] (h !! b)))) in *.
    destruct (decide (k = n)) as [->|Hne].
    + rewrite lookup_insert_eq in Hl. injection Hl as <-.
      assert (Hold : Z.of_nat (length (default [] (pool bp !! n)))
                     <= Z.max (maxPoolSize bp) 0).
      { destruct (pool bp !! n) as [bufs|] eqn:Hp; cbn; [exact (Hb n bufs Hp) | lia]. }
      destruct (Z.ltb_spec (Z.of_nat (length (default [] (pool bp !! n)))) (maxPoolSize bp));
        [|exact Hold].
      rewrite length_app. cbn. lia.
    + rewrite lookup_insert_ne in Hl by congruence. exact (Hb k l Hl).
Qed.

Lemma reachable_bounded m h0 st : reachable m h0 st -> bounded st.
Proof.
  induction 1 as [|st st' _ IH Hstep].
  - intros k l Hl. cbn in Hl. rewrite lookup_empty in Hl. discriminate.
  - exact (step_bounded st st' IH Hstep).
Qed.

(** X4. Whatever a program does with a pool and its arrays, the pool never
    holds more than [maxPoolSize] arrays of one length (none at all when
    [maxPoolSize] is zero or negative), and [maxPoolSize] never changes. *)
Theorem pool_never_exceeds_maxPoolSize (m : Z) (h0 : store) (bp : BufferPool) (h : store)
    (sz : Z) (bufs : list ref) :
  reachable m h0 (bp, h) -> pool bp !! sz = Some bufs ->
  maxPoolSize bp = m /\ Z.of_nat (length bufs) <= Z.max m 0.
Proof.
  intros Hreach Hp.
  pose proof (reachable_maxPoolSize _ _ _ Hreach) as Hm. cbn in Hm.
  split; [exact Hm|]. rewrite <- Hm.
  exact (reachable_bounded _ _ _ Hreach sz bufs Hp).
Qed.

Lemma pool_never_exceeds_maxPoolSize_witness :
  let h0 : store := {[ 1%positive := ["a"; "b"; "c"]%byte ]} in
  let bp := release 1%positive (release 1%positive (constructor 1) h0) h0 in
  maxPoolSize bp = 1 /\ Z.of_nat (length [1%positive]) <= Z.max 1 0.
Proof.
  intros h0 bp.
  apply (pool_never_exceeds_maxPoolSize 1 h0 bp h0 3 [1%positive]); [|reflexivity].
  eapply reach_step; [eapply reach_step; [apply reach_init|]|];
    apply step_release; exists ["a"; "b"; "c"]%byte; reflexivity.
Defined.

Lemma fill0_live buffer d (h : store) :
  h !! buffer = Some d -> fill0 buffer h = <[buffer := replicate (length d) x00]> h.
Proof.
  intros Hd. unfold fill0. apply map_eq. intros r.
  destruct (decide (r = buffer)) as [->|Hne].
  - rewrite lookup_alter_eq, lookup_insert_eq, Hd. reflexivity.
  - rewrite lookup_alter_ne, lookup_insert_ne by congruence. reflexivity.
Qed.

Lemma pop_snoc {A} (l : list A) x : pop (l ++ [x]) = Some (x, l).
Proof. unfold pop. rewrite last_snoc, removelast_last. reflexivity. Qed.

Lemma acquire_pooled sz bp h bufs buffer d :
  pool bp !! sz = Some (bufs ++ [buffer]) -> h !! buffer = Some d ->
  acquire sz bp h =
    Returns (buffer,
             {| pool := <[sz := bufs]> (pool bp); maxPoolSize := maxPoolSize bp |},
             <[buffer := replicate (length d) x00]> h).
Proof.
  intros Hp Hd. unfold acquire. rewrite Hp, pop_snoc, (fill0_live _ _ _ Hd). reflexivity.
Qed.

Lemma release_room buffer bp h d :
  h !! buffer = Some d ->
  Z.of_nat (length (default [] (pool bp !! Z.of_nat (length d)))) < maxPoolSize bp ->
  release buffer bp h =
    {| pool := <[Z.of_nat (length d) :=
                   default [] (pool bp !! Z.of_nat (length d)) ++ [buffer]]> (pool bp);
       maxPoolSize := maxPoolSize bp |}.
Proof.
  intros Hd Hroom. unfold release. rewrite Hd.
  change (default [] (Some d)) with d.
  destruct (Z.ltb_spec (Z.of_nat (length (default [] (pool bp !! Z.of_nat (length d)))))
              (maxPoolSize bp)); [reflexivity | lia].
Qed.

(** X5. Releasing a live array into a pool that has room for its length and
    acquiring that length again gives back the very same array, filled
    with zeros; the pool holds what it held before the release. *)
Theorem release_then_acquire (bp : BufferPool) (h : store) (buffer : ref) (d : list byte) :
  let n := Z.of_nat (length d) in
  let held := default [] (pool bp !! n) in
  h !! buffer = Some d ->
  Z.of_nat (length held) < maxPoolSize bp ->
  acquire n (release buffer bp h) h =
    Returns (buffer,
             {| pool := <[n := held]> (pool bp); maxPoolSize := maxPoolSize bp |},
             <[buffer := replicate (length d) x00]> h).
Proof.
  intros n held Hd Hroom.
  rewrite (release_room buffer bp h d Hd Hroom). fold n. fold held.
  rewrite (acquire_pooled n _ h held buffer d); cbn [pool maxPoolSize].
  - rewrite insert_insert_eq. reflexivity.
  - apply lookup_insert_eq.
  - exact Hd.
Qed.

Lemma release_then_acquire_witness :
  let h0 : store := {[ 1%positive := ["a"; "b"; "c"]%byte ]} in
  acquire 3 (release 1%positive (constructor 4) h0) h0 =
    Returns (1%positive,
             {| pool := <[3 := []]> ∅; maxPoolSize := 4 |},
             <[1%positive := [x00; x00; x00]]> h0).
Proof.
  intros h0.
  apply (release_then_acquire (constructor 4) h0 1%positive ["a"; "b"; "c"]%byte);
    [reflexivity | vm_compute; reflexivity].
Defined.

(** X6. [release] does not look at what the pool already holds: an array
    released twice is pooled twice, and the next two [acquire] calls of its
    length both return that one array. *)
Theorem double_release_aliases (bp : BufferPool) (h : store) (buffer : ref) (d : list byte) :
  let n := Z.of_nat (length d) in
  h !! buffer = Some d ->
  Z.of_nat (length (default [] (pool bp !! n))) + 2 <= maxPoolSize bp ->
  exists bp1 h1 bp2 h2,
    acquire n (release buffer (release buffer bp h) h) h = Returns (buffer, bp1, h1) /\
    acquire n bp1 h1 = Returns (buffer, bp2, h2).
Proof.
  intros n Hd Hroom. set (held := default [] (pool bp !! n)) in *.
  assert (Hrel1 : release buffer bp h =
    {| pool := <[n := held ++ [buffer]]> (pool bp); maxPoolSize := maxPoolSize bp |}).
  { apply (release_room buffer bp h d Hd). fold n. fold held. lia. }
  assert (Hrel2 : release buffer (release buffer bp h) h =
    {| pool := <[n := (held ++ [buffer]) ++ [buffer]]> (pool bp);
       maxPoolSize := maxPoolSize bp |}).
  { rewrite Hrel1. rewrite (release_room buffer _ h d Hd); fold n; cbn [pool maxPoolSize];
      rewrite lookup_insert_eq; change (default [] (Some ?l)) with l.
    - rewrite insert_insert_eq. reflexivity.
    - rewrite length_app. cbn. lia. }
  rewrite Hrel2. do 4 eexists. split.
  - apply (acquire_pooled n _ h (held ++ [buffer]) buffer d); [apply lookup_insert_eq | exact Hd].
  - apply (acquire_pooled n _ _ held buffer (replicate (length d) x00));
      apply lookup_insert_eq.
Qed.

Lemma double_release_aliases_witness :
  let h0 : store := {[ 1%positive := ["a"; "b"; "c"]%byte ]} in
  exists bp1 h1 bp2 h2,
    acquire 3 (release 1%positive (release 1%positive (constructor 4) h0) h0) h0
      = Returns (1%positive, bp1, h1) /\
    acquire 3 bp1 h1 = Returns (1%positive, bp2, h2).
Proof.
  intros h0.
  apply (double_release_aliases (constructor 4) h0 1%positive ["a"; "b"; "c"]%byte);
    [reflexivity | vm_compute; discriminate].
Defined.

(** X7. The one way [acquire] fails: a negative size.  No array has a negative
    length, so the pool holds nothing under such a size and the allocation
    throws. *)
Theorem acquire_negative_throws (m : Z) (h0 : store) (bp : BufferPool) (h : store) (sz : Z) :
  reachable m h0 (bp, h) -> sz < 0 ->
  acquire sz bp h = Throws (RangeError_invalid_typed_array_length sz).
Proof.
  intros Hreach Hneg.
  pose proof (reachable_pool_ok m h0 (bp, h) Hreach) as Hok.
  assert (Hnew : new_Uint8Array sz h = Throws (RangeError_invalid_typed_array_length sz)).
  { unfold new_Uint8Array. destruct (Z.ltb_spec sz 0); [reflexivity | lia]. }
  unfold acquire. rewrite Hnew.
  destruct (pool bp !! sz) as [bufs|] eqn:Hp; [|reflexivity].
  destruct (pop bufs) as [[b rest]|] eqn:Hpop; [|reflexivity].
  apply pop_Some in Hpop. subst bufs.
  destruct (Hok sz (rest ++ [b]) b Hp) as (d & _ & Hlen); [set_solver | lia].
Qed.

Lemma acquire_negative_throws_witness :
  let h0 : store := {[ 1%positive := ["a"; "b"; "c"]%byte ]} in
  acquire (-1) (release 1%positive (constructor 4) h0) h0
    = Throws (RangeError_invalid_typed_array_length (-1)).
Proof.
  intros h0.
  apply (acquire_negative_throws 4 h0 _ h0 (-1)); [|lia].
  eapply reach_step; [apply reach_init|].
  apply step_release. exists ["a"; "b"; "c"]%byte. reflexivity.
Defined.

Lemma strictly_descending (l : list Stat) :
  StronglySorted by_size_descending l -> NoDup (map size l) ->
  StronglySorted (fun a b => size b < size a) l.
Proof.
  induction 1 as [|a l Hl IH Hall]; intros Hnd; [constructor|].
  cbn in Hnd. apply NoDup_cons in Hnd as [Hnotin Hnd].
  constructor; [exact (IH Hnd)|].
  rewrite Forall_forall in *. intros b Hb.
  specialize (Hall b Hb). unfold by_size_descending in Hall.
  assert (size b <> size a); [|lia].
  intros Heq. apply Hnotin. rewrite <- Heq. apply list_elem_of_fmap. eauto.
Qed.

Lemma getStats_perm bp : getStats bp ≡ₚ map stat_of (map_to_list (pool bp)).
Proof. apply merge_sort_Permutation. Qed.

(** X8. [getStats] lists every length the pool has an entry for exactly once,
    largest first, with the number of arrays pooled under it.  A length
    whose arrays have all been acquired again stays listed, with count 0. *)
Theorem getStats_sorted (bp : BufferPool) :
  StronglySorted (fun a b => size b < size a) (getStats bp) /\
  forall s c, {| size := s; count := c |} ∈ getStats bp <->
    exists bufs, pool bp !! s = Some bufs /\ c = Z.of_nat (length bufs).
Proof.
  split.
  - apply strictly_descending.
    + apply Sorted_StronglySorted; [apply _|]. apply Sorted_merge_sort; apply _.
    + rewrite (getStats_perm bp). rewrite <- list_fmap_compose.
      apply (NoDup_fst_map_to_list (pool bp)).
  - intros s c. rewrite (getStats_perm bp), list_elem_of_fmap. split.
    + intros ([k bufs] & [= -> ->] & Hin). apply elem_of_map_to_list in Hin. eauto.
    + intros (bufs & Hp & ->). exists (s, bufs). split; [reflexivity|].
      apply elem_of_map_to_list. exact Hp.
Qed.

(** Any other way of visiting the entries and any other correct sort give
    the same statistics: a list that holds the same records as [getStats]
    and is in descending order of size is [getStats]. *)
Lemma getStats_any_order (bp : BufferPool) (stats : list Stat) :
  stats ≡ₚ map stat_of (map_to_list (pool bp)) ->
  Sorted by_size_descending stats -> stats = getStats bp.
Proof.
  intros Hperm Hsorted.
  assert (Hnd : NoDup (map size stats)).
  { rewrite Hperm, <- list_fmap_compose. apply (NoDup_fst_map_to_list (pool bp)). }
  apply (Sorted_unique_strong by_size_descending).
  - intros x1 x2 Hx1 Hx2 H12 H21. unfold by_size_descending in *.
    assert (Hsz : size x1 = size x2) by lia.
    rewrite (getStats_perm bp), <- Hperm in Hx2.
    apply list_elem_of_lookup in Hx1 as [i Hi]. apply list_elem_of_lookup in Hx2 as [j Hj].
    assert (i = j).
    { apply (NoDup_lookup _ i j (size x1) Hnd); rewrite list_lookup_fmap.
      - rewrite Hi. reflexivity.
      - rewrite Hj. cbn. congruence. }
    congruence.
  - exact Hsorted.
  - apply Sorted_merge_sort; apply _.
  - rewrite Hperm. symmetry. apply getStats_perm.
Qed.

Lemma sum_with_nonneg {A} (f : A -> Z) l : (forall x, 0 <= f x) -> 0 <= sum_with f l.
Proof.
  intros Hf. unfold sum_with. induction l as [|x l IH]; cbn; [lia|].
  specialize (Hf x). lia.
Qed.

Lemma sum_entries_bytes (h : store) (l : list (Z * list ref)) :
  (forall k bufs b, (k, bufs) ∈ l -> b ∈ bufs -> byteLength h b = k) ->
  sum_with (fun entry => entry.1 * Z.of_nat (length entry.2)) l =
  sum_with (byteLength h) (concat (map snd l)).
Proof.
  induction l as [|[k bufs] l IH]; intros Hall; [reflexivity|].
  cbn [map concat snd]. rewrite sum_with_app.
  rewrite <- IH by (intros k' bufs' b Hin Hb; apply (Hall k' bufs' b); [right|]; assumption).
  rewrite (sum_with_const (byteLength h) k bufs)
    by (intros b Hb; apply (Hall k bufs b); [left | exact Hb]).
  unfold sum_with. cbn. lia.
Qed.

(** X9. [getTotalMemory] adds up what [getStats] reports, and in every state
    a program can reach that is the number of bytes of the arrays the pool
    holds, an array pooled twice counted twice. *)
Theorem getTotalMemory_counts_bytes (m : Z) (h0 : store) (bp : BufferPool) (h : store) :
  reachable m h0 (bp, h) ->
  getTotalMemory bp = sum_with (fun s => size s * count s) (getStats bp) /\
  getTotalMemory bp = sum_with (byteLength h) (pooled bp) /\
  0 <= getTotalMemory bp.
Proof.
  intros Hreach. pose proof (reachable_pool_ok m h0 (bp, h) Hreach) as Hok.
  assert (Hbytes : getTotalMemory bp = sum_with (byteLength h) (pooled bp)).
  { rewrite getTotalMemory_entries. apply sum_entries_bytes.
    intros k bufs b Hin Hb. apply elem_of_map_to_list in Hin.
    destruct (Hok k bufs b Hin Hb) as (d & Hd & Hlen). cbn in Hd.
    unfold byteLength. rewrite Hd. exact Hlen. }
  split; [|split; [exact Hbytes|]].
  - rewrite getTotalMemory_entries, (sum_with_perm _ _ _ (getStats_perm bp)).
    induction (map_to_list (pool bp)) as [|[k bufs] l IH]; [reflexivity|].
    unfold sum_with in *. cbn. rewrite IH. reflexivity.
  - rewrite Hbytes. apply sum_with_nonneg. intros b. unfold byteLength. lia.
Qed.

Lemma getTotalMemory_counts_bytes_witness :
  let h0 : store := {[ 1%positive := ["a"; "b"; "c"]%byte ]} in
  let bp := release 1%positive (release 1%positive (constructor 4) h0) h0 in
  getTotalMemory bp = sum_with (fun s => size s * count s) (getStats bp) /\
  getTotalMemory bp = sum_with (byteLength h0) (pooled bp) /\
  0 <= getTotalMemory bp.
Proof.
  intros h0 bp.
  apply (getTotalMemory_counts_bytes 4 h0 bp h0).
  eapply reach_step; [eapply reach_step; [apply reach_init|]|];
    apply step_release; exists ["a"; "b"; "c"]%byte; reflexivity.
Defined.

(** X10. After [clear] the pool reports nothing, and the next [acquire] hands
    out a new array: none of the arrays released before comes back. *)
Theorem clear_forgets (bp : BufferPool) (h : store) (sz : Z) :
  0 <= sz ->
  getStats (clear bp) = [] /\ getTotalMemory (clear bp) = 0 /\
  exists buffer h',
    acquire sz (clear bp) h = Returns (buffer, clear bp, h') /\
    h !! buffer = None /\
    h' = <[buffer := replicate (Z.to_nat sz) x00]> h.
Proof.
  intros Hsz. split; [reflexivity|]. split; [reflexivity|].
  unfold acquire, new_Uint8Array. cbn [clear pool]. rewrite lookup_empty.
  destruct (Z.ltb_spec sz 0); [lia|].
  eexists _, _. split; [reflexivity|]. split; [apply fresh_not_in | reflexivity].
Qed.

Lemma clear_forgets_witness :
  let h0 : store := {[ 1%positive := ["a"; "b"; "c"]%byte ]} in
  let bp := release 1%positive (constructor 4) h0 in
  getStats (clear bp) = [] /\ getTotalMemory (clear bp) = 0 /\
  exists buffer h',
    acquire 3 (clear bp) h0 = Returns (buffer, clear bp, h') /\
    h0 !! buffer = None /\
    h' = <[buffer := replicate (Z.to_nat 3) x00]> h0.
Proof.
  intros h0 bp. apply (clear_forgets bp h0 3). lia.
Defined.

End BufferPool.

(** ** decoder/ffmpeg-decoder.ts: [RingBuffer] *)

Module RingBuffer.

Import Bytes.

Inductive error :=
| RingBuffer_overflow
| RingBuffer_underflow
| ERR_OUT_OF_RANGE (size : Z).

Record RingBuffer := {
  buffer : list byte;
  writePos : Z;
  readPos : Z;
  availableBytes : Z;
  capacity : Z
}.

(** [Buffer.allocUnsafe(size)]: [size] bytes of unspecified contents,
    here the first [size] values of [junk]. *)
Definition allocUnsafe (junk : nat -> byte) (size : Z) : list byte :=
  map junk (seq 0 (Z.to_nat size)).

(** [source.copy(target, targetStart, sourceStart, sourceEnd)]: copies as
    many bytes as the source range holds and the target has room for. *)
Definition copy (source target : list byte) (targetStart sourceStart sourceEnd : Z)
    : list byte :=
  let n := Z.min (Z.min sourceEnd (Z.of_nat (length source)) - sourceStart)
                 (Z.of_nat (length target) - targetStart) in
  blit target targetStart source sourceStart n.

Definition constructor (junk : nat -> byte) (size : Z) : outcome error RingBuffer :=
  if size <? 0 then Throws (ERR_OUT_OF_RANGE size)
  else Returns {| buffer := allocUnsafe junk size; writePos := 0; readPos := 0;
                  availableBytes := 0; capacity := size |}.

(** A method returns or throws, and leaves the object in some state. *)
Definition write (chunk : list byte) (rb : RingBuffer) : outcome error unit * RingBuffer :=
  let chunkSize := Z.of_nat (length chunk) in
  if capacity rb - availableBytes rb <? chunkSize then (Throws RingBuffer_overflow, rb)
  else
    let endSpace := capacity rb - writePos rb in
    let '(buffer', writePos') :=
      if chunkSize <=? endSpace then
        (copy chunk (buffer rb) (writePos rb) 0 chunkSize, writePos rb + chunkSize)
      else
        let b := copy chunk (buffer rb) (writePos rb) 0 endSpace in
        (copy chunk b 0 endSpace chunkSize, chunkSize - endSpace) in
    let writePos' := if capacity rb <=? writePos' then 0 else writePos' in
    (Returns tt,
     {| buffer := buffer'; writePos := writePos'; readPos := readPos rb;
        availableBytes := availableBytes rb + chunkSize; capacity := capacity rb |}).

Definition read (junk : nat -> byte) (size : Z) (rb : RingBuffer)
    : outcome error (list byte) * RingBuffer :=
  if availableBytes rb <? size then (Throws RingBuffer_underflow, rb)
  else if size <? 0 then (Throws (ERR_OUT_OF_RANGE size), rb)
  else
    let result := allocUnsafe junk size in
    let endSpace := capacity rb - readPos rb in
    let '(result, readPos') :=
      if size <=? endSpace then
        (copy (buffer rb) result 0 (readPos rb) (readPos rb + size), readPos rb + size)
      else
        let r := copy (buffer rb) result 0 (readPos rb) (capacity rb) in
        (copy (buffer rb) r endSpace 0 (size - endSpace), size - endSpace) in
    let readPos' := if capacity rb <=? readPos' then 0 else readPos' in
    (Returns result,
     {| buffer := buffer rb; writePos := writePos rb; readPos := readPos';
        availableBytes := availableBytes rb - size; capacity := capacity rb |}).

Definition available (rb : RingBuffer) : Z := availableBytes rb.

Definition reset (rb : RingBuffer) : RingBuffer :=
  {| buffer := buffer rb; writePos := 0; readPos := 0; availableBytes := 0;
     capacity := capacity rb |}.

(** A run of calls on one buffer; a read names the junk its result buffer
    is allocated with.  The run stops at the first call that throws. *)
Inductive op :=
| Write (chunk : list byte)
| Read (size : Z) (junk : nat -> byte).

Fixpoint run (ops : list op) (rb : RingBuffer)
    : outcome error (list (list byte)) * RingBuffer :=
  match ops with
  | [] => (Returns [], rb)
  | Write chunk :: ops' =>
      match write chunk rb with
      | (Returns _, rb') => run ops' rb'
      | (Throws e, rb') => (Throws e, rb')
      end
  | Read size junk :: ops' =>
      match read junk size rb with
      | (Returns bytes, rb') =>
          match run ops' rb' with
          | (Returns outs, rb'') => (Returns (bytes :: outs), rb'')
          | (Throws e, rb'') => (Throws e, rb'')
          end
      | (Throws e, rb') => (Throws e, rb')
      end
  end.

(** All bytes written by a run, in order. *)
Definition written (ops : list op) : list byte :=
  concat (omap (fun o => match o with Write chunk => Some chunk | Read _ _ => None end) ops).

(** Each chunk fits the free capacity and each read asks for at most the
    available bytes, given [avail] bytes are stored when the run starts. *)
Fixpoint fits (cap avail : Z) (ops : list op) : Prop :=
  match ops with
  | [] => True
  | Write chunk :: ops' =>
      Z.of_nat (length chunk) <= cap - avail /\
      fits cap (avail + Z.of_nat (length chunk)) ops'
  | Read size _ :: ops' =>
      0 <= size <= avail /\ fits cap (avail - size) ops'
  end.

Example run_wraps_around :
  match constructor (fun _ => "?"%byte) 4 with
  | Returns rb =>
      run [Write ["a"; "b"; "c"]%byte; Read 2 (fun _ => "!"%byte);
           Write ["d"; "e"; "f"]%byte; Read 4 (fun _ => "!"%byte)] rb
      = (Returns [["a"; "b"]; ["c"; "d"; "e"; "f"]]%byte,
         {| buffer := ["e"; "f"; "c"; "d"]%byte; writePos := 2; readPos := 2;
            availableBytes := 0; capacity := 4 |})
  | Throws _ => False
  end.
Proof. vm_compute. reflexivity. Qed.

(** *** The queue a ring buffer stands for *)

(** The stored bytes, oldest first: [availableBytes] bytes from
    [readPos] on, continuing at the start of the buffer. *)
Definition contents (rb : RingBuffer) : list byte :=
  take (Z.to_nat (availableBytes rb)) (drop (Z.to_nat (readPos rb)) (buffer rb ++ buffer rb)).

Definition inv (rb : RingBuffer) : Prop :=
  Z.of_nat (length (buffer rb)) = capacity rb /\
  0 <= availableBytes rb <= capacity rb /\
  0 <= readPos rb /\ (readPos rb < capacity rb \/ readPos rb = 0) /\
  0 <= writePos rb /\ (writePos rb < capacity rb \/ writePos rb = 0) /\
  (writePos rb = readPos rb + availableBytes rb \/
   writePos rb = readPos rb + availableBytes rb - capacity rb).

(** Position in the buffer of the [k]-th stored byte. *)
Definition slot (rb : RingBuffer) (k : Z) : Z :=
  if readPos rb + k <? capacity rb then readPos rb + k else readPos rb + k - capacity rb.

Lemma length_allocUnsafe junk size : length (allocUnsafe junk size) = Z.to_nat size.
Proof. unfold allocUnsafe. rewrite length_map, length_seq. reflexivity. Qed.

Lemma length_contents rb : inv rb -> Z.of_nat (length (contents rb)) = availableBytes rb.
Proof.
  intros (Hlen & Hav & Hr & Hr' & _). unfold contents.
  rewrite length_take, length_drop, length_app. lia.
Qed.

Lemma load_contents rb k :
  inv rb -> 0 <= k < availableBytes rb ->
  load (contents rb) k = load (buffer rb) (slot rb k).
Proof.
  intros (Hlen & Hav & Hr & Hr' & _) Hk. unfold contents, slot.
  rewrite load_take by lia. rewrite load_drop by lia. rewrite load_app by lia.
  rewrite Hlen. destruct (readPos rb + k <? capacity rb); reflexivity.
Qed.

Lemma slot_spec rb k :
  inv rb -> 0 <= k < capacity rb ->
  0 <= slot rb k < capacity rb /\
  (slot rb k = readPos rb + k /\ readPos rb + k < capacity rb \/
   slot rb k = readPos rb + k - capacity rb /\ capacity rb <= readPos rb + k).
Proof.
  intros (Hlen & Hav & Hr & Hr' & _) Hk. unfold slot.
  destruct (Z.ltb_spec (readPos rb + k) (capacity rb)); lia.
Qed.

Lemma copy_in_range source target targetStart sourceStart sourceEnd :
  0 <= sourceStart <= sourceEnd -> sourceEnd <= Z.of_nat (length source) ->
  0 <= targetStart -> targetStart + (sourceEnd - sourceStart) <= Z.of_nat (length target) ->
  copy source target targetStart sourceStart sourceEnd
  = blit target targetStart source sourceStart (sourceEnd - sourceStart).
Proof. intros. unfold copy. f_equal. lia. Qed.

Lemma write_spec chunk rb :
  inv rb -> Z.of_nat (length chunk) <= capacity rb - availableBytes rb ->
  exists rb',
    write chunk rb = (Returns tt, rb') /\ inv rb' /\
    contents rb' = contents rb ++ chunk /\
    capacity rb' = capacity rb /\
    availableBytes rb' = availableBytes rb + Z.of_nat (length chunk).
Proof.
  intros Hinv Hfit.
  pose proof (length_contents rb Hinv) as Hclen.
  pose proof Hinv as (Hlen & Hav & Hr & Hr' & Hw & Hw' & Hrel).
  unfold write.
  destruct (Z.ltb_spec (capacity rb - availableBytes rb) (Z.of_nat (length chunk)));
    [lia|].
  set (n := Z.of_nat (length chunk)) in *.
  destruct (Z.leb_spec n (capacity rb - writePos rb)) as [Hone|Htwo].
  - (* one piece *)
    rewrite copy_in_range by lia. rewrite Z.sub_0_r.
    eexists. split; [reflexivity|].
    assert (Hinv' : inv
      {| buffer := blit (buffer rb) (writePos rb) chunk 0 n;
         writePos := if capacity rb <=? writePos rb + n then 0 else writePos rb + n;
         readPos := readPos rb; availableBytes := availableBytes rb + n;
         capacity := capacity rb |}).
    { unfold inv; cbn. rewrite length_blit by lia.
      destruct (Z.leb_spec (capacity rb) (writePos rb + n)); lia. }
    split; [exact Hinv'|]. split; [|split; reflexivity].
    apply list_eq_load.
    { apply Nat2Z.inj. rewrite length_app, Nat2Z.inj_add, Hclen.
      rewrite (length_contents _ Hinv'). reflexivity. }
    intros k Hk. rewrite (length_contents _ Hinv') in Hk. cbn in Hk.
    rewrite (load_contents _ k Hinv') by (cbn; lia).
    change (slot _ k) with (slot rb k). cbn [buffer].
    destruct (slot_spec rb k Hinv ltac:(lia)) as [Hj Hj'].
    rewrite load_blit by lia.
    rewrite load_app by lia. rewrite Hclen.
    destruct (Z.ltb_spec k (availableBytes rb)).
    + rewrite (load_contents rb k Hinv) by lia.
      cases_Z; try reflexivity; try lia.
    + cases_Z; try lia; f_equal; lia.
  - (* two pieces *)
    set (endSpace := capacity rb - writePos rb) in *.
    rewrite (copy_in_range chunk (buffer rb)) by lia. rewrite Z.sub_0_r.
    set (b := blit (buffer rb) (writePos rb) chunk 0 endSpace).
    assert (Hblen : length b = length (buffer rb)).
    { subst b. apply length_blit; lia. }
    rewrite (copy_in_range chunk b) by lia.
    eexists. split; [reflexivity|].
    assert (Hinv' : inv
      {| buffer := blit b 0 chunk endSpace (n - endSpace);
         writePos := if capacity rb <=? n - endSpace then 0 else n - endSpace;
         readPos := readPos rb; availableBytes := availableBytes rb + n;
         capacity := capacity rb |}).
    { unfold inv; cbn. rewrite length_blit by lia. rewrite Hblen.
      destruct (Z.leb_spec (capacity rb) (n - endSpace)); lia. }
    split; [exact Hinv'|]. split; [|split; reflexivity].
    apply list_eq_load.
    { apply Nat2Z.inj. rewrite length_app, Nat2Z.inj_add, Hclen.
      rewrite (length_contents _ Hinv'). reflexivity. }
    intros k Hk. rewrite (length_contents _ Hinv') in Hk. cbn in Hk.
    rewrite (load_contents _ k Hinv') by (cbn; lia).
    change (slot _ k) with (slot rb k). cbn [buffer].
    destruct (slot_spec rb k Hinv ltac:(lia)) as [Hj Hj'].
    rewrite load_blit by lia. subst b.
    rewrite load_blit by lia.
    rewrite load_app by lia. rewrite Hclen.
    destruct (Z.ltb_spec k (availableBytes rb)).
    + rewrite (load_contents rb k Hinv) by lia.
      cases_Z; try reflexivity; try lia.
    + cases_Z; try lia; f_equal; lia.
Qed.

Lemma read_spec junk size rb :
  inv rb -> 0 <= size <= availableBytes rb ->
  exists rb',
    read junk size rb = (Returns (take (Z.to_nat size) (contents rb)), rb') /\ inv rb' /\
    contents rb' = drop (Z.to_nat size) (contents rb) /\
    capacity rb' = capacity rb /\
    availableBytes rb' = availableBytes rb - size.
Proof.
  intros Hinv Hsize.
  pose proof (length_contents rb Hinv) as Hclen.
  pose proof Hinv as (Hlen & Hav & Hr & Hr' & Hw & Hw' & Hrel).
  pose proof (length_allocUnsafe junk size) as Hres.
  unfold read.
  destruct (Z.ltb_spec (availableBytes rb) size); [lia|].
  destruct (Z.ltb_spec size 0); [lia|].
  set (result := allocUnsafe junk size) in *.
  set (readPos' := if size <=? capacity rb - readPos rb
                   then readPos rb + size else size - (capacity rb - readPos rb)).
  set (rb' := {| buffer := buffer rb; writePos := writePos rb;
                 readPos := if capacity rb <=? readPos' then 0 else readPos';
                 availableBytes := availableBytes rb - size;
                 capacity := capacity rb |}).
  assert (Hinv' : inv rb').
  { unfold inv, rb', readPos'; cbn.
    destruct (Z.leb_spec size (capacity rb - readPos rb));
      match goal with |- context [capacity rb <=? ?e] =>
        destruct (Z.leb_spec (capacity rb) e) end; lia. }
  assert (Hslot : forall k, 0 <= k < availableBytes rb - size ->
            slot rb' k = slot rb (size + k)).
  { intros k Hk. unfold slot, rb', readPos'; cbn.
    destruct (Z.leb_spec size (capacity rb - readPos rb));
      match goal with |- context [capacity rb <=? ?e] =>
        destruct (Z.leb_spec (capacity rb) e) end; cases_Z; lia. }
  assert (Hrest : contents rb' = drop (Z.to_nat size) (contents rb)).
  { apply list_eq_load.
    - apply Nat2Z.inj. rewrite (length_contents _ Hinv'), length_drop. cbn. lia.
    - intros k Hk. rewrite (length_contents _ Hinv') in Hk. cbn in Hk.
      rewrite (load_contents _ k Hinv') by (cbn; lia).
      rewrite Hslot by lia. rewrite load_drop by lia.
      rewrite (load_contents rb (size + k) Hinv) by lia. reflexivity. }
  exists rb'.
  destruct (Z.leb_spec size (capacity rb - readPos rb)) as [Hone|Htwo].
  - rewrite copy_in_range by lia.
    replace (readPos rb + size - readPos rb) with size by lia.
    split; [|auto].
    f_equal. f_equal. apply list_eq_load.
    { rewrite length_blit by lia. rewrite length_take. lia. }
    intros k Hk. rewrite length_blit in Hk by lia.
    rewrite load_blit by lia. rewrite load_take by lia.
    rewrite (load_contents rb k Hinv) by lia.
    destruct (slot_spec rb k Hinv ltac:(lia)) as [Hj Hj'].
    cases_Z; try lia. f_equal. lia.
  - set (endSpace := capacity rb - readPos rb) in *.
    rewrite (copy_in_range (buffer rb) result) by lia. fold endSpace.
    set (r := blit result 0 (buffer rb) (readPos rb) endSpace).
    assert (Hrlen : length r = length result).
    { subst r. apply length_blit; lia. }
    rewrite (copy_in_range (buffer rb) r) by lia. rewrite Z.sub_0_r.
    split; [|auto].
    f_equal. f_equal. apply list_eq_load.
    { rewrite length_blit by lia. rewrite length_take. lia. }
    intros k Hk. rewrite length_blit in Hk by lia.
    rewrite load_blit by lia. subst r. rewrite load_blit by lia.
    rewrite load_take by lia.
    rewrite (load_contents rb k Hinv) by lia.
    destruct (slot_spec rb k Hinv ltac:(lia)) as [Hj Hj'].
    cases_Z; try lia; f_equal; lia.
Qed.

Lemma constructor_inv junk size rb :
  constructor junk size = Returns rb ->
  inv rb /\ contents rb = [] /\ capacity rb = size /\ availableBytes rb = 0.
Proof.
  unfold constructor. destruct (Z.ltb_spec size 0); [discriminate|].
  intros [= <-]. unfold inv, contents; cbn.
  rewrite length_allocUnsafe. repeat split; lia.
Qed.

Lemma run_fits ops : forall rb,
  inv rb -> fits (capacity rb) (availableBytes rb) ops ->
  exists outs rb',
    run ops rb = (Returns outs, rb') /\ inv rb' /\
    contents rb ++ written ops = concat outs ++ contents rb'.
Proof.
  induction ops as [|[chunk|size junk] ops IH]; intros rb Hinv Hfits; cbn [run fits] in *.
  - exists [], rb. split; [reflexivity|]. split; [exact Hinv|].
    unfold written. cbn. apply app_nil_r.
  - destruct Hfits as [Hfit Hfits].
    destruct (write_spec chunk rb Hinv Hfit) as (rb1 & -> & Hinv1 & Hc1 & Hcap1 & Hav1).
    destruct (IH rb1 Hinv1) as (outs & rb' & -> & Hinv' & Hq).
    { rewrite Hcap1, Hav1. exact Hfits. }
    exists outs, rb'. split; [reflexivity|]. split; [exact Hinv'|].
    rewrite <- Hq, Hc1. unfold written. cbn. rewrite app_assoc. reflexivity.
  - destruct Hfits as [Hfit Hfits].
    destruct (read_spec junk size rb Hinv Hfit) as (rb1 & -> & Hinv1 & Hc1 & Hcap1 & Hav1).
    destruct (IH rb1 Hinv1) as (outs & rb' & -> & Hinv' & Hq).
    { rewrite Hcap1, Hav1. exact Hfits. }
    eexists _, rb'. split; [reflexivity|]. split; [exact Hinv'|].
    cbn [concat]. rewrite <- app_assoc, <- Hq, Hc1.
    change (written (Read size junk :: ops)) with (written ops).
    rewrite app_assoc, take_drop. reflexivity.
Qed.

(** C9. A ring buffer is a first-in first-out queue of bytes: in a run
    of writes and reads on a fresh buffer in which every chunk fits the
    free capacity and every read asks for at most the bytes available,
    no call throws and the bytes returned by the reads, concatenated, are
    a prefix of the bytes written, concatenated (what is left is still
    stored); a write that does not fit and a read of more than the
    available bytes throw and leave the buffer as it was. *)
Theorem ring_buffer_fifo (junk : nat -> byte) (size : Z) (rb : RingBuffer) (ops : list op) :
  constructor junk size = Returns rb ->
  fits size 0 ops ->
  (exists outs rb',
     run ops rb = (Returns outs, rb') /\
     concat outs = take (length (concat outs)) (written ops) /\
     written ops = concat outs ++ contents rb') /\
  (forall (st : RingBuffer) chunk,
     capacity st - availableBytes st < Z.of_nat (length chunk) ->
     write chunk st = (Throws RingBuffer_overflow, st)) /\
  (forall (st : RingBuffer) junk' n,
     availableBytes st < n ->
     read junk' n st = (Throws RingBuffer_underflow, st)).
Proof.
  intros Hnew Hfits.
  apply constructor_inv in Hnew as (Hinv & Hempty & Hcap & Hav).
  split; [|split].
  - destruct (run_fits ops rb Hinv) as (outs & rb' & Hrun & _ & Hq).
    { rewrite Hcap, Hav. exact Hfits. }
    rewrite Hempty in Hq. cbn in Hq.
    exists outs, rb'. split; [exact Hrun|]. split; [|exact Hq].
    rewrite Hq. rewrite take_app_length. reflexivity.
  - intros st chunk Hbig. unfold write.
    destruct (Z.ltb_spec (capacity st - availableBytes st) (Z.of_nat (length chunk)));
      [reflexivity | lia].
  - intros st junk' n Hbig. unfold read.
    destruct (Z.ltb_spec (availableBytes st) n); [reflexivity | lia].
Qed.

Lemma ring_buffer_fifo_witness :
  let junk := fun _ : nat => "?"%byte in
  let ops := [Write ["a"; "b"; "c"]%byte; Read 2 junk;
              Write ["d"; "e"; "f"]%byte; Read 4 junk] in
  let rb := {| buffer := allocUnsafe junk 4; writePos := 0; readPos := 0;
               availableBytes := 0; capacity := 4 |} in
  exists outs rb',
    run ops rb = (Returns outs, rb') /\
    concat outs = take (length (concat outs)) (written ops) /\
    written ops = concat outs ++ contents rb'.
Proof.
  intros junk ops rb.
  refine (proj1 (ring_buffer_fifo junk 4 rb ops _ _)).
  - reflexivity.
  - cbn. lia.
Defined.

(** *** Which runs succeed, what the reads return, and [reset] *)

(** The sizes a run asks for, in order. *)
Definition requested (ops : list op) : list Z :=
  omap (fun o => match o with Read size _ => Some size | Write _ => None end) ops.

Lemma run_fits_lengths ops : forall rb outs rb',
  inv rb -> fits (capacity rb) (availableBytes rb) ops ->
  run ops rb = (Returns outs, rb') ->
  map (fun bytes => Z.of_nat (length bytes)) outs = requested ops /\
  capacity rb' = capacity rb.
Proof.
  induction ops as [|[chunk|size junk] ops IH]; intros rb outs rb' Hinv Hfits Hrun;
    cbn [run fits] in *.
  - injection Hrun as <- <-. split; reflexivity.
  - destruct Hfits as [Hfit Hfits].
    destruct (write_spec chunk rb Hinv Hfit) as (rb1 & Hw & Hinv1 & _ & Hcap1 & Hav1).
    rewrite Hw in Hrun. rewrite <- Hcap1.
    apply (IH rb1 outs rb' Hinv1); [|exact Hrun].
    rewrite Hcap1, Hav1. exact Hfits.
  - destruct Hfits as [Hfit Hfits].
    destruct (read_spec junk size rb Hinv Hfit) as (rb1 & Hr & Hinv1 & _ & Hcap1 & Hav1).
    rewrite Hr in Hrun.
    destruct (run ops rb1) as [[outs1|e] rb2] eqn:Hrest; [|discriminate].
    injection Hrun as <- <-.
    destruct (IH rb1 outs1 rb2 Hinv1) as [Hlens Hcap]; [|exact Hrest|].
    { rewrite Hcap1, Hav1. exact Hfits. }
    split; [|congruence].
    change (requested (Read size junk :: ops)) with (size :: requested ops).
    cbn [map]. rewrite Hlens. f_equal.
    rewrite length_take. pose proof (length_contents rb Hinv). lia.
Qed.

Lemma run_returns_fits ops : forall rb outs rb',
  inv rb -> run ops rb = (Returns outs, rb') ->
  fits (capacity rb) (availableBytes rb) ops.
Proof.
  induction ops as [|[chunk|size junk] ops IH]; intros rb outs rb' Hinv Hrun;
    cbn [run fits] in *; [exact I| |].
  - destruct (Z.le_gt_cases (Z.of_nat (length chunk)) (capacity rb - availableBytes rb))
      as [Hfit|Hbig].
    + destruct (write_spec chunk rb Hinv Hfit) as (rb1 & Hw & Hinv1 & _ & Hcap1 & Hav1).
      rewrite Hw in Hrun. split; [exact Hfit|].
      rewrite <- Hcap1, <- Hav1. exact (IH rb1 outs rb' Hinv1 Hrun).
    + exfalso. unfold write in Hrun.
      destruct (Z.ltb_spec (capacity rb - availableBytes rb) (Z.of_nat (length chunk)));
        [discriminate | lia].
  - destruct (decide (0 <= size <= availableBytes rb)) as [Hfit|Hbad].
    + destruct (read_spec junk size rb Hinv Hfit) as (rb1 & Hr & Hinv1 & _ & Hcap1 & Hav1).
      rewrite Hr in Hrun. split; [exact Hfit|].
      destruct (run ops rb1) as [[outs1|e] rb2] eqn:Hrest; [|discriminate].
      rewrite <- Hcap1, <- Hav1. exact (IH rb1 outs1 rb2 Hinv1 Hrest).
    + exfalso. unfold read in Hrun.
      destruct (Z.ltb_spec (availableBytes rb) size); [discriminate|].
      destruct (Z.ltb_spec size 0); [discriminate | lia].
Qed.

(** X11. A run on a new buffer goes through without a throw exactly when every
    chunk fits the free capacity at its turn and every read asks for a
    size between 0 and the bytes available at its turn. *)
Theorem run_returns_iff_fits (junk : nat -> byte) (size : Z) (rb : RingBuffer)
    (ops : list op) :
  constructor junk size = Returns rb ->
  (exists outs rb', run ops rb = (Returns outs, rb')) <-> fits size 0 ops.
Proof.
  intros Hnew. apply constructor_inv in Hnew as (Hinv & _ & Hcap & Hav). split.
  - intros (outs & rb' & Hrun). rewrite <- Hcap, <- Hav.
    exact (run_returns_fits ops rb outs rb' Hinv Hrun).
  - intros Hfits. destruct (run_fits ops rb Hinv) as (outs & rb' & Hrun & _).
    + rewrite Hcap, Hav. exact Hfits.
    + eauto.
Qed.

Lemma run_returns_iff_fits_witness :
  let junk := fun _ : nat => "?"%byte in
  let rb := {| buffer := allocUnsafe junk 4; writePos := 0; readPos := 0;
               availableBytes := 0; capacity := 4 |} in
  let ops := [Write ["a"; "b"; "c"]%byte; Read 2 junk] in
  (exists outs rb', run ops rb = (Returns outs, rb')) <-> fits 4 0 ops.
Proof.
  intros junk rb ops.
  apply (run_returns_iff_fits junk 4 rb ops). reflexivity.
Defined.

(** X12. In a run on a new buffer that goes through, every read returns
    exactly as many bytes as it asked for, and [available] afterwards is
    the number of bytes written minus the number of bytes read, between 0
    and the capacity. *)
Theorem run_accounting (junk : nat -> byte) (size : Z) (rb : RingBuffer) (ops : list op)
    (outs : list (list byte)) (rb' : RingBuffer) :
  constructor junk size = Returns rb ->
  run ops rb = (Returns outs, rb') ->
  map (fun bytes => Z.of_nat (length bytes)) outs = requested ops /\
  available rb' = Z.of_nat (length (written ops)) - Z.of_nat (length (concat outs)) /\
  0 <= available rb' <= size /\
  capacity rb' = size.
Proof.
  intros Hnew Hrun. apply constructor_inv in Hnew as (Hinv & Hempty & Hcap & Hav).
  pose proof (run_returns_fits ops rb outs rb' Hinv Hrun) as Hfits.
  destruct (run_fits_lengths ops rb outs rb' Hinv Hfits Hrun) as [Hlens Hcap'].
  destruct (run_fits ops rb Hinv Hfits) as (outs0 & rb0 & Hrun0 & Hinv' & Hq).
  rewrite Hrun in Hrun0. injection Hrun0 as <- <-.
  rewrite Hempty in Hq. cbn in Hq.
  pose proof (length_contents rb' Hinv') as Hclen.
  pose proof Hinv' as (_ & Havail & _).
  split; [exact Hlens|]. unfold available.
  split; [|split; [lia | congruence]].
  rewrite Hq, length_app. lia.
Qed.

Lemma run_accounting_witness :
  let junk := fun _ : nat => "?"%byte in
  let rb := {| buffer := allocUnsafe junk 4; writePos := 0; readPos := 0;
               availableBytes := 0; capacity := 4 |} in
  let ops := [Write ["a"; "b"; "c"]%byte; Read 2 junk] in
  let outs := [["a"; "b"]%byte] in
  let rb' := {| buffer := ["a"; "b"; "c"; "?"]%byte; writePos := 3; readPos := 2;
                availableBytes := 1; capacity := 4 |} in
  map (fun bytes => Z.of_nat (length bytes)) outs = requested ops /\
  available rb' = Z.of_nat (length (written ops)) - Z.of_nat (length (concat outs)) /\
  0 <= available rb' <= 4 /\
  capacity rb' = 4.
Proof.
  intros junk rb ops outs rb'.
  apply (run_accounting junk 4 rb ops outs rb'); reflexivity.
Defined.

Lemma reset_inv rb :
  inv rb -> inv (reset rb) /\ contents (reset rb) = [] /\
  capacity (reset rb) = capacity rb /\ availableBytes (reset rb) = 0.
Proof.
  intros (Hlen & Hav & _). unfold inv, reset, contents; cbn.
  repeat split; try lia.
Qed.

(** X13. [reset] throws away what is stored and frees the whole capacity: after
    a run on a new buffer, a second run on the reset buffer goes through
    whenever it would on a new buffer, and its reads return bytes of its
    own writes only, first in first out. *)
Theorem reset_discards (junk : nat -> byte) (size : Z) (rb : RingBuffer)
    (before after : list op) (outs1 : list (list byte)) (rb1 : RingBuffer) :
  constructor junk size = Returns rb ->
  run before rb = (Returns outs1, rb1) ->
  fits size 0 after ->
  available (reset rb1) = 0 /\
  exists outs2 rb2,
    run after (reset rb1) = (Returns outs2, rb2) /\
    written after = concat outs2 ++ contents rb2.
Proof.
  intros Hnew Hrun1 Hfits. apply constructor_inv in Hnew as (Hinv & _ & Hcap & Hav).
  pose proof (run_returns_fits before rb outs1 rb1 Hinv Hrun1) as Hfits1.
  destruct (run_fits_lengths before rb outs1 rb1 Hinv Hfits1 Hrun1) as [_ Hcap1].
  destruct (run_fits before rb Hinv Hfits1) as (outs0 & rb0 & Hrun0 & Hinv1 & _).
  rewrite Hrun1 in Hrun0. injection Hrun0 as <- <-.
  destruct (reset_inv rb1 Hinv1) as (Hinv2 & Hempty2 & Hcap2 & Hav2).
  split; [exact Hav2|].
  destruct (run_fits after (reset rb1) Hinv2) as (outs2 & rb2 & Hrun2 & _ & Hq).
  { rewrite Hcap2, Hav2, Hcap1, Hcap. exact Hfits. }
  rewrite Hempty2 in Hq. cbn in Hq. eauto.
Qed.

Lemma reset_discards_witness :
  let junk := fun _ : nat => "?"%byte in
  let rb := {| buffer := allocUnsafe junk 4; writePos := 0; readPos := 0;
               availableBytes := 0; capacity := 4 |} in
  let rb1 := {| buffer := ["a"; "b"; "c"; "?"]%byte; writePos := 3; readPos := 2;
                availableBytes := 1; capacity := 4 |} in
  let after := [Write ["d"; "e"; "f"; "g"]%byte; Read 3 junk] in
  available (reset rb1) = 0 /\
  exists outs2 rb2,
    run after (reset rb1) = (Returns outs2, rb2) /\
    written after = concat outs2 ++ contents rb2.
Proof.
  intros junk rb rb1 after.
  apply (reset_discards junk 4 rb [Write ["a"; "b"; "c"]%byte; Read 2 junk] after
           [["a"; "b"]%byte] rb1); [reflexivity | reflexivity | cbn; lia].
Defined.

End RingBuffer.

(** ** detection/wasm-bridge.ts, detection/detector.ts, index.ts *)

Module Detector.

Import Bytes.

Inductive error :=
| FrameError (e : FrameProcessor.error)
| FrameDimensionsMustMatch
| WasmModuleNotInitialized
| OutOfBoundsHeapAccess.

(** A method of an object whose state has type [St] returns or throws,
    and leaves the object in some state either way. *)
Inductive result (St A : Type) : Type :=
| Ok (a : A) (st : St)
| Err (e : error) (st : St).
Arguments Ok {St A} a st.
Arguments Err {St A} e st.

Definition M (St A : Type) : Type := St -> result St A.

Definition ret {St A} (a : A) : M St A := fun st => Ok a st.

Definition bind {St A B} (m : M St A) (k : A -> M St B) : M St B :=
  fun st => match m st with
            | Ok a st' => k a st'
            | Err e st' => Err e st'
            end.

Notation "'do' x <- m ; k" := (bind m (fun x => k))
  (at level 10, x name, m at level 100, k at level 200).

Definition throw {St A} (e : error) : M St A := fun st => Err e st.
Definition get {St} : M St St := fun st => Ok st st.
Definition put {St} (st : St) : M St unit := fun _ => Ok tt st.

(** What a run of the detector takes from its surroundings besides the
    video: the contents of freshly allocated heap blocks and the readings
    of the clock. *)
Record Env := {
  junk : nat -> byte;
  startTime : Z;
  endTime : Z
}.

Section WithAnalysis.

(** JavaScript numbers that hold fractions (timestamps, rates). *)
Variable number : Type.
Variable zero : number.
Variable formatTimecode : number -> string.

(** [_MEanalysis_js]: the motion-estimation verdict of the WASM module on
    two padded planes, a pure function of the planes, the frame size,
    [intraCount] and [fcode]. *)
Variable MEanalysis_js : list byte -> list byte -> Z -> Z -> Z -> Z -> Z.

Abbreviation RawFrame := (RawFrame number).
Abbreviation SceneInfo := (SceneInfo number).
Abbreviation VideoMetadata := (VideoMetadata number).

(** *** WasmBridge *)

(** A pointer into the WASM heap is modelled by the block it points to:
    [None] is the null pointer.  The four blocks are disjoint; an access
    past the end of a block ends the run with [OutOfBoundsHeapAccess],
    as its effect depends on the layout of the heap.  [analysed] is not a
    field of the class: it records, oldest first, the frame pairs handed
    to [_MEanalysis_js]. *)
Record WasmBridge := {
  initialized : bool;
  prevFramePtr : option (list byte);
  curFramePtr : option (list byte);
  prevPaddedPtr : option (list byte);
  curPaddedPtr : option (list byte);
  allocatedFrameSize : Z;
  allocatedPaddedSize : Z;
  analysed : list (RawFrame * RawFrame)
}.

Definition new_WasmBridge : WasmBridge :=
  {| initialized := false;
     prevFramePtr := None; curFramePtr := None;
     prevPaddedPtr := None; curPaddedPtr := None;
     allocatedFrameSize := 0; allocatedPaddedSize := 0;
     analysed := [] |}.

(** [_malloc(size)]: a block of [size] bytes (a [size_t]) of unspecified
    contents; allocation is taken to succeed. *)
Definition _malloc (env : Env) (size : Z) : option (list byte) :=
  Some (map (junk env) (seq 0 (Z.to_nat (PadFrame.u32 size)))).

(** [init]: the module file is taken to be present and to load. *)
Definition init : M WasmBridge unit :=
  fun b =>
    Ok tt {| initialized := true;
             prevFramePtr := prevFramePtr b; curFramePtr := curFramePtr b;
             prevPaddedPtr := prevPaddedPtr b; curPaddedPtr := curPaddedPtr b;
             allocatedFrameSize := allocatedFrameSize b;
             allocatedPaddedSize := allocatedPaddedSize b;
             analysed := analysed b |}.

Definition ensureInitialized : M WasmBridge unit :=
  fun b => if initialized b then Ok tt b else Err WasmModuleNotInitialized b.

Definition allocateBuffers (env : Env) (width height : Z) : M WasmBridge unit :=
  do _ <- ensureInitialized;
  fun b =>
    let frameSize := width * height in
    let paddedSize :=
      PadFrame.calculate_padded_size (PadFrame.u32 width) (PadFrame.u32 height) in
    let b :=
      if frameSize =? allocatedFrameSize b then b
      else {| initialized := initialized b;
              prevFramePtr := _malloc env frameSize; curFramePtr := _malloc env frameSize;
              prevPaddedPtr := prevPaddedPtr b; curPaddedPtr := curPaddedPtr b;
              allocatedFrameSize := frameSize;
              allocatedPaddedSize := allocatedPaddedSize b;
              analysed := analysed b |} in
    let b :=
      if paddedSize =? allocatedPaddedSize b then b
      else {| initialized := initialized b;
              prevFramePtr := prevFramePtr b; curFramePtr := curFramePtr b;
              prevPaddedPtr := _malloc env paddedSize; curPaddedPtr := _malloc env paddedSize;
              allocatedFrameSize := allocatedFrameSize b;
              allocatedPaddedSize := paddedSize;
              analysed := analysed b |} in
    Ok tt b.

(** [HEAPU8.set(data, ptr)]. *)
Definition HEAPU8_set {St} (bytes : list byte) (ptr : option (list byte))
    : M St (list byte) :=
  match ptr with
  | Some block =>
      if (length bytes <=? length block)%nat
      then ret (bytes ++ drop (length bytes) block)
      else throw OutOfBoundsHeapAccess
  | None => throw OutOfBoundsHeapAccess
  end.

(** [_pad_frame(srcPtr, dstPtr, width, height)] on two blocks that hold
    the planes it reads and writes. *)
Definition _pad_frame {St} (src : list byte) (dstPtr : option (list byte)) (width height : Z)
    : M St (list byte) :=
  let w := PadFrame.u32 width in
  let h := PadFrame.u32 height in
  match dstPtr with
  | Some dst =>
      if (0 <? w) && (0 <? h)
         && (w * h <=? Z.of_nat (length src))
         && (PadFrame.edged_width w * PadFrame.edged_width h <=? Z.of_nat (length dst))
         && (Z.of_nat (length dst) <? 2 ^ 32)
      then ret (PadFrame.pad_frame src dst w h)
      else throw OutOfBoundsHeapAccess
  | None => throw OutOfBoundsHeapAccess
  end.

(** The padded plane [_MEanalysis_js] reads at a pointer. *)
Definition plane (block : list byte) (width height : Z) : list byte :=
  take (Z.to_nat (PadFrame.edged_width (PadFrame.u32 width)
                  * PadFrame.edged_width (PadFrame.u32 height))) block.

Definition detectSceneChange (env : Env) (prevFrame curFrame : RawFrame)
    (intraCount fcode : Z) : M WasmBridge bool :=
  do _ <- ensureInitialized;
  if negb (width prevFrame =? width curFrame) || negb (height prevFrame =? height curFrame)
  then throw FrameDimensionsMustMatch
  else
    do b <- get;
    do _ <- (if negb (bool_decide (is_Some (prevFramePtr b)))
                || negb (allocatedFrameSize b =? Z.of_nat (length (data prevFrame)))
             then allocateBuffers env (width prevFrame) (height prevFrame)
             else ret tt);
    do b <- get;
    do prevRaw <- HEAPU8_set (data prevFrame) (prevFramePtr b);
    do curRaw <- HEAPU8_set (data curFrame) (curFramePtr b);
    do prevPadded <- _pad_frame prevRaw (prevPaddedPtr b) (width prevFrame) (height prevFrame);
    do curPadded <- _pad_frame curRaw (curPaddedPtr b) (width curFrame) (height curFrame);
    let result :=
      MEanalysis_js (plane prevPadded (width prevFrame) (height prevFrame))
                    (plane curPadded (width prevFrame) (height prevFrame))
                    (width prevFrame) (height prevFrame) intraCount fcode in
    do _ <- put {| initialized := initialized b;
                   prevFramePtr := Some prevRaw; curFramePtr := Some curRaw;
                   prevPaddedPtr := Some prevPadded; curPaddedPtr := Some curPadded;
                   allocatedFrameSize := allocatedFrameSize b;
                   allocatedPaddedSize := allocatedPaddedSize b;
                   analysed := analysed b ++ [(prevFrame, curFrame)] |};
    ret (result =? 1).

Definition WasmBridge_destroy (b : WasmBridge) : WasmBridge :=
  {| initialized := false;
     prevFramePtr := None; curFramePtr := None;
     prevPaddedPtr := None; curPaddedPtr := None;
     allocatedFrameSize := 0; allocatedPaddedSize := 0;
     analysed := analysed b |}.

(** *** SceneDetector *)

(** The options that bear on the verdicts; the callbacks ([onProgress],
    [onScene]) are user code and are taken to return. *)
Record DetectionOptions := {
  opt_sensitivity : option SensitivityLevel;
  opt_customThresholds : option CustomThresholds;
  opt_searchRange : option SearchRange
}.

Record Options := {
  sensitivity : SensitivityLevel;
  customThresholds : CustomThresholds;
  searchRange : SearchRange
}.

Record DetectionState := {
  intraCount : Z;
  fcode : Z;
  prevFrame : option RawFrame;
  curFrame : option RawFrame
}.

Record SceneDetector := {
  options : Options;
  wasmBridge : WasmBridge;
  state : DetectionState
}.

Definition constructor (o : DetectionOptions) : SceneDetector :=
  {| options :=
       {| sensitivity := default SensMedium (opt_sensitivity o);
          customThresholds :=
            default {| intraThresh := 2000; intraThresh2 := 90 |} (opt_customThresholds o);
          searchRange := default RangeMedium (opt_searchRange o) |};
     wasmBridge := new_WasmBridge;
     state := {| intraCount := 1; fcode := 4; prevFrame := None; curFrame := None |} |}.

(** The video as the decoder presents it: its metadata and the frames
    [extractFrames] hands to its callback, in order. *)
Record Video := {
  metadata : VideoMetadata;
  frames : list RawFrame
}.

(** Processing statistics are fractions computed from these integers. *)
Record DetectionStats := {
  elapsedMilliseconds : Z;
  processedFrameCount : Z
}.

Record DetectionResult := {
  scenes : list SceneInfo;
  resultMetadata : VideoMetadata;
  stats : DetectionStats
}.

(** The detector together with the local variables of [detect] that the
    frame callback updates. *)
Record Run := {
  detector : SceneDetector;
  sceneList : list SceneInfo;
  processedFrames : Z
}.

(** Runs a method of the bridge on the bridge of the detector. *)
Definition on_bridge {A} (m : M WasmBridge A) : M Run A :=
  fun r =>
    let with_bridge b :=
      {| detector := {| options := options (detector r); wasmBridge := b;
                        state := state (detector r) |};
         sceneList := sceneList r; processedFrames := processedFrames r |} in
    match m (wasmBridge (detector r)) with
    | Ok a b => Ok a (with_bridge b)
    | Err e b => Err e (with_bridge b)
    end.

Definition get_state : M Run DetectionState := fun r => Ok (state (detector r)) r.

Definition set_state (st : DetectionState) : M Run unit :=
  fun r =>
    Ok tt {| detector := {| options := options (detector r);
                            wasmBridge := wasmBridge (detector r); state := st |};
             sceneList := sceneList r; processedFrames := processedFrames r |}.

Definition push_scene (scene : SceneInfo) : M Run unit :=
  fun r =>
    Ok tt {| detector := detector r; sceneList := sceneList r ++ [scene];
             processedFrames := processedFrames r |}.

Definition count_frame : M Run unit :=
  fun r =>
    Ok tt {| detector := detector r; sceneList := sceneList r;
             processedFrames := processedFrames r + 1 |}.

Definition validate (frame : RawFrame) : M Run unit :=
  match FrameProcessor.validateFrame frame with
  | Returns _ => ret tt
  | Throws e => throw (FrameError e)
  end.

(** The callback [detect] passes to [extractFrames]. *)
Definition onFrame (env : Env) (frame : RawFrame) : M Run unit :=
  do _ <- validate frame;
  do st <- get_state;
  do _ <- set_state {| intraCount := intraCount st; fcode := fcode st;
                       prevFrame := prevFrame st; curFrame := Some frame |};
  do _ <- match prevFrame st with
          | Some prev =>
              do isSceneChange <-
                on_bridge (detectSceneChange env prev frame (intraCount st) (fcode st));
              if isSceneChange : bool then
                let scene := {| sceneFrameNumber := frameNumber frame;
                                timestamp := pts frame;
                                timecode := formatTimecode (pts frame) |} in
                do _ <- push_scene scene;
                set_state {| intraCount := 1; fcode := fcode st;
                             prevFrame := prevFrame st; curFrame := Some frame |}
              else
                set_state {| intraCount := intraCount st + 1; fcode := fcode st;
                             prevFrame := prevFrame st; curFrame := Some frame |}
          | None => ret tt
          end;
  do st <- get_state;
  do _ <- set_state {| intraCount := intraCount st; fcode := fcode st;
                       prevFrame := curFrame st; curFrame := curFrame st |};
  count_frame.

(** [decoder.extractFrames(onFrame)], seen from the driver: the callback
    runs on each frame in order, and the first call that throws rejects
    the whole extraction. *)
Fixpoint extractFrames {St} (onFrame : RawFrame -> M St unit) (fs : list RawFrame)
    : M St unit :=
  match fs with
  | [] => ret tt
  | frame :: fs' => do _ <- onFrame frame; extractFrames onFrame fs'
  end.

Definition seed : SceneInfo :=
  {| sceneFrameNumber := 0; timestamp := zero; timecode := "00:00:00.000" |}.

Definition detect (env : Env) (video : Video) : M SceneDetector DetectionResult :=
  fun d =>
    match init (wasmBridge d) with
    | Err e b => Err e {| options := options d; wasmBridge := b; state := state d |}
    | Ok _ b =>
        let meta := metadata video in
        let st := {| intraCount := intraCount (state d);
                     fcode := FrameProcessor.calculateFcode (searchRange (options d))
                                (resWidth (resolution meta)) (resHeight (resolution meta));
                     prevFrame := prevFrame (state d); curFrame := curFrame (state d) |} in
        match allocateBuffers env (resWidth (resolution meta))
                (resHeight (resolution meta)) b with
        | Err e b => Err e {| options := options d; wasmBridge := b; state := st |}
        | Ok _ b =>
            let r := {| detector := {| options := options d; wasmBridge := b; state := st |};
                        sceneList := [seed]; processedFrames := 0 |} in
            match extractFrames (onFrame env) (frames video) r with
            | Err e r => Err e (detector r)
            | Ok _ r =>
                Ok {| scenes := sceneList r; resultMetadata := meta;
                      stats := {| elapsedMilliseconds := endTime env - startTime env;
                                  processedFrameCount := processedFrames r |} |}
                   (detector r)
            end
        end
    end.

Definition destroy (d : SceneDetector) : SceneDetector :=
  {| options := options d; wasmBridge := WasmBridge_destroy (wasmBridge d);
     state := {| intraCount := intraCount (state d); fcode := fcode (state d);
                 prevFrame := None; curFrame := None |} |}.

(** index.ts: a fresh detector for every call, destroyed afterwards. *)
Definition detectSceneChanges (env : Env) (video : Video) (o : DetectionOptions)
    : outcome error DetectionResult :=
  match detect env video (constructor o) with
  | Ok results _ => Returns results
  | Err e _ => Throws e
  end.

(** *** One frame *)

Definition scene_of (frame : RawFrame) : SceneInfo :=
  {| sceneFrameNumber := frameNumber frame; timestamp := pts frame;
     timecode := formatTimecode (pts frame) |}.

(** The run after a frame went through: [frame] is the previous frame
    of the next call. *)
Definition advance (r : Run) (b : WasmBridge) (frame : RawFrame) (cut : option bool) : Run :=
  {| detector :=
       {| options := options (detector r); wasmBridge := b;
          state := {| intraCount := match cut with
                                    | Some true => 1
                                    | Some false => intraCount (state (detector r)) + 1
                                    | None => intraCount (state (detector r))
                                    end;
                      fcode := fcode (state (detector r));
                      prevFrame := Some frame; curFrame := Some frame |} |};
     sceneList := match cut with
                  | Some true => sceneList r ++ [scene_of frame]
                  | _ => sceneList r
                  end;
     processedFrames := processedFrames r + 1 |}.

(** The run at the moment a call of the bridge threw. *)
Definition stopped (r : Run) (b : WasmBridge) (frame : RawFrame) : Run :=
  {| detector :=
       {| options := options (detector r); wasmBridge := b;
          state := {| intraCount := intraCount (state (detector r));
                      fcode := fcode (state (detector r));
                      prevFrame := prevFrame (state (detector r));
                      curFrame := Some frame |} |};
     sceneList := sceneList r; processedFrames := processedFrames r |}.

Lemma onFrame_unfold env frame r :
  onFrame env frame r =
    match FrameProcessor.validateFrame frame with
    | Throws e => Err (FrameError e) r
    | Returns _ =>
        match prevFrame (state (detector r)) with
        | None => Ok tt (advance r (wasmBridge (detector r)) frame None)
        | Some prev =>
            match detectSceneChange env prev frame (intraCount (state (detector r)))
                    (fcode (state (detector r))) (wasmBridge (detector r)) with
            | Ok cut b => Ok tt (advance r b frame (Some cut))
            | Err e b => Err e (stopped r b frame)
            end
        end
    end.
Proof.
  unfold onFrame, validate, bind at 1.
  destruct (FrameProcessor.validateFrame frame) as [[]|e]; [|reflexivity].
  cbn. destruct r as [[o b [ic fc [prev|] cf]] sl n]; cbn; [|reflexivity].
  unfold bind, on_bridge; cbn.
  destruct (detectSceneChange env prev frame ic fc b) as [[|] b'|e b']; reflexivity.
Qed.

Lemma extractFrames_app {St} (f : RawFrame -> M St unit) fs1 fs2 st :
  extractFrames f (fs1 ++ fs2) st =
    match extractFrames f fs1 st with
    | Ok _ st' => extractFrames f fs2 st'
    | Err e st' => Err e st'
    end.
Proof.
  revert st. induction fs1 as [|frame fs1 IH]; intros st; cbn; [reflexivity|].
  unfold bind. destruct (f frame st) as [[] st'|e st']; [apply IH | reflexivity].
Qed.

(** The run [detect] starts the extraction with, for a new detector. *)
Definition first_run (env : Env) (meta : VideoMetadata) (o : DetectionOptions) : Run :=
  let d := constructor o in
  {| detector :=
       {| options := options d;
          wasmBridge :=
            match (do _ <- init;
                   allocateBuffers env (resWidth (resolution meta))
                     (resHeight (resolution meta))) new_WasmBridge with
            | Ok _ b => b
            | Err _ b => b
            end;
          state := {| intraCount := 1;
                      fcode := FrameProcessor.calculateFcode (searchRange (options d))
                                 (resWidth (resolution meta)) (resHeight (resolution meta));
                      prevFrame := None; curFrame := None |} |};
     sceneList := [seed]; processedFrames := 0 |}.

Definition finish (env : Env) (meta : VideoMetadata) (x : result Run unit)
    : result SceneDetector DetectionResult :=
  match x with
  | Ok _ r =>
      Ok {| scenes := sceneList r; resultMetadata := meta;
            stats := {| elapsedMilliseconds := endTime env - startTime env;
                        processedFrameCount := processedFrames r |} |}
         (detector r)
  | Err e r => Err e (detector r)
  end.

Lemma detect_new env video o :
  detect env video (constructor o) =
    finish env (metadata video)
      (extractFrames (onFrame env) (frames video) (first_run env (metadata video) o)).
Proof. reflexivity. Qed.

(** *** What a call of the bridge leaves behind *)

Lemma allocateBuffers_inv env w h b :
  match allocateBuffers env w h b with
  | Ok _ b' => initialized b = true /\ initialized b' = true /\ analysed b' = analysed b
  | Err e b' => initialized b = false /\ b' = b /\ e = WasmModuleNotInitialized
  end.
Proof.
  unfold allocateBuffers, bind, ensureInitialized.
  destruct (initialized b) eqn:Hi; [|auto].
  repeat case_match; cbn; auto.
Qed.

Lemma detectSceneChange_inv env p f ic fc b :
  match detectSceneChange env p f ic fc b with
  | Ok _ b' =>
      analysed b' = analysed b ++ [(p, f)] /\ initialized b' = true /\
      initialized b = true /\ width p = width f /\ height p = height f
  | Err e b' =>
      analysed b' = analysed b /\ initialized b' = initialized b /\
      e <> FrameError FrameProcessor.FrameDataIsEmpty
  end.
Proof.
  unfold detectSceneChange, bind at 1, ensureInitialized.
  destruct (initialized b) eqn:Hi; [|cbn; auto].
  destruct (Z.eqb_spec (width p) (width f)) as [Hw|Hw]; cbn [negb orb];
    [|unfold throw; rewrite Hi; auto].
  destruct (Z.eqb_spec (height p) (height f)) as [Hh|Hh]; cbn [negb orb];
    [|unfold throw; rewrite Hi; auto].
  unfold bind at 1, get. unfold bind at 1.
  match goal with |- context [(if ?c then _ else _) b] => destruct c end.
  - pose proof (allocateBuffers_inv env (width p) (height p) b) as Ha.
    destruct (allocateBuffers env (width p) (height p) b) as [[] b1|e b1].
    2:{ destruct Ha as (Hf & _). congruence. }
    destruct Ha as (_ & Hi1 & Hlog1).
    unfold bind, get, put, ret, throw, HEAPU8_set, _pad_frame.
    repeat case_match; unfold ret, throw in *; simplify_eq/=;
      rewrite ?Hi1, ?Hlog1, ?Hi; auto.
  - unfold bind, get, put, ret, throw, HEAPU8_set, _pad_frame.
    repeat case_match; unfold ret, throw in *; simplify_eq/=; rewrite ?Hi; auto.
Qed.

(** *** A whole extraction *)

(** The state an object is left in, whether the call returned or threw. *)
Definition final {St A} (x : result St A) : St :=
  match x with
  | Ok _ st => st
  | Err _ st => st
  end.

(** The pairs a run hands to the analysis: each frame with its
    predecessor, starting from the previous frame [prev] of the state. *)
Fixpoint verdict_pairs (prev : option RawFrame) (fs : list RawFrame)
    : list (RawFrame * RawFrame) :=
  match fs with
  | [] => []
  | f :: fs' =>
      match prev with
      | Some p => (p, f) :: verdict_pairs (Some f) fs'
      | None => verdict_pairs (Some f) fs'
      end
  end.

Lemma verdict_pairs_Some p fs : verdict_pairs (Some p) fs = zip (p :: fs) fs.
Proof.
  revert p. induction fs as [|f fs IH]; intros p; cbn; [reflexivity|].
  rewrite IH. reflexivity.
Qed.

Lemma verdict_pairs_None fs : verdict_pairs None fs = zip fs (tail fs).
Proof. destruct fs as [|f fs]; cbn; [reflexivity | apply verdict_pairs_Some]. Qed.

Lemma onFrame_inv env frame r :
  match onFrame env frame r with
  | Ok _ r' =>
      prevFrame (state (detector r')) = Some frame /\
      initialized (wasmBridge (detector r')) = initialized (wasmBridge (detector r)) /\
      analysed (wasmBridge (detector r')) =
        analysed (wasmBridge (detector r))
          ++ verdict_pairs (prevFrame (state (detector r))) [frame] /\
      (sceneList r' = sceneList r \/
       sceneList r' = sceneList r ++ [scene_of frame] /\
       is_Some (prevFrame (state (detector r))))
  | Err _ r' =>
      analysed (wasmBridge (detector r')) = analysed (wasmBridge (detector r)) /\
      sceneList r' = sceneList r
  end.
Proof.
  rewrite onFrame_unfold.
  destruct (FrameProcessor.validateFrame frame) as [[]|e]; [|auto].
  destruct (prevFrame (state (detector r))) as [prev|] eqn:Hprev.
  - pose proof (detectSceneChange_inv env prev frame (intraCount (state (detector r)))
                  (fcode (state (detector r))) (wasmBridge (detector r))) as Hb.
    destruct (detectSceneChange env prev frame _ _ _) as [cut b|e b]; cbn.
    + destruct Hb as (Hlog & Hi & Hi0 & _). repeat split; try congruence.
      destruct cut; eauto.
    + destruct Hb as (Hlog & _). auto.
  - cbn. rewrite app_nil_r. auto.
Qed.

Lemma extractFrames_log env fs : forall r,
  exists k,
    analysed (wasmBridge (detector (final (extractFrames (onFrame env) fs r)))) =
      analysed (wasmBridge (detector r))
        ++ take k (verdict_pairs (prevFrame (state (detector r))) fs).
Proof.
  induction fs as [|f fs IH]; intros r; cbn [extractFrames].
  - exists O. cbn. rewrite app_nil_r. reflexivity.
  - unfold bind. pose proof (onFrame_inv env f r) as Hf.
    destruct (onFrame env f r) as [[] r1|e r1].
    + destruct Hf as (Hprev & _ & Hlog & _).
      destruct (IH r1) as [k Hk]. rewrite Hk, Hlog, Hprev, <- app_assoc.
      destruct (prevFrame (state (detector r))) as [p|]; cbn.
      * exists (S k). reflexivity.
      * exists k. reflexivity.
    + destruct Hf as (Hlog & _). exists O. cbn. rewrite Hlog, app_nil_r. reflexivity.
Qed.

Lemma extractFrames_seeded env fs : forall r cuts,
  sceneList r = seed :: cuts ->
  exists cuts', sceneList (final (extractFrames (onFrame env) fs r)) = seed :: cuts'.
Proof.
  induction fs as [|f fs IH]; intros r cuts Hr; cbn [extractFrames].
  - eauto.
  - unfold bind. pose proof (onFrame_inv env f r) as Hf.
    destruct (onFrame env f r) as [[] r1|e r1].
    + destruct Hf as (_ & _ & _ & [Hs | [Hs _]]).
      * apply (IH r1 cuts). congruence.
      * apply (IH r1 (cuts ++ [scene_of f])). rewrite Hs, Hr. reflexivity.
    + destruct Hf as (_ & Hs). cbn. rewrite Hs. eauto.
Qed.

(** *** Runs that stay within the buffers *)

(** The bridge holds buffers for [W] x [H] frames. *)
Definition ready (W H : Z) (b : WasmBridge) : Prop :=
  initialized b = true /\ allocatedFrameSize b = W * H /\
  (exists l, prevFramePtr b = Some l /\ Z.of_nat (length l) = W * H) /\
  (exists l, curFramePtr b = Some l /\ Z.of_nat (length l) = W * H) /\
  (exists l, prevPaddedPtr b = Some l /\
     Z.of_nat (length l) = PadFrame.edged_width W * PadFrame.edged_width H) /\
  (exists l, curPaddedPtr b = Some l /\
     Z.of_nat (length l) = PadFrame.edged_width W * PadFrame.edged_width H).

(** A frame as the decoder cuts it from the stream of a [W] x [H] video. *)
Definition conforming (W H : Z) (f : RawFrame) : Prop :=
  width f = W /\ height f = H /\ Z.of_nat (length (data f)) = W * H.

Lemma HEAPU8_set_exact {St} bytes block (st : St) :
  length bytes = length block ->
  HEAPU8_set bytes (Some block) st = Ok bytes st.
Proof.
  intros Hlen. unfold HEAPU8_set.
  rewrite (proj2 (Nat.leb_le _ _)) by lia.
  rewrite drop_ge by lia. rewrite app_nil_r. reflexivity.
Qed.

Lemma pad_frame_fits {St} src dst W H (st : St) :
  1 <= W <= 8192 -> 1 <= H <= 8192 ->
  Z.of_nat (length src) = W * H ->
  Z.of_nat (length dst) = PadFrame.edged_width W * PadFrame.edged_width H ->
  _pad_frame src (Some dst) W H st = Ok (PadFrame.pad_frame src dst W H) st /\
  length (PadFrame.pad_frame src dst W H) = length dst.
Proof.
  intros HW HH Hsrc Hdst.
  destruct (PadFrame.edged_small W H HW HH) as (HEW & HEH & Hfit).
  split.
  - unfold _pad_frame. rewrite !PadFrame.u32_small by lia.
    rewrite (proj2 (Z.ltb_lt 0 W)), (proj2 (Z.ltb_lt 0 H)) by lia.
    rewrite (proj2 (Z.leb_le _ _)) by lia.
    rewrite (proj2 (Z.leb_le _ _)) by lia.
    rewrite (proj2 (Z.ltb_lt _ _)) by lia.
    reflexivity.
  - apply PadFrame.length_pad_frame; lia.
Qed.

Lemma detectSceneChange_ready env p f ic fc b W H :
  1 <= W <= 8192 -> 1 <= H <= 8192 ->
  ready W H b -> conforming W H p -> conforming W H f ->
  exists prevPadded curPadded b',
    detectSceneChange env p f ic fc b
    = Ok (MEanalysis_js (plane prevPadded W H) (plane curPadded W H) W H ic fc =? 1) b' /\
    ready W H b'.
Proof.
  intros HW HH (Hi & Hsz & (l1 & Hp1 & Hl1) & (l2 & Hp2 & Hl2) & (l3 & Hp3 & Hl3)
                & (l4 & Hp4 & Hl4)) (Hpw & Hph & Hpd) (Hfw & Hfh & Hfd).
  unfold detectSceneChange, bind at 1, ensureInitialized. rewrite Hi.
  rewrite Hpw, Hph, Hfw, Hfh, !Z.eqb_refl. cbn [negb orb].
  unfold bind at 1, get. unfold bind at 1.
  rewrite Hp1, Hsz, Hpd, Z.eqb_refl.
  rewrite bool_decide_eq_true_2 by eauto. cbn [negb orb].
  unfold ret at 1. unfold bind at 1, get. rewrite Hp1, Hp2, Hp3, Hp4.
  unfold bind at 1. rewrite HEAPU8_set_exact by lia.
  unfold bind at 1. rewrite HEAPU8_set_exact by lia.
  destruct (pad_frame_fits (St := WasmBridge) (data p) l3 W H b HW HH Hpd Hl3)
    as [Hpad3 Hq3].
  destruct (pad_frame_fits (St := WasmBridge) (data f) l4 W H b HW HH Hfd Hl4)
    as [Hpad4 Hq4].
  unfold bind at 1. rewrite Hpad3. unfold bind at 1. rewrite Hpad4.
  unfold bind, put, ret.
  eexists _, _, _. split; [reflexivity|].
  unfold ready; cbn. rewrite Hi, Hsz.
  repeat split; eauto; eexists; (split; [reflexivity|]); lia.
Qed.

(** A video as the decoder presents it when the resolution is one the
    detector accepts: every frame has the resolution of the metadata and
    exactly one byte per pixel. *)
Definition well_formed (video : Video) : Prop :=
  let W := resWidth (resolution (metadata video)) in
  let H := resHeight (resolution (metadata video)) in
  1 <= W <= 8192 /\ 1 <= H <= 8192 /\ Forall (conforming W H) (frames video).

Lemma length_malloc env n l :
  0 <= n < 2 ^ 32 -> _malloc env n = Some l -> Z.of_nat (length l) = n.
Proof.
  intros Hn [= <-]. rewrite length_map, length_seq, PadFrame.u32_small by lia. lia.
Qed.

Lemma first_run_ready env meta o :
  1 <= resWidth (resolution meta) <= 8192 ->
  1 <= resHeight (resolution meta) <= 8192 ->
  ready (resWidth (resolution meta)) (resHeight (resolution meta))
    (wasmBridge (detector (first_run env meta o))).
Proof.
  set (W := resWidth (resolution meta)). set (H := resHeight (resolution meta)).
  intros HW HH.
  destruct (PadFrame.edged_small W H HW HH) as (HEW & HEH & Hfit).
  assert (Hpix : 1 <= W * H <= 8192 * 8192).
  { split; [nia|]. apply Z.mul_le_mono_nonneg; lia. }
  unfold first_run, bind, init, ensureInitialized, allocateBuffers; cbn.
  fold W H. unfold bind, ensureInitialized; cbn.
  rewrite !PadFrame.u32_small by lia.
  rewrite PadFrame.calculate_padded_size_small by lia.
  destruct (Z.eqb_spec (W * H) 0); [lia|]. cbn.
  destruct (Z.eqb_spec (PadFrame.edged_width W * PadFrame.edged_width H) 0); [lia|].
  unfold ready; cbn.
  repeat split; try (eexists; split; [reflexivity|]);
    rewrite length_map, length_seq, PadFrame.u32_small by lia; lia.
Qed.

Lemma first_run_fresh env meta o :
  analysed (wasmBridge (detector (first_run env meta o))) = [] /\
  initialized (wasmBridge (detector (first_run env meta o))) = true /\
  prevFrame (state (detector (first_run env meta o))) = None /\
  intraCount (state (detector (first_run env meta o))) = 1.
Proof.
  unfold first_run, bind, init, ensureInitialized, allocateBuffers; cbn.
  unfold bind, ensureInitialized; cbn.
  repeat case_match; cbn; auto.
Qed.

Lemma extractFrames_total env W H fs : forall r,
  1 <= W <= 8192 -> 1 <= H <= 8192 ->
  ready W H (wasmBridge (detector r)) ->
  (forall p, prevFrame (state (detector r)) = Some p -> conforming W H p) ->
  Forall (conforming W H) fs ->
  exists r', extractFrames (onFrame env) fs r = Ok tt r'.
Proof.
  induction fs as [|f fs IH]; intros r HW HH Hready Hprev Hfs; cbn [extractFrames].
  - eexists. reflexivity.
  - apply Forall_cons in Hfs as [Hf Hfs]. pose proof Hf as (Hfw & Hfh & Hfd).
    unfold bind. rewrite onFrame_unfold.
    rewrite FrameProcessor.validateFrame_returns by lia.
    destruct (prevFrame (state (detector r))) as [p|] eqn:Hp.
    + destruct (detectSceneChange_ready env p f (intraCount (state (detector r)))
                  (fcode (state (detector r))) (wasmBridge (detector r)) W H
                  HW HH Hready (Hprev p eq_refl) Hf) as (pp & cp & b' & -> & Hready').
      apply IH; auto. cbn. intros ? [= <-]. exact Hf.
    + apply IH; auto. cbn. intros ? [= <-]. exact Hf.
Qed.

Lemma detect_returns env video o :
  well_formed video -> exists res d, detect env video (constructor o) = Ok res d.
Proof.
  intros (HW & HH & Hfs). rewrite detect_new.
  destruct (extractFrames_total env _ _ (frames video) (first_run env (metadata video) o)
              HW HH (first_run_ready env (metadata video) o HW HH)) as [r' ->];
    [discriminate | exact Hfs |].
  cbn. eauto.
Qed.

(** A video of two frames: one verdict, on the second frame, with
    [intraCount = 1]. *)
Lemma detect_two_frames env meta o f0 f1 :
  let W := resWidth (resolution meta) in
  let H := resHeight (resolution meta) in
  well_formed {| metadata := meta; frames := [f0; f1] |} ->
  exists prevPadded curPadded d,
    detect env {| metadata := meta; frames := [f0; f1] |} (constructor o)
    = Ok {| scenes :=
              seed :: (if MEanalysis_js (plane prevPadded W H) (plane curPadded W H) W H 1
                            (FrameProcessor.calculateFcode
                               (default RangeMedium (opt_searchRange o)) W H) =? 1
                       then [scene_of f1] else []);
            resultMetadata := meta;
            stats := {| elapsedMilliseconds := endTime env - startTime env;
                        processedFrameCount := 2 |} |} d.
Proof.
  intros W H (HW & HH & Hfs). cbn [metadata frames] in *.
  apply Forall_cons in Hfs as [Hf0 Hfs]. apply Forall_cons in Hfs as [Hf1 _].
  pose proof Hf0 as (Hw0 & Hh0 & Hd0). pose proof Hf1 as (Hw1 & Hh1 & Hd1).
  rewrite detect_new. cbn [metadata frames extractFrames].
  pose proof (first_run_ready env meta o HW HH) as Hready.
  destruct (first_run_fresh env meta o) as (_ & _ & Hprev0 & Hic0).
  assert (Hfc : fcode (state (detector (first_run env meta o)))
                = FrameProcessor.calculateFcode
                    (default RangeMedium (opt_searchRange o)) W H) by reflexivity.
  assert (Hsl : sceneList (first_run env meta o) = [seed]) by reflexivity.
  assert (Hn : processedFrames (first_run env meta o) = 0) by reflexivity.
  set (r0 := first_run env meta o) in *.
  unfold bind at 1. rewrite onFrame_unfold.
  rewrite FrameProcessor.validateFrame_returns by lia. rewrite Hprev0.
  unfold bind at 1. rewrite onFrame_unfold.
  rewrite FrameProcessor.validateFrame_returns by lia.
  cbn [advance detector state prevFrame intraCount fcode wasmBridge].
  destruct (detectSceneChange_ready env f0 f1 (intraCount (state (detector r0)))
              (fcode (state (detector r0))) (wasmBridge (detector r0)) W H
              HW HH Hready Hf0 Hf1) as (pp & cp & b' & -> & _).
  exists pp, cp. eexists. unfold ret, finish.
  cbn [advance sceneList processedFrames detector].
  rewrite Hsl, Hn, Hic0, Hfc. f_equal. f_equal.
  destruct (MEanalysis_js _ _ _ _ _ _ =? 1); reflexivity.
Qed.

(** C4. The scene list [detect] returns starts with the scene of frame 0,
    [{frameNumber: 0, timestamp: 0, timecode: "00:00:00.000"}], which is
    in the list before any frame is processed (it is the whole list for a
    video of no frames); the frame pairs handed to the analysis, whether
    [detect] returns or throws, are pairs of a frame and its successor,
    in order: the first frame is never the current frame of a verdict.
    [detect] returns for every well-formed video. *)
Theorem detect_seeds_scene_list (env : Env) (video : Video) (o : DetectionOptions) :
  (forall res d, detect env video (constructor o) = Ok res d ->
     exists cuts, scenes res = seed :: cuts) /\
  (frames video = [] ->
     exists res d, detect env video (constructor o) = Ok res d /\ scenes res = [seed]) /\
  (exists k,
     analysed (wasmBridge (final (detect env video (constructor o))))
     = take k (zip (frames video) (tail (frames video)))) /\
  (well_formed video -> exists res d, detect env video (constructor o) = Ok res d).
Proof.
  rewrite detect_new.
  set (r0 := first_run env (metadata video) o).
  pose proof (extractFrames_seeded env (frames video) r0 [] eq_refl) as [cuts Hcuts].
  pose proof (extractFrames_log env (frames video) r0) as [k Hk].
  split; [|split; [|split]].
  - intros res d Hret.
    destruct (extractFrames (onFrame env) (frames video) r0) as [[] r|e r];
      [|discriminate].
    cbn in Hret, Hcuts. injection Hret as <- <-. cbn. eauto.
  - intros ->. cbn. eauto.
  - exists k. rewrite <- verdict_pairs_None.
    destruct (first_run_fresh env (metadata video) o) as (Hlog0 & _ & Hprev0 & _).
    fold r0 in Hlog0, Hprev0. rewrite Hlog0, Hprev0 in Hk.
    destruct (extractFrames (onFrame env) (frames video) r0) as [[] r|e r]; exact Hk.
  - intros Hwf. subst r0. rewrite <- detect_new. apply detect_returns. exact Hwf.
Qed.

(** *** Order of the scene list *)

(** Frame numbers increase strictly along [fs], from above [prev]. *)
Fixpoint ascends (prev : Z) (fs : list RawFrame) : Prop :=
  match fs with
  | [] => True
  | f :: fs' => prev < frameNumber f /\ ascends (frameNumber f) fs'
  end.

(** Frames arrive in strictly increasing frame number, starting at 0. *)
Definition from_zero (fs : list RawFrame) : Prop :=
  match fs with
  | [] => True
  | f :: fs' => frameNumber f = 0 /\ ascends 0 fs'
  end.

Lemma extractFrames_sorted env fs : forall r p,
  prevFrame (state (detector r)) = Some p ->
  ascends (frameNumber p) fs ->
  StronglySorted Z.lt (map sceneFrameNumber (sceneList r)) ->
  Forall (fun s => sceneFrameNumber s <= frameNumber p) (sceneList r) ->
  StronglySorted Z.lt
    (map sceneFrameNumber (sceneList (final (extractFrames (onFrame env) fs r)))).
Proof.
  induction fs as [|f fs IH]; intros r p Hp Hasc Hsorted Hbound; cbn [extractFrames].
  - exact Hsorted.
  - destruct Hasc as [Hlt Hasc]. unfold bind.
    pose proof (onFrame_inv env f r) as Hf.
    destruct (onFrame env f r) as [[] r1|e r1].
    + destruct Hf as (Hprev & _ & _ & [Hs | [Hs _]]).
      * apply (IH r1 f Hprev Hasc); rewrite Hs; [exact Hsorted|].
        eapply Forall_impl; [exact Hbound|]. cbn. intros; lia.
      * apply (IH r1 f Hprev Hasc); rewrite Hs.
        -- rewrite map_app. apply StronglySorted_app. split; [|split].
           ++ intros x1 x2 Hx1 Hx2. cbn in Hx2. apply list_elem_of_singleton in Hx2.
              subst x2. apply list_elem_of_fmap in Hx1 as (s1 & -> & Hs1).
              rewrite Forall_forall in Hbound. specialize (Hbound s1 Hs1). lia.
           ++ exact Hsorted.
           ++ cbn. repeat constructor.
        -- apply Forall_app. split.
           ++ eapply Forall_impl; [exact Hbound|]. cbn. intros; lia.
           ++ repeat constructor. cbn. lia.
    + destruct Hf as (_ & Hs). cbn. rewrite Hs. exact Hsorted.
Qed.

Lemma extractFrames_sorted_from_zero env fs r :
  prevFrame (state (detector r)) = None -> sceneList r = [seed] ->
  from_zero fs ->
  StronglySorted Z.lt
    (map sceneFrameNumber (sceneList (final (extractFrames (onFrame env) fs r)))).
Proof.
  intros Hprev Hseed Hfs. destruct fs as [|f fs]; cbn [extractFrames].
  - cbn. rewrite Hseed. cbn. repeat constructor.
  - destruct Hfs as [Hf0 Hasc]. unfold bind.
    pose proof (onFrame_inv env f r) as Hf.
    destruct (onFrame env f r) as [[] r1|e r1].
    + destruct Hf as (Hprev1 & _ & _ & [Hs | [_ [p Hsome]]]); [|congruence].
      apply (extractFrames_sorted env fs r1 f Hprev1).
      * rewrite Hf0. exact Hasc.
      * rewrite Hs, Hseed. cbn. repeat constructor.
      * rewrite Hs, Hseed. repeat constructor. cbn. lia.
    + destruct Hf as (_ & Hs). cbn. rewrite Hs, Hseed. cbn. repeat constructor.
Qed.

(** C5. When the frames reach the driver in strictly increasing frame
    number starting at 0, the scene list [detect] returns is strictly
    increasing in frame number, index by index, and every cut after the
    seed has a frame number of at least 1; [detect] returns for every
    well-formed video. *)
Theorem scenes_strictly_increasing (env : Env) (video : Video) (o : DetectionOptions) :
  from_zero (frames video) ->
  (forall res d, detect env video (constructor o) = Ok res d ->
     (forall i a b, scenes res !! i = Some a -> scenes res !! S i = Some b ->
        sceneFrameNumber a < sceneFrameNumber b) /\
     (forall cut, cut ∈ tail (scenes res) -> 1 <= sceneFrameNumber cut)) /\
  (well_formed video -> exists res d, detect env video (constructor o) = Ok res d).
Proof.
  intros Hfs. split; [|apply detect_returns].
  intros res d Hret. rewrite detect_new in Hret.
  set (r0 := first_run env (metadata video) o) in *.
  destruct (first_run_fresh env (metadata video) o) as (_ & _ & Hprev0 & _).
  pose proof (extractFrames_sorted_from_zero env (frames video) r0 Hprev0 eq_refl Hfs)
    as Hsorted.
  pose proof (extractFrames_seeded env (frames video) r0 [] eq_refl) as [cuts Hcuts].
  destruct (extractFrames (onFrame env) (frames video) r0) as [[] r|e r]; [|discriminate].
  cbn in Hret, Hsorted, Hcuts. injection Hret as <- <-. cbn [scenes].
  split.
  - intros i a b Ha Hb.
    rewrite <- (take_drop (S i) (sceneList r)), map_app in Hsorted.
    apply (StronglySorted_app_1_elem_of _ _ _ (sceneFrameNumber a) (sceneFrameNumber b))
      in Hsorted; [exact Hsorted | |].
    + apply list_elem_of_fmap. exists a. split; [reflexivity|].
      apply list_elem_of_lookup. exists i. rewrite lookup_take_lt by lia. exact Ha.
    + apply list_elem_of_fmap. exists b. split; [reflexivity|].
      apply list_elem_of_lookup. exists O. rewrite lookup_drop, Nat.add_0_r. exact Hb.
  - intros cut Hcut. rewrite Hcuts in Hsorted, Hcut. cbn in Hsorted, Hcut.
    apply StronglySorted_cons in Hsorted as [Hall _].
    rewrite Forall_forall in Hall.
    specialize (Hall (sceneFrameNumber cut)
                  ltac:(apply list_elem_of_fmap; eauto)). lia.
Qed.

(** *** Two runs side by side *)

(** Two calls end alike: both return, with related values, or both throw
    the same error; the states they leave are related. *)
Definition alike {St A} (RA : A -> A -> Prop) (RS : St -> St -> Prop)
    (x y : result St A) : Prop :=
  match x, y with
  | Ok a s, Ok a' s' => RA a a' /\ RS s s'
  | Err e s, Err e' s' => e = e' /\ RS s s'
  | _, _ => False
  end.

Lemma alike_bind {St A B} (RA : A -> A -> Prop) (RB : B -> B -> Prop)
    (RS : St -> St -> Prop) (m1 m2 : M St A) (k1 k2 : A -> M St B) s1 s2 :
  alike RA RS (m1 s1) (m2 s2) ->
  (forall a a' t t', RA a a' -> RS t t' -> alike RB RS (k1 a t) (k2 a' t')) ->
  alike RB RS (bind m1 k1 s1) (bind m2 k2 s2).
Proof.
  intros Hm Hk. unfold bind.
  destruct (m1 s1) as [a t|e t], (m2 s2) as [a' t'|e' t']; cbn in Hm; try contradiction.
  - destruct Hm. apply Hk; assumption.
  - exact Hm.
Qed.

(** Two heap blocks of the same size, whatever they hold. *)
Definition same_size (p q : option (list byte)) : Prop := length <$> p = length <$> q.

(** Two bridges that differ at most in the contents of their blocks. *)
Definition similar (b1 b2 : WasmBridge) : Prop :=
  initialized b1 = initialized b2 /\
  same_size (prevFramePtr b1) (prevFramePtr b2) /\
  same_size (curFramePtr b1) (curFramePtr b2) /\
  same_size (prevPaddedPtr b1) (prevPaddedPtr b2) /\
  same_size (curPaddedPtr b1) (curPaddedPtr b2) /\
  allocatedFrameSize b1 = allocatedFrameSize b2 /\
  allocatedPaddedSize b1 = allocatedPaddedSize b2 /\
  analysed b1 = analysed b2.

Lemma same_size_malloc env1 env2 n : same_size (_malloc env1 n) (_malloc env2 n).
Proof. unfold same_size, _malloc. cbn. rewrite !length_map. reflexivity. Qed.

Lemma same_size_is_Some p q : same_size p q -> bool_decide (is_Some p) = bool_decide (is_Some q).
Proof.
  unfold same_size. destruct p, q; cbn; intros Heq; try discriminate; reflexivity.
Qed.

Lemma ensureInitialized_similar b1 b2 :
  similar b1 b2 -> alike eq similar (ensureInitialized b1) (ensureInitialized b2).
Proof.
  intros Hsim. pose proof Hsim as (Hi & _). unfold ensureInitialized.
  rewrite <- Hi. destruct (initialized b1); cbn; auto.
Qed.

Lemma allocateBuffers_similar env1 env2 w h b1 b2 :
  similar b1 b2 ->
  alike eq similar (allocateBuffers env1 w h b1) (allocateBuffers env2 w h b2).
Proof.
  intros Hsim. unfold allocateBuffers.
  apply (alike_bind eq eq similar); [apply ensureInitialized_similar; exact Hsim|].
  intros _ _ t t' _ (Hi & Hp1 & Hp2 & Hp3 & Hp4 & Hf & Hp & Hlog). cbn.
  split; [reflexivity|].
  rewrite <- Hf. destruct (w * h =? allocatedFrameSize t); cbn;
    rewrite <- ?Hp; cbn;
    match goal with |- context [?c =? allocatedPaddedSize t] =>
      destruct (c =? allocatedPaddedSize t) end;
    unfold similar; cbn; repeat split; auto using same_size_malloc.
Qed.

(** The block after [HEAPU8.set]: as long as before, holding the bytes. *)
Definition holds (bytes : list byte) (l1 l2 : list byte) : Prop :=
  length l1 = length l2 /\ (length bytes <= length l1)%nat /\
  take (length bytes) l1 = bytes /\ take (length bytes) l2 = bytes.

Lemma HEAPU8_set_similar {St} (RS : St -> St -> Prop) bytes p q s1 s2 :
  same_size p q -> RS s1 s2 ->
  alike (holds bytes) RS (HEAPU8_set bytes p s1) (HEAPU8_set bytes q s2).
Proof.
  unfold same_size, HEAPU8_set. intros Hpq HRS.
  destruct p as [l1|], q as [l2|]; cbn in Hpq; try discriminate; [|cbn; auto].
  injection Hpq as Hlen. rewrite <- Hlen.
  destruct (Nat.leb_spec (length bytes) (length l1)); cbn; [|auto].
  split; [|exact HRS]. unfold holds.
  rewrite !length_app, !length_drop, !take_app_length. repeat split; lia.
Qed.

(** Two padded blocks of the same size that hold the same plane. *)
Definition same_plane (W H : Z) (l1 l2 : list byte) : Prop :=
  length l1 = length l2 /\ plane l1 W H = plane l2 W H.

Lemma pad_frame_similar {St} (RS : St -> St -> Prop) bytes src1 src2 p q W H s1 s2 :
  W * H <= Z.of_nat (length bytes) -> 0 <= W < 2 ^ 32 -> 0 <= H < 2 ^ 32 ->
  holds bytes src1 src2 -> same_size p q -> RS s1 s2 ->
  alike (same_plane W H) RS (_pad_frame src1 p W H s1) (_pad_frame src2 q W H s2).
Proof.
  intros Hpix HW HH (Hlen & Hle & Ht1 & Ht2) Hpq HRS. unfold same_size, _pad_frame.
  destruct p as [l1|], q as [l2|]; cbn in Hpq; try discriminate; [|cbn; auto].
  injection Hpq as Hlenl. rewrite !PadFrame.u32_small by lia. rewrite <- Hlen, <- Hlenl.
  destruct (Z.ltb_spec 0 W); cbn [andb]; [|cbn; auto].
  destruct (Z.ltb_spec 0 H); cbn [andb]; [|cbn; auto].
  destruct (Z.leb_spec (W * H) (Z.of_nat (length src1))); cbn [andb]; [|cbn; auto].
  destruct (Z.leb_spec (PadFrame.edged_width W * PadFrame.edged_width H)
              (Z.of_nat (length l1))); cbn [andb]; [|cbn; auto].
  destruct (Z.ltb_spec (Z.of_nat (length l1)) (2 ^ 32)); cbn; [|auto].
  split; [|exact HRS]. unfold same_plane, plane.
  rewrite !PadFrame.u32_small by lia. split.
  - rewrite !PadFrame.length_pad_frame by lia. exact Hlenl.
  - apply PadFrame.pad_frame_plane_ext; try lia.
    assert (Hmin : Z.to_nat (W * H) = Nat.min (Z.to_nat (W * H)) (length bytes)) by lia.
    rewrite Hmin, <- !take_take, Ht1, Ht2. reflexivity.
Qed.

Lemma detectSceneChange_similar env1 env2 p f ic fc b1 b2 :
  FrameProcessor.validateFrame p = Returns tt ->
  FrameProcessor.validateFrame f = Returns tt ->
  similar b1 b2 ->
  alike eq similar (detectSceneChange env1 p f ic fc b1)
    (detectSceneChange env2 p f ic fc b2).
Proof.
  intros Hvp Hvf Hsim.
  apply FrameProcessor.validateFrame_valid in Hvp as (Hpd & Hpw & Hph).
  apply FrameProcessor.validateFrame_valid in Hvf as (Hfd & Hfw & Hfh).
  unfold detectSceneChange.
  apply (alike_bind eq eq similar); [apply ensureInitialized_similar; exact Hsim|].
  intros _ _ t1 t2 _ Ht.
  destruct (Z.eqb_spec (width p) (width f)) as [Hw|Hw]; cbn [negb orb]; [|cbn; auto].
  destruct (Z.eqb_spec (height p) (height f)) as [Hh|Hh]; cbn [negb orb]; [|cbn; auto].
  apply (alike_bind similar eq similar); [cbn; auto|].
  intros c1 c2 u1 u2 Hc Hu.
  apply (alike_bind eq eq similar).
  { pose proof Hc as (_ & Hp1 & _ & _ & _ & Hsz & _).
    rewrite (same_size_is_Some _ _ Hp1), Hsz.
    match goal with |- context [if ?c then _ else _] => destruct c end;
      [apply allocateBuffers_similar; exact Hu | cbn; auto]. }
  intros _ _ v1 v2 _ Hv.
  apply (alike_bind similar eq similar); [cbn; auto|].
  intros d1 d2 x1 x2 (Hi & Hp1 & Hp2 & Hp3 & Hp4 & Hsz & Hpsz & Hlog) Hx.
  apply (alike_bind (holds (data p)) eq similar);
    [apply HEAPU8_set_similar; assumption|].
  intros prevRaw1 prevRaw2 y1 y2 Hprev Hy.
  apply (alike_bind (holds (data f)) eq similar);
    [apply HEAPU8_set_similar; assumption|].
  intros curRaw1 curRaw2 z1 z2 Hcur Hz.
  apply (alike_bind (same_plane (width p) (height p)) eq similar);
    [apply (pad_frame_similar similar (data p)); auto; lia|].
  intros prevPadded1 prevPadded2 k1 k2 [Hpl Hpp] Hk.
  apply (alike_bind (same_plane (width f) (height f)) eq similar);
    [apply (pad_frame_similar similar (data f)); auto; lia|].
  intros curPadded1 curPadded2 m1 m2 [Hcl Hcp] Hm.
  rewrite <- Hw, <- Hh in Hcp.
  apply (alike_bind eq eq similar).
  - cbn. split; [reflexivity|].
    destruct Hprev as (Hl1 & _), Hcur as (Hl2 & _).
    unfold similar, same_size; cbn. rewrite Hi, Hsz, Hpsz, Hlog, Hl1, Hl2, Hpl, Hcl.
    repeat split; reflexivity.
  - intros _ _ n1 n2 _ Hn. cbn. rewrite Hpp, Hcp. auto.
Qed.

(** Two runs that differ at most in their options and in the contents of
    heap blocks. *)
Definition similar_runs (r1 r2 : Run) : Prop :=
  similar (wasmBridge (detector r1)) (wasmBridge (detector r2)) /\
  state (detector r1) = state (detector r2) /\
  sceneList r1 = sceneList r2 /\
  processedFrames r1 = processedFrames r2.

(** Every frame that came through was validated. *)
Definition prev_valid (r : Run) : Prop :=
  forall p, prevFrame (state (detector r)) = Some p ->
    FrameProcessor.validateFrame p = Returns tt.

Lemma onFrame_similar env1 env2 f r1 r2 :
  prev_valid r1 -> similar_runs r1 r2 ->
  alike eq (fun r1' r2' => similar_runs r1' r2' /\ prev_valid r1')
    (onFrame env1 f r1) (onFrame env2 f r2).
Proof.
  intros Hvalid Hsim. pose proof Hsim as (Hb & Hst & Hsl & Hn). rewrite !onFrame_unfold.
  destruct (FrameProcessor.validateFrame f) as [[]|e] eqn:Hvf; [|cbn; auto].
  rewrite <- Hst.
  destruct (prevFrame (state (detector r1))) as [p|] eqn:Hp.
  - pose proof (detectSceneChange_similar env1 env2 p f
                  (intraCount (state (detector r1))) (fcode (state (detector r1)))
                  _ _ (Hvalid p Hp) Hvf Hb) as Hd.
    destruct (detectSceneChange env1 p f _ _ _) as [cut1 b1'|e1 b1'],
             (detectSceneChange env2 p f _ _ _) as [cut2 b2'|e2 b2'];
      cbn in Hd; try contradiction; destruct Hd as [<- Hb'].
    + cbn. split; [reflexivity|]. split.
      * unfold similar_runs, advance; cbn. rewrite <- Hst, Hsl, Hn. auto.
      * intros q [= <-]. exact Hvf.
    + cbn. split; [reflexivity|]. split.
      * unfold similar_runs, stopped; cbn. rewrite <- Hst, Hsl, Hn. auto.
      * intros q Hq. cbn in Hq. rewrite Hp in Hq. injection Hq as <-.
        exact (Hvalid p Hp).
  - cbn. split; [reflexivity|]. split.
    + unfold similar_runs, advance; cbn. rewrite <- Hst, Hsl, Hn. auto.
    + intros q [= <-]. exact Hvf.
Qed.

Lemma extractFrames_similar env1 env2 fs : forall r1 r2,
  prev_valid r1 -> similar_runs r1 r2 ->
  alike eq similar_runs (extractFrames (onFrame env1) fs r1)
    (extractFrames (onFrame env2) fs r2).
Proof.
  induction fs as [|f fs IH]; intros r1 r2 Hvalid Hsim; cbn [extractFrames].
  - cbn. auto.
  - unfold bind. pose proof (onFrame_similar env1 env2 f r1 r2 Hvalid Hsim) as Hf.
    destruct (onFrame env1 f r1) as [[] t1|e1 t1], (onFrame env2 f r2) as [[] t2|e2 t2];
      cbn in Hf; try contradiction.
    + destruct Hf as (_ & Ht & Hv). apply IH; assumption.
    + destruct Hf as (-> & Ht & _). cbn. auto.
Qed.

Lemma first_run_similar env1 env2 meta o1 o2 :
  opt_searchRange o1 = opt_searchRange o2 ->
  similar_runs (first_run env1 meta o1) (first_run env2 meta o2) /\
  prev_valid (first_run env1 meta o1).
Proof.
  intros Hrange. split; [|intros p Hp; discriminate].
  assert (Hb : similar (wasmBridge (detector (first_run env1 meta o1)))
                       (wasmBridge (detector (first_run env2 meta o2)))).
  { unfold first_run; cbn [detector wasmBridge]. unfold bind at 1 2, init.
    match goal with |- similar (match ?x with _ => _ end) (match ?y with _ => _ end) =>
      assert (Ha : alike eq similar x y)
    end.
    { apply allocateBuffers_similar. unfold similar, same_size; cbn. repeat split. }
    destruct (allocateBuffers env1 _ _ _), (allocateBuffers env2 _ _ _);
      cbn in Ha; try contradiction; apply Ha. }
  split; [exact Hb|].
  unfold first_run, constructor; cbn. rewrite Hrange. auto.
Qed.

(** What two calls of [detect] have in common. *)
Definition same_outcome (x y : result SceneDetector DetectionResult) : Prop :=
  match x, y with
  | Ok res1 _, Ok res2 _ =>
      scenes res1 = scenes res2 /\ resultMetadata res1 = resultMetadata res2 /\
      processedFrameCount (stats res1) = processedFrameCount (stats res2)
  | Err e1 _, Err e2 _ => e1 = e2
  | _, _ => False
  end.

Lemma detect_similar env1 env2 video o1 o2 :
  opt_searchRange o1 = opt_searchRange o2 ->
  same_outcome (detect env1 video (constructor o1)) (detect env2 video (constructor o2)).
Proof.
  intros Hrange. rewrite !detect_new.
  destruct (first_run_similar env1 env2 (metadata video) o1 o2 Hrange) as [Hsim Hvalid].
  pose proof (extractFrames_similar env1 env2 (frames video) _ _ Hvalid Hsim) as Hx.
  destruct (extractFrames (onFrame env1) _ _) as [[] t1|e1 t1],
           (extractFrames (onFrame env2) _ _) as [[] t2|e2 t2];
    cbn in Hx |- *; try contradiction.
  - destruct Hx as (_ & _ & _ & Hsl & Hn). auto.
  - apply Hx.
Qed.

(** C8. Two runs of [detect], each on a new detector, on the same video
    with the same options end alike whatever the heap blocks they
    allocate hold and whatever the clock reads: both return, with equal
    scene lists, or both throw the same error. *)
Theorem detect_deterministic (env1 env2 : Env) (video : Video) (o : DetectionOptions) :
  match detect env1 video (constructor o), detect env2 video (constructor o) with
  | Ok res1 _, Ok res2 _ => scenes res1 = scenes res2
  | Err e1 _, Err e2 _ => e1 = e2
  | _, _ => False
  end.
Proof.
  pose proof (detect_similar env1 env2 video o o eq_refl) as Hsame.
  unfold same_outcome in Hsame.
  destruct (detect env1 video (constructor o)), (detect env2 video (constructor o));
    try contradiction; [apply Hsame | exact Hsame].
Qed.

(** C1, as the code has it. The scene list [detect] returns does not
    depend on the [sensitivity] option, nor on [customThresholds]: a run
    with any sensitivity [s] and thresholds [c] ends like the run with
    the sensitivity and thresholds of [o], with an equal scene list. *)
Theorem sensitivity_is_ignored (env : Env) (video : Video) (o : DetectionOptions)
    (s : option SensitivityLevel) (c : option CustomThresholds) :
  let o' := {| opt_sensitivity := s; opt_customThresholds := c;
               opt_searchRange := opt_searchRange o |} in
  match detect env video (constructor o'), detect env video (constructor o) with
  | Ok res1 _, Ok res2 _ => scenes res1 = scenes res2
  | Err e1 _, Err e2 _ => e1 = e2
  | _, _ => False
  end.
Proof.
  intros o'.
  pose proof (detect_similar env env video o' o eq_refl) as Hsame.
  unfold same_outcome in Hsame.
  destruct (detect env video (constructor o')), (detect env video (constructor o));
    try contradiction; [apply Hsame | exact Hsame].
Qed.

(** *** Frames that end a run *)

Lemma detect_Ok_inv env video o res d :
  detect env video (constructor o) = Ok res d ->
  exists r,
    extractFrames (onFrame env) (frames video) (first_run env (metadata video) o)
      = Ok tt r /\
    d = detector r /\ scenes res = sceneList r.
Proof.
  rewrite detect_new.
  destruct (extractFrames (onFrame env) _ _) as [[] r|e r]; [|discriminate].
  cbn. intros [= <- <-]. eauto.
Qed.

Lemma extractFrames_Ok_inv env fs : forall r r',
  extractFrames (onFrame env) fs r = Ok tt r' ->
  initialized (wasmBridge (detector r')) = initialized (wasmBridge (detector r)) /\
  prevFrame (state (detector r')) =
    match last fs with
    | Some p => Some p
    | None => prevFrame (state (detector r))
    end.
Proof.
  induction fs as [|f fs IH]; intros r r'; cbn [extractFrames].
  - intros [= <-]. auto.
  - unfold bind. pose proof (onFrame_inv env f r) as Hf.
    destruct (onFrame env f r) as [[] r1|e r1]; [|discriminate].
    destruct Hf as (Hprev & Hi & _). intros Hrest.
    destruct (IH r1 r' Hrest) as [Hi' Hprev'].
    split; [congruence|]. rewrite Hprev', last_cons, Hprev.
    destruct (last fs); reflexivity.
Qed.

(** C6. [validateFrame] throws exactly on the invalid frames (empty
    data, fewer bytes than [width * height], a dimension [<= 0] or
    [> 8192]) and returns on every frame with at least [width * height]
    bytes and both dimensions in [1, 8192]; the driver does not catch the
    error: when the frames before an invalid frame went through, [detect]
    throws the error of that frame, and the frames after it are not
    processed. *)
Theorem invalid_frame_aborts (env : Env) (meta : VideoMetadata) (o : DetectionOptions)
    (f : RawFrame) (pre rest : list RawFrame) :
  ((exists e, FrameProcessor.validateFrame f = Throws e)
     <-> FrameProcessor.invalid_frame f) /\
  (width f * height f <= Z.of_nat (length (data f)) ->
     1 <= width f <= 8192 -> 1 <= height f <= 8192 ->
     FrameProcessor.validateFrame f = Returns tt) /\
  (forall res d e,
     detect env {| metadata := meta; frames := pre |} (constructor o) = Ok res d ->
     FrameProcessor.validateFrame f = Throws e ->
     detect env {| metadata := meta; frames := pre ++ f :: rest |} (constructor o)
       = Err (FrameError e) d).
Proof.
  split; [apply FrameProcessor.validateFrame_throws_iff|].
  split; [apply FrameProcessor.validateFrame_returns|].
  intros res d e Hpre Hf.
  apply detect_Ok_inv in Hpre as (r & Hrun & -> & _). cbn in Hrun.
  rewrite detect_new. cbn [frames metadata].
  rewrite extractFrames_app, Hrun. cbn [extractFrames]. unfold bind.
  rewrite onFrame_unfold, Hf. reflexivity.
Qed.

(** C2, as the code has it. When a frame arrives whose width or height
    differs from the previous frame's, [detectSceneChange] throws "Frame
    dimensions must match" and the driver does not catch it: [detect]
    throws that error, no buffer is reallocated and no later frame is
    analysed. *)
Theorem resolution_change_throws (env : Env) (meta : VideoMetadata) (o : DetectionOptions)
    (p f : RawFrame) (pre rest : list RawFrame) (res : DetectionResult)
    (d : SceneDetector) :
  detect env {| metadata := meta; frames := pre ++ [p] |} (constructor o) = Ok res d ->
  FrameProcessor.validateFrame f = Returns tt ->
  width f <> width p \/ height f <> height p ->
  exists d',
    detect env {| metadata := meta; frames := pre ++ p :: f :: rest |} (constructor o)
      = Err FrameDimensionsMustMatch d' /\
    wasmBridge d' = wasmBridge d.
Proof.
  intros Hpre Hf Hdims.
  apply detect_Ok_inv in Hpre as (r & Hrun & -> & _). cbn in Hrun.
  destruct (extractFrames_Ok_inv env _ _ _ Hrun) as [Hi Hprev].
  rewrite last_snoc in Hprev.
  destruct (first_run_fresh env meta o) as (_ & Hi0 & _). rewrite Hi0 in Hi.
  rewrite detect_new. cbn [frames metadata].
  rewrite (cons_middle p pre), app_assoc, extractFrames_app, Hrun.
  cbn [extractFrames]. unfold bind.
  rewrite onFrame_unfold, Hf, Hprev.
  unfold detectSceneChange, bind at 1, ensureInitialized. rewrite Hi.
  assert (Hne : negb (width p =? width f) || negb (height p =? height f) = true).
  { destruct (Z.eqb_spec (width p) (width f)), (Z.eqb_spec (height p) (height f));
      cbn; try reflexivity. lia. }
  rewrite Hne. cbn. eexists. split; reflexivity.
Qed.

(** *** Any detector, new or used *)

(** The run [detect] starts the extraction with on a detector [d], once
    the bridge is initialised and holds its buffers. *)
Definition begin (meta : VideoMetadata) (d : SceneDetector) (b : WasmBridge) : Run :=
  {| detector :=
       {| options := options d; wasmBridge := b;
          state := {| intraCount := intraCount (state d);
                      fcode := FrameProcessor.calculateFcode (searchRange (options d))
                                 (resWidth (resolution meta)) (resHeight (resolution meta));
                      prevFrame := prevFrame (state d); curFrame := curFrame (state d) |} |};
     sceneList := [seed]; processedFrames := 0 |}.

(** The bridge after [init] and [allocateBuffers]. *)
Definition buffers (env : Env) (meta : VideoMetadata) (b : WasmBridge) : WasmBridge :=
  final ((do _ <- init;
          allocateBuffers env (resWidth (resolution meta)) (resHeight (resolution meta))) b).

Lemma detect_begin env video d :
  detect env video d =
    finish env (metadata video)
      (extractFrames (onFrame env) (frames video)
         (begin (metadata video) d (buffers env (metadata video) (wasmBridge d)))) /\
  analysed (buffers env (metadata video) (wasmBridge d)) = analysed (wasmBridge d) /\
  initialized (buffers env (metadata video) (wasmBridge d)) = true.
Proof.
  unfold detect, buffers, bind, init.
  match goal with |- context [allocateBuffers ?e ?w ?h ?b] =>
    pose proof (allocateBuffers_inv e w h b) as Hinv;
    destruct (allocateBuffers e w h b) as [[] b'|e' b'] end.
  - destruct Hinv as (_ & Hi & Hlog). cbn [final]. split; [reflexivity|]. auto.
  - destruct Hinv as (Hi & _). cbn in Hi. discriminate.
Qed.

(** The frames a run reports: [fs] when the first of them has a
    predecessor to be compared with, all but the first otherwise. *)
Definition comparable (prev : option RawFrame) (fs : list RawFrame) : list RawFrame :=
  match prev with
  | Some _ => fs
  | None => tail fs
  end.

Lemma extractFrames_trace env fs : forall r r',
  extractFrames (onFrame env) fs r = Ok tt r' ->
  analysed (wasmBridge (detector r')) =
    analysed (wasmBridge (detector r))
      ++ verdict_pairs (prevFrame (state (detector r))) fs /\
  processedFrames r' = processedFrames r + Z.of_nat (length fs) /\
  exists cuts,
    sceneList r' = sceneList r ++ map scene_of cuts /\
    sublist cuts (comparable (prevFrame (state (detector r))) fs).
Proof.
  induction fs as [|f fs IH]; intros r r'; cbn [extractFrames].
  - intros [= <-]. rewrite !app_nil_r. split; [reflexivity|]. split; [cbn; lia|].
    exists []. rewrite app_nil_r. split; [reflexivity|]. apply sublist_nil_l.
  - unfold bind. rewrite onFrame_unfold.
    destruct (FrameProcessor.validateFrame f) as [[]|e]; [|discriminate].
    destruct (prevFrame (state (detector r))) as [p|] eqn:Hp.
    + pose proof (detectSceneChange_inv env p f (intraCount (state (detector r)))
                    (fcode (state (detector r))) (wasmBridge (detector r))) as Hd.
      destruct (detectSceneChange env p f _ _ _) as [cut b|e b]; [|discriminate].
      destruct Hd as (Hlog & _). intros Hrest.
      destruct (IH _ r' Hrest) as (Hlog' & Hn' & cuts & Hs' & Hsub).
      cbn [advance detector wasmBridge state prevFrame sceneList processedFrames comparable]
        in *.
      split; [rewrite Hlog', Hlog, <- app_assoc; reflexivity|].
      split; [cbn [length]; lia|].
      destruct cut.
      * exists (f :: cuts). rewrite Hs', <- app_assoc. split; [reflexivity|].
        apply sublist_skip. exact Hsub.
      * exists cuts. split; [exact Hs'|]. apply sublist_cons. exact Hsub.
    + intros Hrest.
      destruct (IH _ r' Hrest) as (Hlog' & Hn' & cuts & Hs' & Hsub).
      cbn [advance detector wasmBridge state prevFrame sceneList processedFrames comparable
           tail] in *.
      split; [exact Hlog'|]. split; [cbn [length]; lia|].
      exists cuts. split; [exact Hs' | exact Hsub].
Qed.

Lemma detect_Ok_begin env video d res d' :
  detect env video d = Ok res d' ->
  exists r',
    extractFrames (onFrame env) (frames video)
      (begin (metadata video) d (buffers env (metadata video) (wasmBridge d))) = Ok tt r' /\
    d' = detector r' /\ scenes res = sceneList r' /\
    resultMetadata res = metadata video /\
    processedFrameCount (stats res) = processedFrames r' /\
    elapsedMilliseconds (stats res) = endTime env - startTime env.
Proof.
  destruct (detect_begin env video d) as (-> & _).
  destruct (extractFrames _ _ _) as [[] r'|e r']; cbn [finish]; [|discriminate].
  intros [= <- <-]. exists r'. repeat split.
Qed.

(** X20. When [detect] returns on a new detector, every frame was processed and
    every pair of a frame and its successor was handed to the analysis,
    once and in order; the scenes after the seed are scenes of frames of
    the video other than the first, in the order of the video, without
    repetition of a position; the metadata are those of the decoder and
    the elapsed time is the difference of the two clock readings. *)
Theorem detect_accounts_for_every_frame (env : Env) (video : Video) (o : DetectionOptions)
    (res : DetectionResult) (d : SceneDetector) :
  detect env video (constructor o) = Ok res d ->
  analysed (wasmBridge d) = zip (frames video) (tail (frames video)) /\
  processedFrameCount (stats res) = Z.of_nat (length (frames video)) /\
  (exists cuts,
     scenes res = seed :: map scene_of cuts /\ sublist cuts (tail (frames video))) /\
  resultMetadata res = metadata video /\
  elapsedMilliseconds (stats res) = endTime env - startTime env.
Proof.
  intros Hret.
  destruct (detect_Ok_begin env video _ res d Hret)
    as (r' & Hrun & -> & Hscenes & Hmeta & Hcount & Htime).
  destruct (detect_begin env video (constructor o)) as (_ & Hlog0 & _).
  destruct (extractFrames_trace env _ _ r' Hrun) as (Hlog & Hn & cuts & Hs & Hsub).
  cbn [begin detector wasmBridge state prevFrame sceneList processedFrames comparable
       constructor] in *.
  rewrite Hlog, Hlog0, verdict_pairs_None. cbn [new_WasmBridge analysed app].
  split; [reflexivity|]. split; [lia|]. split; [|auto].
  exists cuts. rewrite Hscenes, Hs. auto.
Qed.

(** *** [intraCount] *)

(** Frames numbered [n], [n + 1], ... in the order they arrive, as the
    decoder numbers them. *)
Fixpoint numbered (n : Z) (fs : list RawFrame) : Prop :=
  match fs with
  | [] => True
  | f :: fs' => frameNumber f = n /\ numbered (n + 1) fs'
  end.

(** [intraCount] is the distance from the last scene to the frame that
    comes next. *)
Definition counting (r : Run) : Prop :=
  exists p s,
    prevFrame (state (detector r)) = Some p /\ last (sceneList r) = Some s /\
    sceneFrameNumber s <= frameNumber p /\
    intraCount (state (detector r)) = frameNumber p + 1 - sceneFrameNumber s.

Lemma extractFrames_counting env fs : forall r r' p,
  extractFrames (onFrame env) fs r = Ok tt r' ->
  prevFrame (state (detector r)) = Some p ->
  numbered (frameNumber p + 1) fs ->
  counting r ->
  counting r' /\
  exists p', prevFrame (state (detector r')) = Some p' /\
    frameNumber p' = frameNumber p + Z.of_nat (length fs).
Proof.
  induction fs as [|f fs IH]; intros r r' p; cbn [extractFrames numbered].
  - intros [= <-] Hp _ Hc. split; [exact Hc|]. exists p. split; [exact Hp | cbn; lia].
  - unfold bind. rewrite onFrame_unfold.
    destruct (FrameProcessor.validateFrame f) as [[]|e]; [|discriminate].
    intros Hrun Hp [Hf Hfs] (p0 & s & Hp0 & Hs & Hle & Hic).
    rewrite Hp in Hrun, Hp0. injection Hp0 as <-.
    destruct (detectSceneChange env p f _ _ _) as [cut b|e b]; [|discriminate].
    destruct (IH _ r' f Hrun) as (Hc' & p' & Hp' & Hn').
    + reflexivity.
    + rewrite Hf. exact Hfs.
    + exists f. destruct cut; cbn [advance detector state prevFrame sceneList intraCount].
      * exists (scene_of f). rewrite last_snoc. cbn. repeat split; lia.
      * exists s. repeat split; [exact Hs | lia | lia].
    + split; [exact Hc'|]. exists p'. split; [exact Hp'|]. cbn [length]. lia.
Qed.

(** X21. When the frames are numbered 0, 1, 2, ... and [detect] returns on a
    new detector, the [intraCount] it leaves in the state is the number of
    frames from the last reported scene to the end of the video: at least
    1, and the number of frames of the video when no scene change was
    found. *)
Theorem intraCount_counts_frames_since_last_scene (env : Env) (video : Video)
    (o : DetectionOptions) (res : DetectionResult) (d : SceneDetector) :
  numbered 0 (frames video) -> frames video <> [] ->
  detect env video (constructor o) = Ok res d ->
  exists s,
    last (scenes res) = Some s /\
    intraCount (state d) = Z.of_nat (length (frames video)) - sceneFrameNumber s /\
    1 <= intraCount (state d) /\
    (scenes res = [seed] -> intraCount (state d) = Z.of_nat (length (frames video))).
Proof.
  intros Hnum Hne Hret.
  destruct (detect_Ok_begin env video _ res d Hret) as (r' & Hrun & -> & Hscenes & _).
  destruct (frames video) as [|f fs]; [congruence|]. clear Hne.
  destruct Hnum as [Hf Hfs]. cbn [extractFrames] in Hrun. unfold bind in Hrun.
  rewrite onFrame_unfold in Hrun.
  destruct (FrameProcessor.validateFrame f) as [[]|e]; [|discriminate].
  cbn [begin detector state prevFrame constructor] in Hrun.
  destruct (extractFrames_counting env fs _ r' f Hrun) as (Hc & p' & Hp' & Hn').
  - reflexivity.
  - rewrite Hf. exact Hfs.
  - exists f, seed. cbn. repeat split; lia.
  - destruct Hc as (p & s & Hp & Hs & Hle & Hic).
    rewrite Hp' in Hp. injection Hp as <-.
    exists s. rewrite Hscenes. split; [exact Hs|].
    assert (Hval : intraCount (state (detector r'))
                   = Z.of_nat (length (f :: fs)) - sceneFrameNumber s)
      by (cbn [length]; lia).
    split; [exact Hval|]. split; [lia|].
    intros Hseed. rewrite Hseed in Hs. injection Hs as <-. rewrite Hval. cbn. lia.
Qed.

(** *** A detector used again *)

Lemma allocateBuffers_ready env W H b :
  1 <= W <= 8192 -> 1 <= H <= 8192 -> initialized b = true ->
  ready W H b \/ allocatedFrameSize b = 0 /\ allocatedPaddedSize b = 0 ->
  exists b', allocateBuffers env W H b = Ok tt b' /\ ready W H b'.
Proof.
  intros HW HH Hi Hb.
  destruct (PadFrame.edged_small W H HW HH) as (HEW & HEH & Hfit).
  assert (Hpix : 1 <= W * H <= 8192 * 8192).
  { split; [nia|]. apply Z.mul_le_mono_nonneg; lia. }
  unfold allocateBuffers, bind, ensureInitialized. rewrite Hi.
  rewrite !PadFrame.u32_small by lia.
  rewrite PadFrame.calculate_padded_size_small by lia.
  eexists. split; [reflexivity|].
  assert (Hm : forall n, 0 <= n < 2 ^ 32 ->
            exists l, _malloc env n = Some l /\ Z.of_nat (length l) = n).
  { intros n Hn. eexists. split; [reflexivity|]. apply (length_malloc env n); auto. }
  destruct Hb as [(_ & Hsz & Hp1 & Hp2 & Hp3 & Hp4) | [Hz1 Hz2]].
  - rewrite Hsz, Z.eqb_refl.
    destruct (PadFrame.edged_width W * PadFrame.edged_width H =? allocatedPaddedSize b).
    + unfold ready. auto 10.
    + unfold ready; cbn. repeat split; auto; apply Hm; lia.
  - rewrite Hz1. destruct (Z.eqb_spec (W * H) 0); [lia|]. cbn.
    rewrite Hz2.
    destruct (Z.eqb_spec (PadFrame.edged_width W * PadFrame.edged_width H) 0); [lia|].
    unfold ready; cbn. repeat split; auto; apply Hm; lia.
Qed.

Lemma extractFrames_ready env W H fs : forall r,
  1 <= W <= 8192 -> 1 <= H <= 8192 ->
  ready W H (wasmBridge (detector r)) ->
  (forall p, prevFrame (state (detector r)) = Some p -> conforming W H p) ->
  Forall (conforming W H) fs ->
  exists r', extractFrames (onFrame env) fs r = Ok tt r' /\
    ready W H (wasmBridge (detector r')) /\
    (forall p, prevFrame (state (detector r')) = Some p -> conforming W H p).
Proof.
  induction fs as [|f fs IH]; intros r HW HH Hready Hprev Hfs; cbn [extractFrames].
  - eexists. split; [reflexivity|]. auto.
  - apply Forall_cons in Hfs as [Hf Hfs]. pose proof Hf as (Hfw & Hfh & Hfd).
    unfold bind. rewrite onFrame_unfold.
    rewrite FrameProcessor.validateFrame_returns by lia.
    destruct (prevFrame (state (detector r))) as [p|] eqn:Hp.
    + destruct (detectSceneChange_ready env p f (intraCount (state (detector r)))
                  (fcode (state (detector r))) (wasmBridge (detector r)) W H
                  HW HH Hready (Hprev p eq_refl) Hf) as (pp & cp & b' & -> & Hready').
      apply IH; auto. cbn. intros ? [= <-]. exact Hf.
    + apply IH; auto. cbn. intros ? [= <-]. exact Hf.
Qed.

(** [detect] on any detector whose bridge holds buffers of the resolution
    of the video, or none at all, and whose previous frame, if any, has
    that resolution. *)
Lemma detect_run env video d :
  let W := resWidth (resolution (metadata video)) in
  let H := resHeight (resolution (metadata video)) in
  well_formed video ->
  ready W H (wasmBridge d) \/
    allocatedFrameSize (wasmBridge d) = 0 /\ allocatedPaddedSize (wasmBridge d) = 0 ->
  (forall p, prevFrame (state d) = Some p -> conforming W H p) ->
  exists res d',
    detect env video d = Ok res d' /\
    ready W H (wasmBridge d') /\
    (forall p, prevFrame (state d') = Some p -> conforming W H p) /\
    prevFrame (state d') =
      match last (frames video) with
      | Some p => Some p
      | None => prevFrame (state d)
      end /\
    analysed (wasmBridge d') =
      analysed (wasmBridge d) ++ verdict_pairs (prevFrame (state d)) (frames video) /\
    exists cuts,
      scenes res = seed :: map scene_of cuts /\
      sublist cuts (comparable (prevFrame (state d)) (frames video)).
Proof.
  intros W H (HW & HH & Hfs) Hb Hprev.
  destruct (detect_begin env video d) as (Hdet & Hlog0 & Hi0).
  assert (Hready : ready W H (buffers env (metadata video) (wasmBridge d))).
  { unfold buffers, bind, init. fold W H.
    match goal with |- context [allocateBuffers env W H ?b] =>
      destruct (allocateBuffers_ready env W H b HW HH eq_refl) as (b' & -> & Hr) end;
      [|exact Hr].
    destruct Hb as [(Hi & Hsz & Hp1 & Hp2 & Hp3 & Hp4) | Hz]; [left|right; exact Hz].
    unfold ready; cbn. auto 10. }
  destruct (extractFrames_ready env W H (frames video)
              (begin (metadata video) d (buffers env (metadata video) (wasmBridge d)))
              HW HH Hready Hprev Hfs) as (r' & Hrun & Hready' & Hprev').
  destruct (extractFrames_trace env _ _ r' Hrun) as (Hlog & _ & cuts & Hs & Hsub).
  destruct (extractFrames_Ok_inv env _ _ r' Hrun) as (_ & Hlast).
  rewrite Hdet, Hrun. cbn [finish]. eexists _, _. split; [reflexivity|].
  cbn [begin detector wasmBridge state prevFrame sceneList scenes] in *.
  split; [exact Hready'|]. split; [exact Hprev'|]. split; [exact Hlast|].
  split; [rewrite Hlog, Hlog0; reflexivity|].
  exists cuts. auto.
Qed.

(** X22. A detector keeps its previous frame between two calls of [detect]:
    used again without [destroy], it compares the first frame of the
    second video with the last frame of the first, and may report that
    first frame as a scene besides the seed. *)
Theorem reused_detector_compares_across_videos (env1 env2 : Env) (video1 video2 : Video)
    (o : DetectionOptions) (p g : RawFrame) (gs : list RawFrame) :
  well_formed video1 -> well_formed video2 ->
  resolution (metadata video2) = resolution (metadata video1) ->
  last (frames video1) = Some p -> frames video2 = g :: gs ->
  exists res1 d1 res2 d2,
    detect env1 video1 (constructor o) = Ok res1 d1 /\
    detect env2 video2 d1 = Ok res2 d2 /\
    analysed (wasmBridge d2) =
      zip (frames video1) (tail (frames video1)) ++ (p, g) :: zip (g :: gs) gs /\
    exists cuts, scenes res2 = seed :: map scene_of cuts /\ sublist cuts (g :: gs).
Proof.
  intros Hwf1 Hwf2 Hres Hlast Hfs2.
  destruct (detect_run env1 video1 (constructor o) Hwf1)
    as (res1 & d1 & Hret1 & Hready1 & Hprev1 & Hlast1 & Hlog1 & _).
  { right. split; reflexivity. }
  { intros q [=]. }
  rewrite Hlast in Hlast1.
  destruct (detect_run env2 video2 d1 Hwf2)
    as (res2 & d2 & Hret2 & _ & _ & _ & Hlog2 & cuts & Hs2 & Hsub2).
  { left. rewrite Hres. exact Hready1. }
  { rewrite Hres. exact Hprev1. }
  exists res1, d1, res2, d2. split; [exact Hret1|]. split; [exact Hret2|].
  rewrite Hlast1, Hfs2 in *. cbn [comparable] in Hsub2.
  split; [|eauto].
  rewrite Hlog2, Hlog1. cbn [constructor state prevFrame wasmBridge new_WasmBridge analysed app].
  rewrite verdict_pairs_None, verdict_pairs_Some. reflexivity.
Qed.

(** X23. [destroy] makes a detector forget the video it saw: the bridge is
    back to its uninitialised state, and the next [detect], on any
    well-formed video, returns after comparing the frames of that video
    with each other only; its first frame is not reported.  [intraCount]
    is the one thing [destroy] keeps. *)
Theorem destroy_forgets_previous_video (env : Env) (video : Video) (d : SceneDetector) :
  well_formed video ->
  initialized (wasmBridge (destroy d)) = false /\
  intraCount (state (destroy d)) = intraCount (state d) /\
  exists res d',
    detect env video (destroy d) = Ok res d' /\
    analysed (wasmBridge d') =
      analysed (wasmBridge d) ++ zip (frames video) (tail (frames video)) /\
    exists cuts,
      scenes res = seed :: map scene_of cuts /\ sublist cuts (tail (frames video)).
Proof.
  intros Hwf. split; [reflexivity|]. split; [reflexivity|].
  destruct (detect_run env video (destroy d) Hwf)
    as (res & d' & Hret & _ & _ & _ & Hlog & cuts & Hs & Hsub).
  { right. split; reflexivity. }
  { intros q [=]. }
  exists res, d'. split; [exact Hret|].
  cbn [destroy state prevFrame wasmBridge WasmBridge_destroy analysed comparable] in *.
  rewrite verdict_pairs_None in Hlog. split; [exact Hlog | eauto].
Qed.

(** *** Frames with more bytes than pixels *)


End WithAnalysis.

Arguments scenes {number} _.
Arguments metadata {number} _.
Arguments frames {number} _.
Arguments wasmBridge {number} _.
Arguments analysed {number} _.

(** *** A small video *)

(** Timestamps play no part below: the sample frames carry none. *)
Definition sample_frame (w h n : Z) (bytes : list byte) : RawFrame unit :=
  {| data := bytes; width := w; height := h; stride := w; pts := tt; frameNumber := n |}.

Definition sample_metadata (w h : Z) : VideoMetadata unit :=
  {| totalFrames := 2; duration := tt; fps := tt;
     resolution := {| resWidth := w; resHeight := h |} |}.

Definition sample_env : Env :=
  {| junk := fun _ => "?"%byte; startTime := 0; endTime := 40 |}.

Definition sample_timecode (_ : unit) : string := "00:00:00.000".

(** An analysis that reports a scene change on every pair. *)
Definition always_cut (_ _ : list byte) (_ _ _ _ : Z) : Z := 1.

Definition default_options : DetectionOptions :=
  {| opt_sensitivity := None; opt_customThresholds := None; opt_searchRange := None |}.

(** Two 1x1 frames. *)
Definition steady_video : Video unit :=
  {| metadata := sample_metadata 1 1;
     frames := [sample_frame 1 1 0 ["a"%byte]; sample_frame 1 1 1 ["b"%byte]] |}.

(** A 1x1 frame followed by a 2x1 frame. *)
Definition resized_video : Video unit :=
  {| metadata := sample_metadata 1 1;
     frames := [sample_frame 1 1 0 ["a"%byte]; sample_frame 2 1 1 ["b"; "c"]%byte] |}.

(** C2, as claimed, fails: both frames of [resized_video] are valid, the
    second differs in width from the first, and detection throws. *)
Lemma resolution_change_fails :
  FrameProcessor.validateFrame (sample_frame 1 1 0 ["a"%byte]) = Returns tt /\
  FrameProcessor.validateFrame (sample_frame 2 1 1 ["b"; "c"]%byte) = Returns tt /\
  detectSceneChanges unit tt sample_timecode always_cut sample_env resized_video
    default_options = Throws FrameDimensionsMustMatch.
Proof. vm_compute. repeat split. Qed.

Lemma resolution_change_throws_witness :
  exists d',
    detect unit tt sample_timecode always_cut sample_env
      {| metadata := sample_metadata 1 1;
         frames := [] ++ sample_frame 1 1 0 ["a"%byte]
                      :: sample_frame 2 1 1 ["b"; "c"]%byte :: [] |}
      (constructor unit default_options)
    = Err FrameDimensionsMustMatch d'.
Proof.
  destruct (detect_returns unit tt sample_timecode always_cut sample_env
              {| metadata := sample_metadata 1 1;
                 frames := [] ++ [sample_frame 1 1 0 ["a"%byte]] |} default_options)
    as (res & d & Hret).
  { unfold well_formed, conforming. cbn. repeat constructor; lia. }
  destruct (resolution_change_throws unit tt sample_timecode always_cut sample_env
              (sample_metadata 1 1) default_options
              (sample_frame 1 1 0 ["a"%byte]) (sample_frame 2 1 1 ["b"; "c"]%byte)
              [] [] res d Hret) as (d' & Hthrows & _).
  - reflexivity.
  - left. cbn. lia.
  - exists d'. exact Hthrows.
Defined.

Lemma scenes_strictly_increasing_witness :
  exists res d,
    detect unit tt sample_timecode always_cut sample_env steady_video
      (constructor unit default_options) = Ok res d /\
    forall i a b, scenes res !! i = Some a -> scenes res !! S i = Some b ->
      sceneFrameNumber a < sceneFrameNumber b.
Proof.
  destruct (scenes_strictly_increasing unit tt sample_timecode always_cut sample_env
              steady_video default_options) as [Hsorted Hreturns].
  - cbn. lia.
  - destruct Hreturns as (res & d & Hret).
    + unfold well_formed, conforming. cbn. repeat constructor; lia.
    + exists res, d. split; [exact Hret|]. apply (Hsorted res d Hret).
Defined.

(** The driver on [steady_video]: frame 0 gives the seed only, frame 1 is
    compared with frame 0 and reported. *)
Example steady_video_scenes :
  exists d,
    detect unit tt sample_timecode always_cut sample_env steady_video
      (constructor unit default_options)
    = Ok {| scenes := [ {| sceneFrameNumber := 0; timestamp := tt;
                           timecode := "00:00:00.000" |};
                        {| sceneFrameNumber := 1; timestamp := tt;
                           timecode := "00:00:00.000" |} ];
            resultMetadata := sample_metadata 1 1;
            stats := {| elapsedMilliseconds := 40; processedFrameCount := 2 |} |} d.
Proof.
  destruct (detect_two_frames unit tt sample_timecode always_cut sample_env
              (sample_metadata 1 1) default_options
              (sample_frame 1 1 0 ["a"%byte]) (sample_frame 1 1 1 ["b"%byte]))
    as (pp & cp & d & Hd).
  - unfold well_formed, conforming. cbn. repeat constructor; lia.
  - exists d. exact Hd.
Qed.

Lemma steady_video_well_formed : well_formed unit steady_video.
Proof. unfold well_formed, conforming. cbn. repeat constructor; lia. Qed.

Lemma detect_accounts_for_every_frame_witness :
  exists res d,
    detect unit tt sample_timecode always_cut sample_env steady_video
      (constructor unit default_options) = Ok res d /\
    analysed (wasmBridge d) = zip (frames steady_video) (tail (frames steady_video)) /\
    processedFrameCount (stats _ res) = Z.of_nat (length (frames steady_video)).
Proof.
  destruct (detect_returns unit tt sample_timecode always_cut sample_env steady_video
              default_options steady_video_well_formed) as (res & d & Hret).
  exists res, d. split; [exact Hret|].
  destruct (detect_accounts_for_every_frame unit tt sample_timecode always_cut sample_env
              steady_video default_options res d Hret) as (Hlog & Hcount & _).
  split; [exact Hlog | exact Hcount].
Defined.

Lemma intraCount_counts_frames_since_last_scene_witness :
  exists res d s,
    detect unit tt sample_timecode always_cut sample_env steady_video
      (constructor unit default_options) = Ok res d /\
    last (scenes res) = Some s /\
    intraCount _ (state _ d)
      = Z.of_nat (length (frames steady_video)) - sceneFrameNumber s.
Proof.
  destruct (detect_returns unit tt sample_timecode always_cut sample_env steady_video
              default_options steady_video_well_formed) as (res & d & Hret).
  destruct (intraCount_counts_frames_since_last_scene unit tt sample_timecode always_cut
              sample_env steady_video default_options res d)
    as (s & Hs & Hic & _).
  - cbn. auto.
  - discriminate.
  - exact Hret.
  - exists res, d, s. auto.
Defined.

Lemma reused_detector_compares_across_videos_witness :
  exists res1 d1 res2 d2,
    detect unit tt sample_timecode always_cut sample_env steady_video
      (constructor unit default_options) = Ok res1 d1 /\
    detect unit tt sample_timecode always_cut sample_env steady_video d1 = Ok res2 d2 /\
    analysed (wasmBridge d2) =
      [(sample_frame 1 1 0 ["a"%byte], sample_frame 1 1 1 ["b"%byte]);
       (sample_frame 1 1 1 ["b"%byte], sample_frame 1 1 0 ["a"%byte]);
       (sample_frame 1 1 0 ["a"%byte], sample_frame 1 1 1 ["b"%byte])].
Proof.
  destruct (reused_detector_compares_across_videos unit tt sample_timecode always_cut
              sample_env sample_env steady_video steady_video default_options
              (sample_frame 1 1 1 ["b"%byte]) (sample_frame 1 1 0 ["a"%byte])
              [sample_frame 1 1 1 ["b"%byte]]
              steady_video_well_formed steady_video_well_formed
              eq_refl eq_refl eq_refl)
    as (res1 & d1 & res2 & d2 & H1 & H2 & Hlog & _).
  exists res1, d1, res2, d2. auto.
Defined.

Lemma destroy_forgets_previous_video_witness :
  let d := constructor unit default_options in
  exists res d',
    detect unit tt sample_timecode always_cut sample_env steady_video
      (destroy unit d) = Ok res d' /\
    analysed (wasmBridge d') =
      analysed (wasmBridge d) ++ zip (frames steady_video) (tail (frames steady_video)).
Proof.
  intros d.
  destruct (destroy_forgets_previous_video unit tt sample_timecode always_cut sample_env
              steady_video d steady_video_well_formed)
    as (_ & _ & res & d' & Hret & Hlog & _).
  exists res, d'. auto.
Defined.


End Detector.

(** ** Macroblock parameters: utils/frame-processor.ts, wasm-bridge.ts and
    wasm-interface.c compute them each on their own *)

Module MBParam.

Record MBParam := {
  width : Z;
  height : Z;
  mb_width : Z;
  mb_height : Z;
  edged_width : Z;
  edged_height : Z;
  edge_size : Z
}.

(** [Math.ceil(x / 16)]: the division by 16 is exact on floating-point
    numbers, so this is the ceiling of the quotient. *)
Definition ceil16 (x : Z) : Z := - (- x / 16).

(** frame-processor.ts *)
Definition calculateMBParam (width height : Z) : MBParam :=
  let mb_width := ceil16 width in
  let mb_height := ceil16 height in
  let edge_size := 64 in
  {| width := width; height := height;
     mb_width := mb_width; mb_height := mb_height;
     edged_width := 16 * mb_width + 2 * edge_size;
     edged_height := 16 * mb_height + 2 * edge_size;
     edge_size := edge_size |}.

Definition calculateFrameMemory (width height : Z) : Z :=
  let mbParam := calculateMBParam width height in
  edged_width mbParam * edged_height mbParam.

(** wasm-bridge.ts: [WasmBridge.getMBParam]. *)
Definition getMBParam (width height : Z) : MBParam :=
  let mb_width := ceil16 width in
  let mb_height := ceil16 height in
  let edge_size := 64 in
  {| width := width; height := height;
     mb_width := mb_width; mb_height := mb_height;
     edged_width := 16 * mb_width + 2 * edge_size;
     edged_height := 16 * mb_height + 2 * edge_size;
     edge_size := edge_size |}.

(** wasm-interface.c: the [MBParam] that [MEanalysis_js] hands to
    [MEanalysis], in [uint32_t] arithmetic. *)
Definition MEanalysis_js_param (width height : Z) : MBParam :=
  let mb_width := PadFrame.add32 width 15 / 16 in
  let mb_height := PadFrame.add32 height 15 / 16 in
  {| width := width; height := height;
     mb_width := mb_width; mb_height := mb_height;
     edged_width := PadFrame.add32 (PadFrame.mul32 16 mb_width) (2 * 64);
     edged_height := PadFrame.add32 (PadFrame.mul32 16 mb_height) (2 * 64);
     edge_size := 64 |}.

Lemma ceil16_spec x : 16 * ceil16 x - 16 < x <= 16 * ceil16 x.
Proof.
  unfold ceil16.
  pose proof (Z.div_mod (- x) 16 ltac:(lia)).
  pose proof (Z.mod_pos_bound (- x) 16 ltac:(lia)). lia.
Qed.

Lemma ceil16_nonneg x : 0 <= x -> ceil16 x = (x + 15) / 16.
Proof.
  intros Hx. pose proof (ceil16_spec x).
  pose proof (Z.div_mod (x + 15) 16 ltac:(lia)).
  pose proof (Z.mod_pos_bound (x + 15) 16 ltac:(lia)). lia.
Qed.

(** X1. The macroblock grid is the smallest grid of 16x16 blocks that covers
    the frame, and the padded plane adds 64 pixels on every side: for
    every width and height, also zero and negative ones. *)
Theorem calculateMBParam_covers (w h : Z) :
  let p := calculateMBParam w h in
  16 * mb_width p - 16 < w <= 16 * mb_width p /\
  16 * mb_height p - 16 < h <= 16 * mb_height p /\
  w + 128 <= edged_width p < w + 144 /\
  h + 128 <= edged_height p < h + 144 /\
  (16 | edged_width p) /\ (16 | edged_height p) /\
  getMBParam w h = p.
Proof.
  cbn. pose proof (ceil16_spec w). pose proof (ceil16_spec h).
  repeat split; try lia.
  - exists (ceil16 w + 8). lia.
  - exists (ceil16 h + 8). lia.
Qed.

Lemma wasm_dim (x : Z) :
  0 <= x -> 16 * ceil16 x + 2 * 64 < 2 ^ 32 ->
  PadFrame.add32 x 15 / 16 = ceil16 x /\
  PadFrame.add32 (PadFrame.mul32 16 (PadFrame.add32 x 15 / 16)) (2 * 64)
    = 16 * ceil16 x + 2 * 64.
Proof.
  intros Hx. rewrite ceil16_nonneg by assumption. intros Hfit.
  pose proof (Z.div_mod (x + 15) 16 ltac:(lia)).
  pose proof (Z.mod_pos_bound (x + 15) 16 ltac:(lia)).
  rewrite (PadFrame.add32_small x 15) by lia.
  rewrite (PadFrame.mul32_small 16) by lia.
  rewrite PadFrame.add32_small by lia. split; reflexivity.
Qed.

Lemma ceil16_pos (x : Z) : 0 <= x -> 0 <= ceil16 x.
Proof. intros Hx. pose proof (ceil16_spec x). lia. Qed.

(** X2. On every frame size whose padded plane fits 32 bits, the parameters
    computed in JavaScript are those the C side computes, and
    [calculateFrameMemory] is the size [calculate_padded_size] reports and
    [allocateBuffers] allocates. *)
Theorem calculateMBParam_agrees_with_wasm (w h : Z) :
  0 <= w -> 0 <= h ->
  edged_width (calculateMBParam w h) * edged_height (calculateMBParam w h) < 2 ^ 32 ->
  calculateMBParam w h = MEanalysis_js_param w h /\
  calculateFrameMemory w h = PadFrame.calculate_padded_size w h.
Proof.
  intros Hw Hh. unfold calculateFrameMemory, calculateMBParam. cbn. intros Hfit.
  pose proof (ceil16_pos w Hw) as Ha. pose proof (ceil16_pos h Hh) as Hb.
  destruct (wasm_dim w Hw) as [Hmw Hew]; [nia|].
  destruct (wasm_dim h Hh) as [Hmh Heh]; [nia|].
  unfold MEanalysis_js_param, PadFrame.calculate_padded_size, PadFrame.mb_count,
    PadFrame.edged.
  rewrite Hew, Heh, Hmw, Hmh.
  rewrite PadFrame.mul32_small by lia. split; reflexivity.
Qed.

Lemma calculateMBParam_agrees_with_wasm_witness :
  calculateMBParam 1920 1080 = MEanalysis_js_param 1920 1080 /\
  calculateFrameMemory 1920 1080 = PadFrame.calculate_padded_size 1920 1080.
Proof.
  apply calculateMBParam_agrees_with_wasm; [lia | lia | vm_compute; reflexivity].
Defined.

End MBParam.

(** ** Frames that pass [validateFrame], seen from the WASM side *)

Module ValidatedFrame.

Lemma edged_bounds x :
  1 <= x <= 8192 -> x + 128 <= 16 * MBParam.ceil16 x + 2 * 64 <= 8320.
Proof. intros Hx. pose proof (MBParam.ceil16_spec x). lia. Qed.

(** X3. A frame that [validateFrame] accepts is within the range on which
    JavaScript and C compute the same macroblock parameters: its padded
    plane has at most 8320 x 8320 bytes, far below 32 bits, the size
    [calculateFrameMemory] gives is the size [calculate_padded_size]
    gives, and the plane is larger than the frame it is made from. *)
Theorem validated_frame_sizes_agree {number} (frame : RawFrame number) :
  FrameProcessor.validateFrame frame = Returns tt ->
  MBParam.calculateMBParam (width frame) (height frame)
    = MBParam.MEanalysis_js_param (width frame) (height frame) /\
  MBParam.calculateFrameMemory (width frame) (height frame)
    = PadFrame.calculate_padded_size (width frame) (height frame) /\
  width frame * height frame
    < MBParam.calculateFrameMemory (width frame) (height frame) <= 8320 * 8320.
Proof.
  intros Hv. apply FrameProcessor.validateFrame_valid in Hv as (_ & Hw & Hh).
  pose proof (edged_bounds _ Hw) as Hew. pose proof (edged_bounds _ Hh) as Heh.
  assert (Hsize : width frame * height frame
            < MBParam.calculateFrameMemory (width frame) (height frame) <= 8320 * 8320).
  { unfold MBParam.calculateFrameMemory. cbn.
    set (ew := 16 * MBParam.ceil16 (width frame) + 2 * 64) in *.
    set (eh := 16 * MBParam.ceil16 (height frame) + 2 * 64) in *.
    split; nia. }
  unfold MBParam.calculateFrameMemory, MBParam.calculateMBParam in *.
  cbn [MBParam.edged_width MBParam.edged_height] in *.
  destruct (MBParam.wasm_dim (width frame)) as [Hmw Hmew]; [lia | lia |].
  destruct (MBParam.wasm_dim (height frame)) as [Hmh Hmeh]; [lia | lia |].
  unfold MBParam.MEanalysis_js_param, PadFrame.calculate_padded_size, PadFrame.mb_count,
    PadFrame.edged.
  rewrite Hmew, Hmeh, Hmw, Hmh.
  rewrite PadFrame.mul32_small by lia. auto.
Qed.

Lemma validated_frame_sizes_agree_witness :
  let frame : RawFrame unit :=
    {| data := [x00; x00]; width := 2; height := 1; stride := 2; pts := tt;
       frameNumber := 0 |} in
  MBParam.calculateMBParam 2 1 = MBParam.MEanalysis_js_param 2 1 /\
  MBParam.calculateFrameMemory 2 1 = PadFrame.calculate_padded_size 2 1 /\
  2 * 1 < MBParam.calculateFrameMemory 2 1 <= 8320 * 8320.
Proof.
  intros frame. apply (validated_frame_sizes_agree frame). reflexivity.
Defined.

End ValidatedFrame.

(** ** decoder/frame-buffer.ts: [FrameBuffer] *)

Module FrameBuffer.

Inductive error :=
| RangeError_invalid_array_length (maxFrames : Z)
| NaN_currentIndex.

Section WithFrames.

(** The class reads one field of a frame, [data], a [Uint8Array] of the
    store of [BufferPool]; frames are otherwise arbitrary. *)
Variable RawFrame : Type.
Variable data : RawFrame -> BufferPool.ref.

(** A slot of [frames] holds [null] ([None]) or a frame. *)
Record FrameBuffer := {
  bufferPool : BufferPool.BufferPool;
  frames : list (option RawFrame);
  maxFrames : Z;
  currentIndex : Z
}.

(** [new Array(maxFrames)] throws on a negative length and on one above
    [2^32 - 1]; the default pool is [new BufferPool()], of [maxPoolSize] 4. *)
Definition constructor (maxFrames : Z) (bufferPool : option BufferPool.BufferPool)
    : outcome error FrameBuffer :=
  if (maxFrames <? 0) || (2 ^ 32 - 1 <? maxFrames) then
    Throws (RangeError_invalid_array_length maxFrames)
  else
    Returns {| bufferPool := default (BufferPool.constructor 4) bufferPool;
               frames := replicate (Z.to_nat maxFrames) None;
               maxFrames := maxFrames;
               currentIndex := 0 |}.

(** [frames[index]]; [currentIndex] is an index of [frames] whenever
    [maxFrames] is not zero ([push_spec]), so that the array is never read
    or written out of range.  With [maxFrames = 0] the first [push] makes
    [currentIndex] the number [NaN], which the integers of this model lack:
    [push] stops there with [NaN_currentIndex]. *)
Definition at_index (frames : list (option RawFrame)) (index : Z) : option RawFrame :=
  mjoin (frames !! Z.to_nat index).

Definition push (frame : RawFrame) (fb : FrameBuffer) (h : BufferPool.store)
    : outcome error (option RawFrame * FrameBuffer) :=
  if maxFrames fb =? 0 then Throws NaN_currentIndex
  else
    let evictedFrame := at_index (frames fb) (currentIndex fb) in
    let bufferPool' :=
      match evictedFrame with
      | Some evicted => BufferPool.release (data evicted) (bufferPool fb) h
      | None => bufferPool fb
      end in
    Returns (evictedFrame,
             {| bufferPool := bufferPool';
                frames := <[Z.to_nat (currentIndex fb) := Some frame]> (frames fb);
                maxFrames := maxFrames fb;
                currentIndex := Z.rem (currentIndex fb + 1) (maxFrames fb) |}).

Definition get (offset : Z) (fb : FrameBuffer) : option RawFrame :=
  if (offset <? 0) || (maxFrames fb <=? offset) then None
  else
    let index := Z.rem (currentIndex fb - 1 - offset + maxFrames fb) (maxFrames fb) in
    at_index (frames fb) index.

Definition getCurrent (fb : FrameBuffer) : option RawFrame := get 0 fb.

Definition getPrevious (fb : FrameBuffer) : option RawFrame := get 1 fb.

Definition getCurrentAndPrevious (fb : FrameBuffer) : option (RawFrame * RawFrame) :=
  let current := getCurrent fb in
  let previous := getPrevious fb in
  match current, previous with
  | Some current, Some previous => Some (current, previous)
  | _, _ => None
  end.

Definition allocateBuffer (size : Z) (fb : FrameBuffer) (h : BufferPool.store)
    : outcome BufferPool.error (BufferPool.ref * FrameBuffer * BufferPool.store) :=
  match BufferPool.acquire size (bufferPool fb) h with
  | Returns (buffer, bufferPool', h') =>
      Returns (buffer,
               {| bufferPool := bufferPool'; frames := frames fb;
                  maxFrames := maxFrames fb; currentIndex := currentIndex fb |},
               h')
  | Throws e => Throws e
  end.

Definition clear (fb : FrameBuffer) (h : BufferPool.store) : FrameBuffer :=
  let bufferPool' :=
    foldl (fun bp frame =>
             match frame with
             | Some frame => BufferPool.release (data frame) bp h
             | None => bp
             end) (bufferPool fb) (frames fb) in
  {| bufferPool := bufferPool';
     frames := replicate (Z.to_nat (maxFrames fb)) None;
     maxFrames := maxFrames fb;
     currentIndex := 0 |}.

Definition size (fb : FrameBuffer) : Z :=
  Z.of_nat (length (filter is_Some (frames fb))).

Definition isFull (fb : FrameBuffer) : bool := size fb =? maxFrames fb.

Record Stats := {
  stats_maxFrames : Z;
  currentFrames : Z;
  bufferPoolStats : list BufferPool.Stat;
  totalPoolMemory : Z
}.

Definition getStats (fb : FrameBuffer) : Stats :=
  {| stats_maxFrames := maxFrames fb;
     currentFrames := size fb;
     bufferPoolStats := BufferPool.getStats (bufferPool fb);
     totalPoolMemory := BufferPool.getTotalMemory (bufferPool fb) |}.

(** Frames pushed one after the other, each in the store of its time;
    the result collects what the calls return. *)
Fixpoint pushes (fs : list (RawFrame * BufferPool.store)) (fb : FrameBuffer)
    : outcome error (list (option RawFrame) * FrameBuffer) :=
  match fs with
  | [] => Returns ([], fb)
  | (frame, h) :: fs' =>
      match push frame fb h with
      | Returns (evicted, fb') =>
          match pushes fs' fb' with
          | Returns (rest, fb'') => Returns (evicted :: rest, fb'')
          | Throws e => Throws e
          end
      | Throws e => Throws e
      end
  end.

(** *** The window a frame buffer stands for *)

(** Slot of the frame pushed [offset] pushes before the latest one. *)
Definition slot (n c offset : Z) : Z :=
  if offset <? c then c - 1 - offset else c - 1 - offset + n.

(** [fs] are the frames pushed so far, oldest first. *)
Definition inv (n : Z) (fs : list RawFrame) (fb : FrameBuffer) : Prop :=
  maxFrames fb = n /\
  length (frames fb) = Z.to_nat n /\
  0 <= currentIndex fb < n /\
  (forall offset, 0 <= offset < n ->
     at_index (frames fb) (slot n (currentIndex fb) offset) = reverse fs !! Z.to_nat offset) /\
  size fb = Z.min (Z.of_nat (length fs)) n.

Lemma rem_slot n c offset :
  0 <= c < n -> 0 <= offset < n ->
  Z.rem (c - 1 - offset + n) n = slot n c offset.
Proof.
  intros Hc Ho. rewrite Z.rem_mod_nonneg by lia. unfold slot.
  destruct (Z.ltb_spec offset c).
  - symmetry. apply (Z.mod_unique_pos _ _ 1); lia.
  - symmetry. apply (Z.mod_unique_pos _ _ 0); lia.
Qed.

Lemma rem_next n c :
  0 <= c < n -> Z.rem (c + 1) n = if c + 1 =? n then 0 else c + 1.
Proof.
  intros Hc. rewrite Z.rem_mod_nonneg by lia.
  destruct (Z.eqb_spec (c + 1) n).
  - symmetry. apply (Z.mod_unique_pos _ _ 1); lia.
  - apply Z.mod_small. lia.
Qed.

Lemma count_insert (l : list (option RawFrame)) (i : nat) (x : RawFrame) :
  (i < length l)%nat ->
  length (filter is_Some (<[i := Some x]> l)) =
  (length (filter is_Some l) +
   match at_index l (Z.of_nat i) with Some _ => 0 | None => 1 end)%nat.
Proof.
  intros Hi. unfold at_index. rewrite Nat2Z.id. destruct (l !! i) as [y|] eqn:Hy.
  2:{ apply lookup_ge_None in Hy. lia. }
  rewrite insert_take_drop by exact Hi.
  rewrite <- (take_drop_middle l i y Hy) at 3.
  rewrite !filter_app, !filter_cons, !length_app.
  rewrite (decide_True (P := is_Some (Some x))) by eauto.
  destruct y as [y|]; cbn [mjoin option_join].
  - rewrite (decide_True (P := is_Some (Some y))) by eauto. cbn. lia.
  - rewrite (decide_False (P := is_Some None)) by (intros [? ?]; discriminate). cbn. lia.
Qed.

Lemma empty_inv (fb : FrameBuffer) :
  0 < maxFrames fb -> frames fb = replicate (Z.to_nat (maxFrames fb)) None ->
  currentIndex fb = 0 -> inv (maxFrames fb) [] fb.
Proof.
  intros Hn Hfr Hc. unfold inv, size. rewrite Hfr, Hc, length_replicate.
  split; [reflexivity|]. split; [reflexivity|]. split; [lia|]. split.
  - intros offset Ho. unfold at_index.
    destruct (replicate (Z.to_nat (maxFrames fb)) None
                !! Z.to_nat (slot (maxFrames fb) 0 offset)) as [y|] eqn:Hy;
      [|reflexivity].
    apply lookup_replicate in Hy as [-> _]. reflexivity.
  - replace (filter is_Some (replicate (Z.to_nat (maxFrames fb)) (@None RawFrame)))
      with (@nil (option RawFrame)); [cbn; lia|].
    clear. induction (Z.to_nat (maxFrames fb)) as [|k IH]; [reflexivity|].
    cbn [replicate]. rewrite filter_cons, <- IH.
    rewrite (decide_False (P := is_Some None)) by (intros [? ?]; discriminate). reflexivity.
Qed.

Lemma new_buffer_inv n pool fb :
  constructor n pool = Returns fb ->
  0 < n -> inv n [] fb /\ bufferPool fb = default (BufferPool.constructor 4) pool.
Proof.
  unfold constructor. intros Hnew Hn.
  destruct ((n <? 0) || (2 ^ 32 - 1 <? n)); [discriminate|].
  injection Hnew as <-. split; [|reflexivity].
  apply (empty_inv {| bufferPool := default (BufferPool.constructor 4) pool;
                      frames := replicate (Z.to_nat n) None;
                      maxFrames := n; currentIndex := 0 |}); [exact Hn | reflexivity..].
Qed.

Lemma push_spec n fs frame fb h :
  inv n fs fb ->
  exists fb',
    push frame fb h = Returns (reverse fs !! Z.to_nat (n - 1), fb') /\
    inv n (fs ++ [frame]) fb' /\
    bufferPool fb' =
      match reverse fs !! Z.to_nat (n - 1) with
      | Some evicted => BufferPool.release (data evicted) (bufferPool fb) h
      | None => bufferPool fb
      end.
Proof.
  intros (Hmax & Hlen & Hc & Hwin & Hsize).
  assert (Hev : at_index (frames fb) (currentIndex fb) = reverse fs !! Z.to_nat (n - 1)).
  { rewrite <- (Hwin (n - 1)) by lia. f_equal. unfold slot.
    destruct (Z.ltb_spec (n - 1) (currentIndex fb)); lia. }
  unfold push. rewrite Hmax. destruct (Z.eqb_spec n 0); [lia|].
  rewrite Hev. eexists. split; [reflexivity|]. split; [|reflexivity].
  unfold inv; cbn [maxFrames frames currentIndex].
  rewrite length_insert, rem_next by lia.
  split; [reflexivity|]. split; [exact Hlen|]. split.
  { destruct (Z.eqb_spec (currentIndex fb + 1) n); lia. }
  split.
  - intros offset Ho. rewrite reverse_snoc.
    unfold at_index.
    destruct (decide (offset = 0)) as [->|Hpos].
    + replace (slot n _ 0) with (currentIndex fb)
        by (unfold slot; destruct (Z.eqb_spec (currentIndex fb + 1) n); cases_Z; lia).
      rewrite list_lookup_insert_eq by lia. reflexivity.
    + replace (slot n _ offset) with (slot n (currentIndex fb) (offset - 1))
        by (unfold slot; destruct (Z.eqb_spec (currentIndex fb + 1) n); cases_Z; lia).
      rewrite list_lookup_insert_ne.
      * specialize (Hwin (offset - 1) ltac:(lia)). unfold at_index in Hwin.
        rewrite Hwin. replace (Z.to_nat offset) with (S (Z.to_nat (offset - 1))) by lia.
        reflexivity.
      * unfold slot. cases_Z; lia.
  - unfold size in *. cbn [frames].
    rewrite count_insert by lia. rewrite Z2Nat.id by lia.
    rewrite Hev, length_app. cbn [length].
    destruct (reverse fs !! Z.to_nat (n - 1)) as [y|] eqn:Hy.
    + apply lookup_lt_Some in Hy. rewrite length_reverse in Hy. lia.
    + apply lookup_ge_None in Hy. rewrite length_reverse in Hy. lia.
Qed.

Lemma pushes_spec n gs : forall fs fb,
  inv n fs fb ->
  exists evicted fb',
    pushes gs fb = Returns (evicted, fb') /\
    inv n (fs ++ map fst gs) fb' /\
    length evicted = length gs /\
    forall k, (k < length gs)%nat ->
      evicted !! k = Some (reverse (fs ++ take k (map fst gs)) !! Z.to_nat (n - 1)).
Proof.
  induction gs as [|[g h] gs IH]; intros fs fb Hinv; cbn [pushes map fst].
  - exists [], fb. rewrite app_nil_r. split; [reflexivity|]. split; [exact Hinv|].
    split; [reflexivity|]. intros k Hk. cbn in Hk. lia.
  - destruct (push_spec n fs g fb h Hinv) as (fb1 & -> & Hinv1 & _).
    destruct (IH (fs ++ [g]) fb1 Hinv1) as (evs & fb' & -> & Hinv' & Hlen & Hevs).
    eexists _, fb'. split; [reflexivity|]. rewrite <- app_assoc in Hinv'.
    split; [exact Hinv'|]. split; [cbn; congruence|].
    intros [|k] Hk.
    + cbn [take]. rewrite app_nil_r. reflexivity.
    + cbn in Hk. rewrite lookup_cons.
      rewrite (Hevs k) by lia. cbn [take]. rewrite <- app_assoc. reflexivity.
Qed.

Lemma get_spec n fs fb offset :
  inv n fs fb ->
  get offset fb =
    if (0 <=? offset) && (offset <? n) then reverse fs !! Z.to_nat offset else None.
Proof.
  intros (Hmax & Hlen & Hc & Hwin & Hsize). unfold get. rewrite Hmax.
  destruct (Z.ltb_spec offset 0), (Z.leb_spec n offset), (Z.leb_spec 0 offset),
    (Z.ltb_spec offset n); cbn [orb andb]; try lia; try reflexivity.
  rewrite rem_slot by lia. apply Hwin. lia.
Qed.

(** X14. The frames a new buffer of [1 <= maxFrames] holds after some pushes
    are the last [maxFrames] frames pushed: [get offset] is the frame
    pushed [offset] pushes before the latest, and [null] when [offset] is
    negative, at least [maxFrames], or reaches before the first push. *)
Theorem get_is_sliding_window (n : Z) (pool : option BufferPool.BufferPool)
    (fb : FrameBuffer) (fs : list (RawFrame * BufferPool.store)) :
  constructor n pool = Returns fb -> 1 <= n ->
  exists evicted fb',
    pushes fs fb = Returns (evicted, fb') /\
    forall offset,
      get offset fb' =
        if (0 <=? offset) && (offset <? n)
        then reverse (map fst fs) !! Z.to_nat offset else None.
Proof.
  intros Hnew Hn. apply new_buffer_inv in Hnew as [Hinv _]; [|lia].
  destruct (pushes_spec n fs [] fb Hinv) as (evs & fb' & Hrun & Hinv' & _).
  exists evs, fb'. split; [exact Hrun|].
  intros offset. exact (get_spec n _ fb' offset Hinv').
Qed.

(** X15. [push] returns [null] for the first [maxFrames] pushes into a new
    buffer and from then on the frame pushed [maxFrames] pushes earlier:
    frames leave in the order they came. *)
Theorem push_evicts_oldest (n : Z) (pool : option BufferPool.BufferPool)
    (fb : FrameBuffer) (fs : list (RawFrame * BufferPool.store)) (k : nat) :
  constructor n pool = Returns fb -> 1 <= n -> (k < length fs)%nat ->
  exists evicted fb',
    pushes fs fb = Returns (evicted, fb') /\
    evicted !! k =
      Some (if Z.of_nat k <? n then None else map fst fs !! (k - Z.to_nat n)%nat).
Proof.
  intros Hnew Hn Hk. apply new_buffer_inv in Hnew as [Hinv _]; [|lia].
  destruct (pushes_spec n fs [] fb Hinv) as (evs & fb' & Hrun & _ & _ & Hevs).
  exists evs, fb'. split; [exact Hrun|].
  rewrite (Hevs k Hk). cbn [app]. f_equal.
  assert (Hlen : length (take k (map fst fs)) = k).
  { rewrite length_take, length_map. lia. }
  destruct (Z.ltb_spec (Z.of_nat k) n).
  - apply lookup_ge_None. rewrite length_reverse. lia.
  - rewrite reverse_lookup by lia. rewrite Hlen.
    rewrite lookup_take_lt by lia. f_equal. lia.
Qed.

(** X16. [size] counts the pushes up to [maxFrames], and [isFull] holds from
    the push number [maxFrames] on. *)
Theorem size_counts_pushes (n : Z) (pool : option BufferPool.BufferPool)
    (fb : FrameBuffer) (fs : list (RawFrame * BufferPool.store)) :
  constructor n pool = Returns fb -> 1 <= n ->
  exists evicted fb',
    pushes fs fb = Returns (evicted, fb') /\
    size fb' = Z.min (Z.of_nat (length fs)) n /\
    isFull fb' = (n <=? Z.of_nat (length fs)).
Proof.
  intros Hnew Hn. apply new_buffer_inv in Hnew as [Hinv _]; [|lia].
  destruct (pushes_spec n fs [] fb Hinv) as (evs & fb' & Hrun & Hinv' & _).
  exists evs, fb'. split; [exact Hrun|].
  destruct Hinv' as (Hmax & _ & _ & _ & Hsize). cbn [app] in Hsize.
  rewrite length_map in Hsize. split; [exact Hsize|].
  unfold isFull. rewrite Hsize, Hmax. cases_Z; lia.
Qed.

(** X17. [getCurrentAndPrevious] is the pair of the last two frames pushed,
    latest first, once two frames were pushed into a buffer of
    [2 <= maxFrames]; it is [null] before that, and always [null] for a
    buffer of one frame. *)
Theorem getCurrentAndPrevious_last_two (n : Z) (pool : option BufferPool.BufferPool)
    (fb : FrameBuffer) (fs : list (RawFrame * BufferPool.store)) :
  constructor n pool = Returns fb -> 1 <= n ->
  exists evicted fb',
    pushes fs fb = Returns (evicted, fb') /\
    getCurrentAndPrevious fb' =
      match reverse (map fst fs) with
      | current :: previous :: _ =>
          if 2 <=? n then Some (current, previous) else None
      | _ => None
      end.
Proof.
  intros Hnew Hn. apply new_buffer_inv in Hnew as [Hinv _]; [|lia].
  destruct (pushes_spec n fs [] fb Hinv) as (evs & fb' & Hrun & Hinv' & _).
  exists evs, fb'. split; [exact Hrun|]. cbn [app] in Hinv'.
  unfold getCurrentAndPrevious, getCurrent, getPrevious.
  rewrite !(get_spec n _ fb' _ Hinv').
  destruct (Z.leb_spec 2 n); cases_Z; try lia;
    destruct (reverse (map fst fs)) as [|a [|b l]]; reflexivity.
Qed.

(** X18. [push] hands the evicted frame to its caller and at the same time
    files that frame's [data] in the pool: when the pool has room, the
    next [allocateBuffer] of that length returns the very array the
    evicted frame still refers to, filled with zeros. *)
Theorem evicted_frame_shares_buffer (frame evicted : RawFrame) (fb fb' : FrameBuffer)
    (h : BufferPool.store) (d : list byte) :
  let n := Z.of_nat (length d) in
  push frame fb h = Returns (Some evicted, fb') ->
  h !! data evicted = Some d ->
  Z.of_nat (length (default [] (BufferPool.pool (bufferPool fb) !! n)))
    < BufferPool.maxPoolSize (bufferPool fb) ->
  exists fb'',
    allocateBuffer n fb' h =
      Returns (data evicted, fb'', <[data evicted := replicate (length d) x00]> h) /\
    frames fb'' = frames fb'.
Proof.
  intros n Hpush Hd Hroom. unfold push in Hpush.
  destruct (maxFrames fb =? 0); [discriminate|].
  injection Hpush as Hev <-. rewrite Hev. unfold allocateBuffer. cbn [bufferPool].
  rewrite (BufferPool.release_room _ _ h d Hd Hroom).
  erewrite (BufferPool.acquire_pooled n _ h _ (data evicted) d);
    [|apply lookup_insert_eq | exact Hd].
  eexists. split; reflexivity.
Qed.

(** X19. [clear] empties the buffer and leaves it ready for use: nothing is
    held any more, and frames pushed afterwards fill the window as they
    fill that of a new buffer. *)
Theorem clear_starts_over (n : Z) (pool : option BufferPool.BufferPool)
    (fb fb1 : FrameBuffer) (before after : list (RawFrame * BufferPool.store))
    (evicted1 : list (option RawFrame)) (h : BufferPool.store) :
  constructor n pool = Returns fb -> 1 <= n ->
  pushes before fb = Returns (evicted1, fb1) ->
  size (clear fb1 h) = 0 /\
  (forall offset, get offset (clear fb1 h) = None) /\
  exists evicted2 fb2,
    pushes after (clear fb1 h) = Returns (evicted2, fb2) /\
    forall offset,
      get offset fb2 =
        if (0 <=? offset) && (offset <? n)
        then reverse (map fst after) !! Z.to_nat offset else None.
Proof.
  intros Hnew Hn Hrun1. apply new_buffer_inv in Hnew as [Hinv _]; [|lia].
  destruct (pushes_spec n before [] fb Hinv) as (evs & fb' & Hrun & (Hmax & _) & _).
  rewrite Hrun1 in Hrun. injection Hrun as <- <-.
  assert (Hinv0 : inv n [] (clear fb1 h)).
  { rewrite <- Hmax. apply (empty_inv (clear fb1 h)); cbn; [lia | reflexivity..]. }
  split; [|split].
  - destruct Hinv0 as (_ & _ & _ & _ & Hsize). rewrite Hsize. cbn. lia.
  - intros offset. rewrite (get_spec n [] _ offset Hinv0).
    destruct ((0 <=? offset) && (offset <? n)); reflexivity.
  - destruct (pushes_spec n after [] _ Hinv0) as (evs2 & fb2 & Hrun2 & Hinv2 & _).
    exists evs2, fb2. split; [exact Hrun2|].
    intros offset. exact (get_spec n _ fb2 offset Hinv2).
Qed.

End WithFrames.

Arguments bufferPool {RawFrame} _.
Arguments frames {RawFrame} _.
Arguments maxFrames {RawFrame} _.
Arguments currentIndex {RawFrame} _.
Arguments push {RawFrame} data frame fb h.
Arguments pushes {RawFrame} data fs fb.
Arguments get {RawFrame} offset fb.
Arguments getCurrentAndPrevious {RawFrame} fb.
Arguments allocateBuffer {RawFrame} size fb h.
Arguments clear {RawFrame} data fb h.
Arguments size {RawFrame} fb.
Arguments isFull {RawFrame} fb.

(** Sample frames: a [data] array and a frame number. *)
Definition sample_store : BufferPool.store :=
  {[ 1%positive := ["a"; "b"]%byte; 2%positive := ["c"; "d"]%byte;
     3%positive := ["e"; "f"]%byte ]}.

Definition sample_frames : list ((BufferPool.ref * Z) * BufferPool.store) :=
  [((1%positive, 0), sample_store); ((2%positive, 1), sample_store);
   ((3%positive, 2), sample_store)].

Lemma get_is_sliding_window_witness :
  exists evicted fb',
    pushes fst sample_frames
      {| bufferPool := BufferPool.constructor 4; frames := [None; None];
         maxFrames := 2; currentIndex := 0 |} = Returns (evicted, fb') /\
    forall offset,
      get offset fb' =
        if (0 <=? offset) && (offset <? 2)
        then reverse (map fst sample_frames) !! Z.to_nat offset else None.
Proof.
  apply (get_is_sliding_window (BufferPool.ref * Z) fst 2 None); [reflexivity | lia].
Defined.

Lemma push_evicts_oldest_witness :
  exists evicted fb',
    pushes fst sample_frames
      {| bufferPool := BufferPool.constructor 4; frames := [None; None];
         maxFrames := 2; currentIndex := 0 |} = Returns (evicted, fb') /\
    evicted !! 2%nat =
      Some (if Z.of_nat 2 <? 2 then None
            else map fst sample_frames !! (2 - Z.to_nat 2)%nat).
Proof.
  apply (push_evicts_oldest (BufferPool.ref * Z) fst 2 None);
    [reflexivity | lia | cbn; lia].
Defined.

Lemma size_counts_pushes_witness :
  exists evicted fb',
    pushes fst sample_frames
      {| bufferPool := BufferPool.constructor 4; frames := [None; None];
         maxFrames := 2; currentIndex := 0 |} = Returns (evicted, fb') /\
    size fb' = Z.min (Z.of_nat (length sample_frames)) 2 /\
    isFull fb' = (2 <=? Z.of_nat (length sample_frames)).
Proof.
  apply (size_counts_pushes (BufferPool.ref * Z) fst 2 None); [reflexivity | lia].
Defined.

Lemma getCurrentAndPrevious_last_two_witness :
  exists evicted fb',
    pushes fst sample_frames
      {| bufferPool := BufferPool.constructor 4; frames := [None; None];
         maxFrames := 2; currentIndex := 0 |} = Returns (evicted, fb') /\
    getCurrentAndPrevious fb' =
      match reverse (map fst sample_frames) with
      | current :: previous :: _ =>
          if 2 <=? 2 then Some (current, previous) else None
      | _ => None
      end.
Proof.
  apply (getCurrentAndPrevious_last_two (BufferPool.ref * Z) fst 2 None);
    [reflexivity | lia].
Defined.

Lemma evicted_frame_shares_buffer_witness :
  let fb := {| bufferPool := BufferPool.constructor 4;
               frames := [Some (1%positive, 0)]; maxFrames := 1; currentIndex := 0 |} in
  let fb' := {| bufferPool := BufferPool.release 1%positive (BufferPool.constructor 4)
                                sample_store;
                frames := [Some (2%positive, 1)]; maxFrames := 1; currentIndex := 0 |} in
  exists fb'',
    allocateBuffer (Z.of_nat (length ["a"; "b"]%byte)) fb' sample_store =
      Returns (1%positive, fb'',
               <[1%positive := replicate (length ["a"; "b"]%byte) x00]> sample_store) /\
    frames fb'' = frames fb'.
Proof.
  intros fb fb'.
  apply (evicted_frame_shares_buffer (BufferPool.ref * Z) fst (2%positive, 1)
           (1%positive, 0) fb fb' sample_store ["a"; "b"]%byte);
    [reflexivity | reflexivity | vm_compute; reflexivity].
Defined.

Lemma clear_starts_over_witness :
  let fb1 := {| bufferPool := BufferPool.constructor 4;
                frames := [Some (1%positive, 0); None]; maxFrames := 2;
                currentIndex := 1 |} in
  size (clear fst fb1 sample_store) = 0 /\
  (forall offset, get offset (clear fst fb1 sample_store) = None) /\
  exists evicted2 fb2,
    pushes fst sample_frames (clear fst fb1 sample_store) = Returns (evicted2, fb2) /\
    forall offset,
      get offset fb2 =
        if (0 <=? offset) && (offset <? 2)
        then reverse (map fst sample_frames) !! Z.to_nat offset else None.
Proof.
  intros fb1.
  apply (clear_starts_over (BufferPool.ref * Z) fst 2 None
           {| bufferPool := BufferPool.constructor 4; frames := [None; None];
              maxFrames := 2; currentIndex := 0 |}
           fb1 [((1%positive, 0), sample_store)] sample_frames [None] sample_store);
    [reflexivity | lia | reflexivity].
Defined.

End FrameBuffer.

(** ** decoder/ffmpeg-decoder.ts: [FFmpegDecoder.extractFrames] *)

Module FFmpegDecoder.

Section WithFrames.

Variable number : Type.

(** [frameNumber / metadata.fps]. *)
Variable divide : Z -> number -> number.

(** The state of the frame callback, and the callbacks. *)
Variable St : Type.
Variable onFrame : RawFrame number -> Detector.M St unit.

(** [onProgress] is user code; it is taken to return. *)
Variable onProgress : option (Z -> Z -> St -> St).

Abbreviation RawFrame := (RawFrame number).
Abbreviation VideoMetadata := (VideoMetadata number).

(** The option [extractFrames] reads. *)
Record DecoderOptions := {
  skipFrames : Z
}.

Variable junk : nat -> byte.
Variable metadata : VideoMetadata.
Variable options : DecoderOptions.

(** How a call of the ['data'] handler ends.  The handler is an [async]
    function that awaits the frame callback; each call is taken to run to
    its end before the stream delivers the next chunk. *)
Inductive handled :=
| Handled (ringBuffer : RingBuffer.RingBuffer) (frameNumber : Z) (st : St)
| Destroyed (e : Detector.error) (st : St)
| Unhandled (e : RingBuffer.error) (st : St)
| OutOfFuel.

(** The [while] loop of the handler; [fuel] bounds the number of times its
    condition is tested. *)
Fixpoint process_frames (fuel : nat) (ringBuffer : RingBuffer.RingBuffer)
    (frameNumber : Z) (st : St) : handled :=
  match fuel with
  | O => OutOfFuel
  | S fuel =>
      let width := resWidth (resolution metadata) in
      let height := resHeight (resolution metadata) in
      let frameSize := width * height in
      if RingBuffer.available ringBuffer <? frameSize then
        Handled ringBuffer frameNumber st
      else
        match RingBuffer.read junk frameSize ringBuffer with
        | (Throws e, _) => Unhandled e st
        | (Returns frameData, ringBuffer) =>
            if (0 <? skipFrames options)
               && negb (Z.rem frameNumber (skipFrames options + 1) =? 0)
            then process_frames fuel ringBuffer (frameNumber + 1) st
            else
              let frame :=
                {| data := frameData; width := width; height := height;
                   stride := width; pts := divide frameNumber (fps metadata);
                   frameNumber := frameNumber |} in
              match onFrame frame st with
              | Detector.Err err st => Destroyed err st
              | Detector.Ok _ st =>
                  let st :=
                    match onProgress with
                    | Some onProgress =>
                        if Z.rem frameNumber 30 =? 0
                        then onProgress frameNumber (totalFrames metadata) st
                        else st
                    | None => st
                    end in
                  process_frames fuel ringBuffer (frameNumber + 1) st
              end
        end
  end.

(** The ['data'] handler. *)
Definition on_data (fuel : nat) (chunk : list byte) (ringBuffer : RingBuffer.RingBuffer)
    (frameNumber : Z) (st : St) : handled :=
  match RingBuffer.write chunk ringBuffer with
  | (Throws e, _) => Unhandled e st
  | (Returns _, ringBuffer) => process_frames fuel ringBuffer frameNumber st
  end.

(** How the promise of [extractFrames] ends: resolved at the ['end'] of
    the stream, rejected with the error of the frame callback, or never
    settled, because the handler threw outside its [try] or does not
    return.  The stream is taken to deliver its chunks and end; its
    ['error'] events are not modelled. *)
Inductive ending :=
| Resolved (st : St)
| Rejected (e : Detector.error) (st : St)
| Crashed (e : RingBuffer.error) (st : St)
| Diverged.

Fixpoint stream (fuel : nat) (chunks : list (list byte))
    (ringBuffer : RingBuffer.RingBuffer) (frameNumber : Z) (st : St) : ending :=
  match chunks with
  | [] => Resolved st
  | chunk :: chunks =>
      match on_data fuel chunk ringBuffer frameNumber st with
      | Handled ringBuffer frameNumber st => stream fuel chunks ringBuffer frameNumber st
      | Destroyed e st => Rejected e st
      | Unhandled e st => Crashed e st
      | OutOfFuel => Diverged
      end
  end.

Definition extractFrames (fuel : nat) (chunks : list (list byte)) (st : St) : ending :=
  match RingBuffer.constructor junk (8 * 1024 * 1024) with
  | Returns ringBuffer => stream fuel chunks ringBuffer 0 st
  | Throws e => Crashed e st
  end.

(** *** The frames in a stream of bytes *)

Definition frameSize : Z := resWidth (resolution metadata) * resHeight (resolution metadata).

(** Frame [i] of the bytes of a stream. *)
Definition frame_at (bytes : list byte) (i : Z) : RawFrame :=
  {| data := take (Z.to_nat frameSize) (drop (Z.to_nat (i * frameSize)) bytes);
     width := resWidth (resolution metadata);
     height := resHeight (resolution metadata);
     stride := resWidth (resolution metadata);
     pts := divide i (fps metadata);
     frameNumber := i |}.

(** The frame numbers [skipFrames] lets through. *)
Definition kept (i : Z) : Prop :=
  skipFrames options <= 0 \/ Z.rem i (skipFrames options + 1) = 0.

#[local] Instance kept_dec i : Decision (kept i).
Proof. unfold kept. apply _. Defined.

(** The frames numbered [k] to [k + m - 1] that are let through. *)
Definition frames_between (bytes : list byte) (k m : Z) : list RawFrame :=
  map (frame_at bytes) (filter kept (seqZ k m)).

(** The complete frames of a stream, the trailing bytes that do not fill
    a frame left out. *)
Definition decoded (bytes : list byte) : list RawFrame :=
  frames_between bytes 0 (Z.of_nat (length bytes) / frameSize).

(** The frame callback followed by the progress callback. *)
Definition callback (frame : RawFrame) : Detector.M St unit :=
  fun st =>
    match onFrame frame st with
    | Detector.Ok _ st =>
        Detector.Ok tt
          match onProgress with
          | Some onProgress =>
              if Z.rem (frameNumber frame) 30 =? 0
              then onProgress (frameNumber frame) (totalFrames metadata) st
              else st
          | None => st
          end
    | Detector.Err e st => Detector.Err e st
    end.


Definition settle (x : Detector.result St unit) : ending :=
  match x with
  | Detector.Ok _ st => Resolved st
  | Detector.Err e st => Rejected e st
  end.

Lemma frames_between_cons bytes k m :
  0 <= m ->
  frames_between bytes k (m + 1) =
    (if decide (kept k) then [frame_at bytes k] else []) ++ frames_between bytes (k + 1) m.
Proof.
  intros Hm. unfold frames_between. rewrite seqZ_cons by lia.
  replace (Z.succ k) with (k + 1) by lia. replace (Z.pred (m + 1)) with m by lia.
  rewrite filter_cons. destruct (decide (kept k)); reflexivity.
Qed.

Lemma frames_between_split bytes k m1 m2 :
  0 <= m1 -> 0 <= m2 ->
  frames_between bytes k (m1 + m2) =
    frames_between bytes k m1 ++ frames_between bytes (k + m1) m2.
Proof.
  intros H1 H2. unfold frames_between.
  rewrite seqZ_app, filter_app, map_app by lia. reflexivity.
Qed.

Lemma mul_le_frames i j : 0 <= frameSize -> i <= j -> i * frameSize <= j * frameSize.
Proof. intros. apply Z.mul_le_mono_nonneg_r; assumption. Qed.

Lemma frame_at_app b1 b2 i :
  0 <= i -> 0 <= frameSize -> (i + 1) * frameSize <= Z.of_nat (length b1) ->
  frame_at (b1 ++ b2) i = frame_at b1 i.
Proof.
  intros Hi Hfs Hfit. unfold frame_at. f_equal.
  pose proof (mul_le_frames 0 i Hfs Hi).
  rewrite drop_app_le by lia. rewrite take_app_le; [reflexivity|].
  rewrite length_drop. lia.
Qed.

Lemma frames_between_app b1 b2 k m :
  0 <= k -> 0 <= frameSize -> (k + m) * frameSize <= Z.of_nat (length b1) ->
  frames_between (b1 ++ b2) k m = frames_between b1 k m.
Proof.
  intros Hk Hfs Hfit. unfold frames_between. apply map_ext_in. intros i Hi.
  apply list_elem_of_In, list_elem_of_filter in Hi as [_ Hi].
  apply elem_of_seqZ in Hi. apply frame_at_app; [lia | exact Hfs |].
  pose proof (mul_le_frames (i + 1) (k + m) Hfs ltac:(lia)). lia.
Qed.

Lemma skip_test k :
  (0 <? skipFrames options) && negb (Z.rem k (skipFrames options + 1) =? 0)
  = if decide (kept k) then false else true.
Proof.
  unfold kept. destruct (decide _) as [Hk|Hk]; cases_Z; try reflexivity; lia.
Qed.

Lemma process_frames_spec bytes :
  1 <= frameSize ->
  forall (m fuel : nat) rb k st,
    (m < fuel)%nat -> RingBuffer.inv rb -> 0 <= k ->
    RingBuffer.contents rb = drop (Z.to_nat (k * frameSize)) bytes ->
    (k + Z.of_nat m) * frameSize <= Z.of_nat (length bytes)
      < (k + Z.of_nat m + 1) * frameSize ->
    match Detector.extractFrames number callback
            (frames_between bytes k (Z.of_nat m)) st with
    | Detector.Ok _ st' =>
        exists rb',
          process_frames fuel rb k st = Handled rb' (k + Z.of_nat m) st' /\
          RingBuffer.inv rb' /\
          RingBuffer.capacity rb' = RingBuffer.capacity rb /\
          RingBuffer.contents rb' = drop (Z.to_nat ((k + Z.of_nat m) * frameSize)) bytes
    | Detector.Err e st' => process_frames fuel rb k st = Destroyed e st'
    end.
Proof.
  intros Hfs. induction m as [|m IH]; intros fuel rb k st Hfuel Hinv Hk Hc Hlen;
    (destruct fuel as [|fuel]; [lia|]); cbn [process_frames]; fold frameSize.
  - pose proof (RingBuffer.length_contents rb Hinv) as Hav.
    pose proof (mul_le_frames 0 k ltac:(lia) Hk).
    rewrite Hc, length_drop in Hav. unfold RingBuffer.available.
    destruct (Z.ltb_spec (RingBuffer.availableBytes rb) frameSize); [|lia].
    cbn. exists rb. replace (k + Z.of_nat 0) with k by lia. auto.
  - pose proof (RingBuffer.length_contents rb Hinv) as Hav.
    pose proof (mul_le_frames 0 k ltac:(lia) Hk).
    pose proof (mul_le_frames k (k + Z.of_nat (S m)) ltac:(lia) ltac:(lia)).
    rewrite Hc, length_drop in Hav. unfold RingBuffer.available.
    destruct (Z.ltb_spec (RingBuffer.availableBytes rb) frameSize); [lia|].
    destruct (RingBuffer.read_spec junk frameSize rb Hinv ltac:(lia))
      as (rb1 & -> & Hinv1 & Hc1 & Hcap1 & _).
    assert (Hc1' : RingBuffer.contents rb1 = drop (Z.to_nat ((k + 1) * frameSize)) bytes).
    { rewrite Hc1, Hc, drop_drop. f_equal. lia. }
    replace (Z.of_nat (S m)) with (Z.of_nat m + 1) by lia.
    rewrite frames_between_cons by lia. rewrite skip_test.
    specialize (IH fuel rb1 (k + 1)).
    replace (k + 1 + Z.of_nat m) with (k + (Z.of_nat m + 1)) in IH by lia.
    destruct (decide (kept k)) as [Hkept|Hskip]; cbn [app].
    + cbn [Detector.extractFrames]. unfold Detector.bind, callback at 1.
      rewrite Hc. fold (frame_at bytes k).
      destruct (onFrame (frame_at bytes k) st) as [[] st1|e st1]; [|reflexivity].
      cbn [frameNumber frame_at].
      match goal with |- context [Detector.extractFrames _ _ _ ?s] =>
        specialize (IH s ltac:(lia) Hinv1 ltac:(lia) Hc1' ltac:(lia));
        destruct (Detector.extractFrames number callback
                    (frames_between bytes (k + 1) (Z.of_nat m)) s) as [[] st2|e st2]
      end.
      * destruct IH as (rb' & Hrun & Hinv' & Hcap' & Hc').
        exists rb'. rewrite Hrun. split; [reflexivity|]. split; [exact Hinv'|].
        split; [congruence | exact Hc'].
      * exact IH.
    + specialize (IH st ltac:(lia) Hinv1 ltac:(lia) Hc1' ltac:(lia)).
      destruct (Detector.extractFrames number callback
                  (frames_between bytes (k + 1) (Z.of_nat m)) st) as [[] st2|e st2].
      * destruct IH as (rb' & Hrun & Hinv' & Hcap' & Hc').
        exists rb'. rewrite Hrun. split; [reflexivity|]. split; [exact Hinv'|].
        split; [congruence | exact Hc'].
      * exact IH.
Qed.

Lemma stream_spec fuel :
  1 <= frameSize ->
  forall chunks bytes rb k st,
    RingBuffer.inv rb -> (Z.to_nat (RingBuffer.capacity rb) < fuel)%nat -> 0 <= k ->
    RingBuffer.contents rb = drop (Z.to_nat (k * frameSize)) bytes ->
    k * frameSize <= Z.of_nat (length bytes) < (k + 1) * frameSize ->
    Forall (fun chunk => frameSize - 1 + Z.of_nat (length chunk) <= RingBuffer.capacity rb)
      chunks ->
    stream fuel chunks rb k st =
      settle (Detector.extractFrames number callback
                (frames_between (bytes ++ concat chunks) k
                   (Z.of_nat (length (bytes ++ concat chunks)) / frameSize - k)) st).
Proof.
  intros Hfs. induction chunks as [|c chunks IH];
    intros bytes rb k st Hinv Hfuel Hk Hc Hlen Hchunks; cbn [stream concat].
  - rewrite app_nil_r.
    replace (Z.of_nat (length bytes) / frameSize) with k
      by (apply (Z.div_unique_pos _ _ _ (Z.of_nat (length bytes) - k * frameSize)); lia).
    rewrite Z.sub_diag. reflexivity.
  - apply Forall_cons in Hchunks as [Hfit Hchunks].
    pose proof (RingBuffer.length_contents rb Hinv) as Hav.
    rewrite Hc, length_drop in Hav.
    destruct (RingBuffer.write_spec c rb Hinv ltac:(lia))
      as (rb1 & Hw & Hinv1 & Hc1 & Hcap1 & Hav1).
    unfold on_data. rewrite Hw.
    set (bytes1 := bytes ++ c).
    assert (Hc1' : RingBuffer.contents rb1 = drop (Z.to_nat (k * frameSize)) bytes1).
    { rewrite Hc1, Hc. unfold bytes1. rewrite drop_app_le by lia. reflexivity. }
    assert (Hlen1 : Z.of_nat (length bytes1) = Z.of_nat (length bytes) + Z.of_nat (length c)).
    { unfold bytes1. rewrite length_app. lia. }
    set (q := Z.of_nat (length bytes1) / frameSize).
    pose proof (Z.div_mod (Z.of_nat (length bytes1)) frameSize ltac:(lia)) as Hdm.
    pose proof (Z.mod_pos_bound (Z.of_nat (length bytes1)) frameSize ltac:(lia)) as Hmb.
    fold q in Hdm.
    assert (Hq : k <= q).
    { apply Z.div_le_lower_bound; lia. }
    assert (Hqm : (k + Z.of_nat (Z.to_nat (q - k))) * frameSize = q * frameSize).
    { f_equal. lia. }
    assert (Hqb : q * frameSize <= Z.of_nat (length bytes1) < (q + 1) * frameSize) by lia.
    assert (Hsmall : (Z.to_nat (q - k) < fuel)%nat).
    { pose proof Hinv1 as (_ & Havail & _).
      pose proof (mul_le_frames 0 (q - k) ltac:(lia) ltac:(lia)).
      assert (q - k <= (q - k) * frameSize) by nia.
      lia. }
    pose proof (process_frames_spec bytes1 Hfs (Z.to_nat (q - k)) fuel rb1 k st
                  Hsmall Hinv1 Hk Hc1' ltac:(lia)) as Hloop.
    rewrite Z2Nat.id in Hloop by lia.
    replace (k + (q - k)) with q in Hloop by lia.
    rewrite (app_assoc bytes c (concat chunks)). fold bytes1.
    set (Q := Z.of_nat (length (bytes1 ++ concat chunks)) / frameSize).
    assert (HQ : q <= Q).
    { apply Z.div_le_mono; [lia|]. rewrite length_app. lia. }
    replace (Q - k) with ((q - k) + (Q - q)) by lia.
    rewrite frames_between_split by lia.
    rewrite (frames_between_app bytes1) by lia.
    rewrite Detector.extractFrames_app.
    replace (k + (q - k)) with q by lia.
    destruct (Detector.extractFrames number callback (frames_between bytes1 k (q - k)) st)
      as [[] st1|e st1].
    + destruct Hloop as (rb' & -> & Hinv' & Hcap' & Hc').
      apply (IH bytes1 rb' q st1 Hinv');
        [rewrite Hcap', Hcap1; exact Hfuel | lia | exact Hc' | lia
         | rewrite Hcap', Hcap1; exact Hchunks].
    + rewrite Hloop. reflexivity.
Qed.

(** X25. When frames have at least one byte and every chunk leaves room for
    the bytes of an incomplete frame in the 8 MiB ring buffer,
    [extractFrames] cuts the stream into its complete frames, numbers them
    from 0, and hands those that [skipFrames] lets through to the
    callbacks, in order; it resolves at the end of the stream and rejects
    with the error of the first callback that throws, after which no
    frame is delivered.  Bytes after the last complete frame are dropped. *)
Theorem extractFrames_delivers_decoded_frames (fuel : nat) (chunks : list (list byte))
    (st : St) :
  1 <= frameSize ->
  Forall (fun chunk => frameSize - 1 + Z.of_nat (length chunk) <= 8 * 1024 * 1024) chunks ->
  (Z.to_nat (8 * 1024 * 1024) < fuel)%nat ->
  extractFrames fuel chunks st =
    settle (Detector.extractFrames number callback (decoded (concat chunks)) st).
Proof.
  intros Hfs Hchunks Hfuel. unfold extractFrames.
  destruct (RingBuffer.constructor junk (8 * 1024 * 1024)) as [rb|e] eqn:Hnew.
  - apply RingBuffer.constructor_inv in Hnew as (Hinv & Hempty & Hcap & _).
    pose proof (stream_spec fuel Hfs chunks [] rb 0 st Hinv) as Hrun.
    rewrite Hcap, Hempty in Hrun.
    rewrite Hrun;
      [| exact Hfuel | lia | symmetry; apply drop_nil | cbn [length]; lia | exact Hchunks].
    cbn [app]. unfold decoded. rewrite Z.sub_0_r. reflexivity.
  - unfold RingBuffer.constructor in Hnew.
    destruct (Z.ltb_spec (8 * 1024 * 1024) 0); [lia | discriminate].
Qed.


(** *** What the frames of a stream look like *)

Lemma frame_at_conforming bytes i :
  0 <= i -> 0 <= frameSize -> (i + 1) * frameSize <= Z.of_nat (length bytes) ->
  Detector.conforming number (resWidth (resolution metadata))
    (resHeight (resolution metadata)) (frame_at bytes i).
Proof.
  intros Hi Hfs Hfit. pose proof (mul_le_frames 0 i Hfs Hi).
  unfold Detector.conforming, frame_at; cbn. split; [reflexivity|]. split; [reflexivity|].
  rewrite length_take, length_drop. fold frameSize. lia.
Qed.

Lemma whole_frames (bytes : list byte) :
  1 <= frameSize ->
  0 <= Z.of_nat (length bytes) / frameSize /\
  Z.of_nat (length bytes) / frameSize * frameSize <= Z.of_nat (length bytes).
Proof.
  intros Hfs.
  pose proof (Z.div_mod (Z.of_nat (length bytes)) frameSize ltac:(lia)).
  pose proof (Z.mod_pos_bound (Z.of_nat (length bytes)) frameSize ltac:(lia)).
  split; [apply Z.div_pos; lia | lia].
Qed.

Lemma decoded_conforming bytes :
  1 <= frameSize ->
  Forall (Detector.conforming number (resWidth (resolution metadata))
            (resHeight (resolution metadata))) (decoded bytes).
Proof.
  intros Hfs. destruct (whole_frames bytes Hfs) as [Hn Hfit].
  apply Forall_forall. intros f Hf. unfold decoded, frames_between in Hf.
  apply list_elem_of_In, in_map_iff in Hf as (i & <- & Hi).
  apply list_elem_of_In, list_elem_of_filter in Hi as [_ Hi].
  apply elem_of_seqZ in Hi. apply frame_at_conforming; [lia | lia |].
  pose proof (mul_le_frames (i + 1) (Z.of_nat (length bytes) / frameSize)
                ltac:(lia) ltac:(lia)). lia.
Qed.

Lemma frames_between_ascends bytes (m : nat) : forall k prev,
  prev < k -> Detector.ascends number prev (frames_between bytes k (Z.of_nat m)).
Proof.
  induction m as [|m IH]; intros k prev Hlt.
  - exact I.
  - replace (Z.of_nat (S m)) with (Z.of_nat m + 1) by lia.
    rewrite frames_between_cons by lia.
    destruct (decide (kept k)); cbn [app Detector.ascends frameNumber frame_at].
    + split; [exact Hlt|]. apply IH. lia.
    + apply IH. lia.
Qed.

Lemma kept_0 : kept 0.
Proof.
  unfold kept. destruct (Z.le_gt_cases (skipFrames options) 0); [left; assumption|].
  right. apply Z.rem_0_l. lia.
Qed.

Lemma decoded_from_zero bytes :
  1 <= frameSize -> Detector.from_zero number (decoded bytes).
Proof.
  intros Hfs. destruct (whole_frames bytes Hfs) as [Hn _]. unfold decoded.
  rewrite <- (Z2Nat.id (Z.of_nat (length bytes) / frameSize)) by exact Hn.
  destruct (Z.to_nat (Z.of_nat (length bytes) / frameSize)) as [|n]; [exact I|].
  replace (Z.of_nat (S n)) with (Z.of_nat n + 1) by lia.
  rewrite frames_between_cons by lia.
  rewrite (decide_True (P := kept 0)) by exact kept_0.
  cbn [app Detector.from_zero frameNumber frame_at]. split; [reflexivity|].
  apply frames_between_ascends. lia.
Qed.

Lemma frames_between_all bytes (m : nat) :
  skipFrames options <= 0 ->
  Detector.numbered number 0 (frames_between bytes 0 (Z.of_nat m)) /\
  length (frames_between bytes 0 (Z.of_nat m)) = m /\
  concat (map data (frames_between bytes 0 (Z.of_nat m)))
    = take (Z.to_nat (Z.of_nat m * frameSize)) bytes.
Proof.
  intros Hskip.
  assert (Hall : forall k n, filter kept (seqZ k n) = seqZ k n).
  { intros k n. induction (seqZ k n) as [|i l IHl]; [reflexivity|].
    rewrite filter_cons_True by (left; exact Hskip). rewrite IHl. reflexivity. }
  assert (Hnum : forall (n : nat) k,
            Detector.numbered number k (frames_between bytes k (Z.of_nat n))).
  { induction n as [|n IH]; intros k; [exact I|].
    replace (Z.of_nat (S n)) with (Z.of_nat n + 1) by lia.
    rewrite frames_between_cons by lia.
    rewrite (decide_True (P := kept k)) by (left; exact Hskip).
    cbn [app Detector.numbered frameNumber frame_at]. split; [reflexivity | apply IH]. }
  split; [apply Hnum|]. split.
  - unfold frames_between. rewrite Hall, length_map, length_seqZ. lia.
  - unfold frames_between. rewrite Hall.
    induction m as [|m IH].
    + cbn. rewrite take_0. reflexivity.
    + rewrite seqZ_S, map_app, map_app, concat_app, IH. cbn [map concat frame_at data].
      rewrite app_nil_r, Z.add_0_l.
      destruct (Z.le_gt_cases 0 frameSize) as [Hfs|Hfs].
      * pose proof (mul_le_frames 0 (Z.of_nat m) Hfs ltac:(lia)).
        rewrite take_take_drop. f_equal. lia.
      * replace (Z.to_nat frameSize) with 0%nat by lia.
        rewrite take_0, app_nil_r. f_equal.
        assert (Z.of_nat m * frameSize <= 0) by nia.
        assert (Z.of_nat (S m) * frameSize <= 0) by nia. lia.
Qed.

(** *** Frames that do not fit the ring buffer *)

Lemma stream_oversized fuel :
  forall chunks rb k st,
    RingBuffer.inv rb -> RingBuffer.capacity rb < frameSize ->
    (RingBuffer.availableBytes rb + Z.of_nat (length (concat chunks))
       <= RingBuffer.capacity rb ->
     stream (S fuel) chunks rb k st = Resolved st) /\
    (forall pre c post,
       chunks = pre ++ c :: post ->
       RingBuffer.availableBytes rb + Z.of_nat (length (concat pre))
         <= RingBuffer.capacity rb
         < RingBuffer.availableBytes rb + Z.of_nat (length (concat pre))
           + Z.of_nat (length c) ->
       stream (S fuel) chunks rb k st = Crashed RingBuffer.RingBuffer_overflow st).
Proof.
  induction chunks as [|c0 chunks IH]; intros rb k st Hinv Hbig.
  - split; [reflexivity|]. intros [|? ?] ? ? [=].
  - assert (Hstep : Z.of_nat (length c0)
                      <= RingBuffer.capacity rb - RingBuffer.availableBytes rb ->
              exists rb1,
                on_data (S fuel) c0 rb k st = Handled rb1 k st /\ RingBuffer.inv rb1 /\
                RingBuffer.capacity rb1 = RingBuffer.capacity rb /\
                RingBuffer.availableBytes rb1
                  = RingBuffer.availableBytes rb + Z.of_nat (length c0)).
    { intros Hfit.
      destruct (RingBuffer.write_spec c0 rb Hinv Hfit) as (rb1 & Hw & Hinv1 & _ & Hcap1 & Hav1).
      exists rb1. unfold on_data. rewrite Hw. cbn [process_frames]. fold frameSize.
      unfold RingBuffer.available.
      pose proof Hinv1 as (_ & Havail & _).
      destruct (Z.ltb_spec (RingBuffer.availableBytes rb1) frameSize); [auto | lia]. }
    split.
    + cbn [concat]. rewrite length_app. intros Hfit.
      destruct Hstep as (rb1 & Hd & Hinv1 & Hcap1 & Hav1); [lia|].
      cbn [stream]. rewrite Hd.
      apply (IH rb1 k st Hinv1); [lia|]. lia.
    + intros pre c post Heq Hover.
      destruct pre as [|c1 pre]; cbn [app] in Heq; injection Heq as Hc0 Hrest; subst.
      * cbn [stream]. unfold on_data, RingBuffer.write. cbn in Hover.
        destruct (Z.ltb_spec (RingBuffer.capacity rb - RingBuffer.availableBytes rb)
                    (Z.of_nat (length c))); [reflexivity | lia].
      * cbn [concat] in Hover. rewrite length_app in Hover.
        destruct Hstep as (rb1 & Hd & Hinv1 & Hcap1 & Hav1); [lia|].
        cbn [stream]. rewrite Hd.
        apply (proj2 (IH rb1 k st Hinv1 ltac:(lia)) pre c post eq_refl). lia.
Qed.

(** X27. A video whose frames have more bytes than the 8 MiB of the ring
    buffer is never decoded: whatever the callback, no frame reaches it;
    the extraction resolves without a frame when the whole stream has at
    most 8 MiB, and otherwise the chunk that brings it above 8 MiB makes
    [write] throw inside the handler, so that the promise is never
    settled. *)
Theorem frames_above_capacity_are_never_delivered (fuel : nat) (chunks : list (list byte))
    (st : St) :
  8 * 1024 * 1024 < frameSize -> (0 < fuel)%nat ->
  (Z.of_nat (length (concat chunks)) <= 8 * 1024 * 1024 ->
   extractFrames fuel chunks st = Resolved st) /\
  (forall pre c post,
     chunks = pre ++ c :: post ->
     Z.of_nat (length (concat pre)) <= 8 * 1024 * 1024
       < Z.of_nat (length (concat pre)) + Z.of_nat (length c) ->
     extractFrames fuel chunks st = Crashed RingBuffer.RingBuffer_overflow st).
Proof.
  intros Hbig Hfuel. destruct fuel as [|fuel]; [lia|]. unfold extractFrames.
  destruct (RingBuffer.constructor junk (8 * 1024 * 1024)) as [rb|e] eqn:Hnew.
  - apply RingBuffer.constructor_inv in Hnew as (Hinv & _ & Hcap & Hav).
    destruct (stream_oversized fuel chunks rb 0 st Hinv ltac:(lia)) as [Hfits Hover].
    rewrite Hav, Hcap in *. split.
    + intros Hall. apply Hfits. lia.
    + intros pre c post Heq Hc. apply (Hover pre c post Heq). lia.
  - unfold RingBuffer.constructor in Hnew.
    destruct (Z.ltb_spec (8 * 1024 * 1024) 0); [lia | discriminate].
Qed.

(** *** Frames of no bytes *)

Lemma process_frames_empty fuel :
  frameSize = 0 ->
  (forall frame st, exists st', onFrame frame st = Detector.Ok tt st') ->
  forall rb k st, RingBuffer.inv rb -> process_frames fuel rb k st = OutOfFuel.
Proof.
  intros Hfs Hok. induction fuel as [|fuel IH]; intros rb k st Hinv; [reflexivity|].
  cbn [process_frames]. fold frameSize. rewrite Hfs. unfold RingBuffer.available.
  pose proof Hinv as (_ & Hav & _).
  destruct (Z.ltb_spec (RingBuffer.availableBytes rb) 0); [lia|].
  destruct (RingBuffer.read_spec junk 0 rb Hinv ltac:(lia)) as (rb1 & -> & Hinv1 & _).
  destruct ((0 <? skipFrames options) && negb (Z.rem k (skipFrames options + 1) =? 0));
    [apply IH; exact Hinv1|].
  match goal with |- context [onFrame ?f st] => destruct (Hok f st) as [st' ->] end.
  apply IH. exact Hinv1.
Qed.

(** X29. When the resolution of the metadata has no pixels (a width or height
    of 0) and the frame callback never throws, the handler does not come
    back from the first chunk: the ring buffer always holds the 0 bytes a
    frame needs, and the loop hands out empty frames without end. *)
Theorem zero_sized_frames_never_end (fuel : nat) (chunk : list byte)
    (chunks : list (list byte)) (st : St) :
  frameSize = 0 ->
  (forall frame st, exists st', onFrame frame st = Detector.Ok tt st') ->
  Z.of_nat (length chunk) <= 8 * 1024 * 1024 ->
  extractFrames fuel (chunk :: chunks) st = Diverged.
Proof.
  intros Hfs Hok Hfit. unfold extractFrames.
  destruct (RingBuffer.constructor junk (8 * 1024 * 1024)) as [rb|e] eqn:Hnew.
  - apply RingBuffer.constructor_inv in Hnew as (Hinv & _ & Hcap & Hav).
    destruct (RingBuffer.write_spec chunk rb Hinv ltac:(lia)) as (rb1 & Hw & Hinv1 & _).
    cbn [stream]. unfold on_data. rewrite Hw.
    rewrite (process_frames_empty fuel Hfs Hok rb1 0 st Hinv1). reflexivity.
  - unfold RingBuffer.constructor in Hnew.
    destruct (Z.ltb_spec (8 * 1024 * 1024) 0); [lia | discriminate].
Qed.

End WithFrames.

Arguments Resolved {St} st.
Arguments Rejected {St} e st.
Arguments Crashed {St} e st.
Arguments Diverged {St}.

(** *** [extractFrame]: one frame *)

Section OneFrame.

Variable number : Type.
Variable divide : Z -> number -> number.
Variable junk : nat -> byte.
Variable metadata : VideoMetadata number.

(** The promise [extractFrame] returns.  Nothing rejects it but the
    ['error'] events, which are not modelled, and nothing listens to the
    ['end'] of the stream. *)
Inductive promise :=
| Pending
| Fulfilled (frame : RawFrame number).

(** [resolve(frame)] has no effect on a promise that is settled. *)
Definition resolve (frame : RawFrame number) (p : promise) : promise :=
  match p with
  | Pending => Fulfilled frame
  | Fulfilled _ => p
  end.

(** The chunks of the stream through the ['data'] handler; a throw in the
    handler ends the run. *)
Fixpoint frame_stream (frameNumber : Z) (chunks : list (list byte))
    (ringBuffer : RingBuffer.RingBuffer) (p : promise)
    : outcome RingBuffer.error promise :=
  match chunks with
  | [] => Returns p
  | chunk :: chunks =>
      let width := resWidth (resolution metadata) in
      let height := resHeight (resolution metadata) in
      let timestamp := divide frameNumber (fps metadata) in
      let frameSize := width * height in
      match RingBuffer.write chunk ringBuffer with
      | (Throws e, _) => Throws e
      | (Returns _, ringBuffer) =>
          if RingBuffer.available ringBuffer <? frameSize then
            frame_stream frameNumber chunks ringBuffer p
          else
            match RingBuffer.read junk frameSize ringBuffer with
            | (Throws e, _) => Throws e
            | (Returns frameData, ringBuffer) =>
                let frame :=
                  {| data := frameData; width := width; height := height;
                     stride := width; pts := timestamp; frameNumber := frameNumber |} in
                frame_stream frameNumber chunks ringBuffer (resolve frame p)
            end
      end
  end.

Definition extractFrame (frameNumber : Z) (chunks : list (list byte))
    : outcome RingBuffer.error promise :=
  match RingBuffer.constructor junk (8 * 1024 * 1024) with
  | Returns ringBuffer => frame_stream frameNumber chunks ringBuffer Pending
  | Throws e => Throws e
  end.

(** The promise once the bytes [bytes] have arrived. *)
Definition first_frame (frameNumber : Z) (bytes : list byte) : promise :=
  if frameSize number metadata <=? Z.of_nat (length bytes) then
    Fulfilled {| data := take (Z.to_nat (frameSize number metadata)) bytes;
                 width := resWidth (resolution metadata);
                 height := resHeight (resolution metadata);
                 stride := resWidth (resolution metadata);
                 pts := divide frameNumber (fps metadata);
                 frameNumber := frameNumber |}
  else Pending.

Lemma frame_stream_spec n :
  1 <= frameSize number metadata ->
  forall chunks bytes rb,
    RingBuffer.inv rb ->
    RingBuffer.availableBytes rb <= Z.of_nat (length bytes) ->
    (Z.of_nat (length bytes) < frameSize number metadata ->
     RingBuffer.contents rb = bytes) ->
    Z.of_nat (length (bytes ++ concat chunks)) <= RingBuffer.capacity rb ->
    frame_stream n chunks rb (first_frame n bytes)
    = Returns (first_frame n (bytes ++ concat chunks)).
Proof.
  intros Hfs. induction chunks as [|c chunks IH]; intros bytes rb Hinv Hav Hc Hcap;
    cbn [frame_stream concat].
  - rewrite app_nil_r. reflexivity.
  - cbn [concat] in Hcap. rewrite !length_app in Hcap.
    destruct (RingBuffer.write_spec c rb Hinv ltac:(lia))
      as (rb1 & -> & Hinv1 & Hc1 & Hcap1 & Hav1).
    fold (frameSize number metadata). unfold RingBuffer.available.
    rewrite (app_assoc bytes c (concat chunks)).
    assert (Hlen1 : Z.of_nat (length (bytes ++ c))
                    = Z.of_nat (length bytes) + Z.of_nat (length c))
      by (rewrite length_app; lia).
    assert (Hkeep : frameSize number metadata <= Z.of_nat (length bytes) ->
              first_frame n (bytes ++ c) = first_frame n bytes).
    { intros Hge. unfold first_frame.
      destruct (Z.leb_spec (frameSize number metadata) (Z.of_nat (length bytes))); [|lia].
      destruct (Z.leb_spec (frameSize number metadata) (Z.of_nat (length (bytes ++ c))));
        [|lia].
      rewrite take_app_le by lia. reflexivity. }
    destruct (Z.ltb_spec (RingBuffer.availableBytes rb1) (frameSize number metadata))
      as [Hshort|Hfull].
    + replace (first_frame n bytes) with (first_frame n (bytes ++ c)).
      * apply IH; [exact Hinv1 | lia | | rewrite !length_app, Hcap1; lia].
        intros Hlt. rewrite Hc1, Hc by lia. reflexivity.
      * destruct (Z.le_gt_cases (frameSize number metadata) (Z.of_nat (length bytes)))
          as [Hge|Hlt]; [apply Hkeep; exact Hge|].
        pose proof (RingBuffer.length_contents rb Hinv) as Hl. rewrite (Hc Hlt) in Hl.
        unfold first_frame.
        destruct (Z.leb_spec (frameSize number metadata) (Z.of_nat (length bytes))); [lia|].
        destruct (Z.leb_spec (frameSize number metadata) (Z.of_nat (length (bytes ++ c))));
          [lia | reflexivity].
    + destruct (RingBuffer.read_spec junk (frameSize number metadata) rb1 Hinv1 ltac:(lia))
        as (rb2 & -> & Hinv2 & _ & Hcap2 & Hav2).
      match goal with |- frame_stream _ _ _ ?q = _ =>
        replace q with (first_frame n (bytes ++ c)) end.
      * apply IH; [exact Hinv2 | lia | lia | rewrite !length_app, Hcap2, Hcap1; lia].
      * destruct (Z.le_gt_cases (frameSize number metadata) (Z.of_nat (length bytes)))
          as [Hge|Hlt].
        -- rewrite (Hkeep Hge). unfold first_frame.
           destruct (Z.leb_spec (frameSize number metadata) (Z.of_nat (length bytes)));
             [reflexivity | lia].
        -- rewrite Hc1, (Hc Hlt). unfold first_frame at 2.
           destruct (Z.leb_spec (frameSize number metadata) (Z.of_nat (length bytes)));
             [lia|]. cbn [resolve]. unfold first_frame.
           destruct (Z.leb_spec (frameSize number metadata)
                       (Z.of_nat (length (bytes ++ c)))); [reflexivity | lia].
Qed.

(** X28. For frames of at least one byte and a stream of at most 8 MiB,
    [extractFrame] fulfils its promise with the first [width * height]
    bytes of the stream as a frame that carries the frame number asked
    for, as soon as that many bytes have arrived; bytes that follow
    change nothing.  When the stream ends with fewer bytes, the promise
    is left pending for ever. *)
Theorem extractFrame_resolves_with_first_frame (frameNumber : Z)
    (chunks : list (list byte)) :
  1 <= frameSize number metadata ->
  Z.of_nat (length (concat chunks)) <= 8 * 1024 * 1024 ->
  extractFrame frameNumber chunks = Returns (first_frame frameNumber (concat chunks)) /\
  (Z.of_nat (length (concat chunks)) < frameSize number metadata ->
   extractFrame frameNumber chunks = Returns Pending).
Proof.
  intros Hfs Hfit.
  assert (Hrun : extractFrame frameNumber chunks
                 = Returns (first_frame frameNumber (concat chunks))).
  { unfold extractFrame.
    destruct (RingBuffer.constructor junk (8 * 1024 * 1024)) as [rb|e] eqn:Hnew.
    - apply RingBuffer.constructor_inv in Hnew as (Hinv & Hempty & Hcap & Hav).
      pose proof (frame_stream_spec frameNumber Hfs chunks [] rb Hinv) as Hspec.
      rewrite Hav, Hcap, Hempty in Hspec. cbn [app length] in Hspec.
      replace (first_frame frameNumber []) with Pending in Hspec.
      + apply Hspec; [lia | reflexivity | exact Hfit].
      + unfold first_frame. cbn [length].
        destruct (Z.leb_spec (frameSize number metadata) (Z.of_nat 0)); [lia | reflexivity].
    - unfold RingBuffer.constructor in Hnew.
      destruct (Z.ltb_spec (8 * 1024 * 1024) 0); [lia | discriminate]. }
  split; [exact Hrun|]. intros Hshort. rewrite Hrun. unfold first_frame.
  destruct (Z.leb_spec (frameSize number metadata) (Z.of_nat (length (concat chunks))));
    [lia | reflexivity].
Qed.

End OneFrame.

(** *** The video the detector is given *)

(** A callback that keeps the frames it is handed. *)
Definition record {number : Type} (frame : RawFrame number)
    : Detector.M (list (RawFrame number)) unit :=
  fun st => Detector.Ok tt (st ++ [frame]).

Lemma record_all (number : Type) (metadata : VideoMetadata number) fs : forall st,
  Detector.extractFrames number (callback number _ record None metadata) fs st
  = Detector.Ok tt (st ++ fs).
Proof.
  induction fs as [|f fs IH]; intros st; cbn [Detector.extractFrames].
  - unfold Detector.ret. rewrite app_nil_r. reflexivity.
  - unfold Detector.bind, callback, record. rewrite IH, <- app_assoc. reflexivity.
Qed.

(** X26. What [extractFrames] hands to its callback is a video as the detector
    expects it: for a resolution within [1, 8192] in both directions, of
    frames that leave room in the ring buffer for every chunk, the frames
    delivered all have the width and height of the metadata and exactly
    one byte per pixel, and their frame numbers start at 0 and increase;
    without [skipFrames] they are numbered 0, 1, 2, ... and their data,
    put end to end, are the bytes of the stream up to the last complete
    frame: no byte is lost, repeated or reordered. *)
Theorem extractFrames_delivers_well_formed_video (number : Type)
    (divide : Z -> number -> number) (junk : nat -> byte)
    (metadata : VideoMetadata number) (options : DecoderOptions)
    (fuel : nat) (chunks : list (list byte)) :
  let W := resWidth (resolution metadata) in
  let H := resHeight (resolution metadata) in
  1 <= W <= 8192 -> 1 <= H <= 8192 ->
  Forall (fun chunk => W * H - 1 + Z.of_nat (length chunk) <= 8 * 1024 * 1024) chunks ->
  (Z.to_nat (8 * 1024 * 1024) < fuel)%nat ->
  exists fs,
    extractFrames number divide _ record None junk metadata options fuel chunks []
      = Resolved fs /\
    Detector.well_formed number {| Detector.metadata := metadata; Detector.frames := fs |} /\
    Detector.from_zero number fs /\
    (skipFrames options <= 0 ->
       Detector.numbered number 0 fs /\
       Z.of_nat (length fs) = Z.of_nat (length (concat chunks)) / (W * H) /\
       concat (map data fs) =
         take (Z.to_nat (Z.of_nat (length (concat chunks)) / (W * H) * (W * H)))
           (concat chunks)).
Proof.
  intros W H HW HH Hchunks Hfuel.
  assert (Hfs : 1 <= frameSize number metadata) by (unfold frameSize; fold W H; nia).
  exists (decoded number divide metadata options (concat chunks)). split.
  - rewrite (extractFrames_delivers_decoded_frames number divide _ record None junk metadata
               options fuel chunks [] Hfs Hchunks Hfuel).
    rewrite record_all. reflexivity.
  - split; [|split].
    + unfold Detector.well_formed. cbn [Detector.metadata Detector.frames]. fold W H.
      split; [exact HW|]. split; [exact HH|].
      apply (decoded_conforming number divide metadata options _ Hfs).
    + apply (decoded_from_zero number divide metadata options _ Hfs).
    + intros Hskip.
      destruct (whole_frames number metadata (concat chunks) Hfs) as [Hn _].
      pose proof (frames_between_all number divide metadata options (concat chunks)
                    (Z.to_nat (Z.of_nat (length (concat chunks)) / frameSize number metadata))
                    Hskip) as Hall.
      rewrite Z2Nat.id in Hall by exact Hn.
      destruct Hall as (Hnum & Hlen & Hbytes).
      unfold decoded. split; [exact Hnum|]. split; [|exact Hbytes].
      rewrite Hlen, Z2Nat.id by exact Hn. reflexivity.
Qed.

(** Samples: a stream of 2x1 frames in two chunks, and an 4096x4096
    resolution, whose frames have 16 MiB. *)
Definition sample_stream : list (list byte) := [["a"; "b"; "c"]%byte; ["d"; "e"]%byte].

Lemma sample_stream_fits (number : Type) (metadata : VideoMetadata number) :
  resWidth (resolution metadata) = 2 -> resHeight (resolution metadata) = 1 ->
  Forall (fun chunk =>
            resWidth (resolution metadata) * resHeight (resolution metadata) - 1
              + Z.of_nat (length chunk) <= 8 * 1024 * 1024) sample_stream.
Proof. intros -> ->. repeat constructor; cbn [length]; lia. Qed.

Lemma extractFrames_delivers_decoded_frames_witness :
  let metadata := Detector.sample_metadata 2 1 in
  extractFrames unit (fun _ _ => tt) _ record None (fun _ => "?"%byte) metadata
    {| skipFrames := 0 |} (S (Z.to_nat (8 * 1024 * 1024))) sample_stream []
  = settle _
      (Detector.extractFrames unit (callback unit _ record None metadata)
         (decoded unit (fun _ _ => tt) metadata {| skipFrames := 0 |} (concat sample_stream))
         []).
Proof.
  intros metadata.
  apply (extractFrames_delivers_decoded_frames unit (fun _ _ => tt) _ record None
           (fun _ => "?"%byte) metadata {| skipFrames := 0 |}
           (S (Z.to_nat (8 * 1024 * 1024))) sample_stream []).
  - unfold frameSize. cbn. lia.
  - apply (sample_stream_fits unit metadata); reflexivity.
  - apply Nat.lt_succ_diag_r.
Defined.

Lemma extractFrames_delivers_well_formed_video_witness :
  let metadata := Detector.sample_metadata 2 1 in
  exists fs,
    extractFrames unit (fun _ _ => tt) _ record None (fun _ => "?"%byte) metadata
      {| skipFrames := 0 |} (S (Z.to_nat (8 * 1024 * 1024))) sample_stream []
      = Resolved fs /\
    Detector.well_formed unit {| Detector.metadata := metadata; Detector.frames := fs |} /\
    Detector.from_zero unit fs.
Proof.
  intros metadata.
  destruct (extractFrames_delivers_well_formed_video unit (fun _ _ => tt)
              (fun _ => "?"%byte) metadata {| skipFrames := 0 |}
              (S (Z.to_nat (8 * 1024 * 1024))) sample_stream)
    as (fs & Hrun & Hwf & Hzero & _).
  - cbn. lia.
  - cbn. lia.
  - apply (sample_stream_fits unit metadata); reflexivity.
  - apply Nat.lt_succ_diag_r.
  - exists fs. auto.
Defined.

Lemma frames_above_capacity_are_never_delivered_witness :
  extractFrames unit (fun _ _ => tt) _ record None (fun _ => "?"%byte)
    (Detector.sample_metadata 4096 4096) {| skipFrames := 0 |} 1 sample_stream []
  = Resolved [].
Proof.
  apply (proj1 (frames_above_capacity_are_never_delivered unit (fun _ _ => tt) _ record
                  None (fun _ => "?"%byte) (Detector.sample_metadata 4096 4096)
                  {| skipFrames := 0 |} 1 sample_stream [] ltac:(unfold frameSize; cbn; lia)
                  ltac:(lia))).
  cbn. lia.
Defined.

Lemma extractFrame_resolves_with_first_frame_witness :
  extractFrame unit (fun _ _ => tt) (fun _ => "?"%byte) (Detector.sample_metadata 2 1) 7
    sample_stream
  = Returns (first_frame unit (fun _ _ => tt) (Detector.sample_metadata 2 1) 7
               (concat sample_stream)).
Proof.
  apply (proj1 (extractFrame_resolves_with_first_frame unit (fun _ _ => tt)
                  (fun _ => "?"%byte) (Detector.sample_metadata 2 1) 7 sample_stream
                  ltac:(unfold frameSize; cbn; lia) ltac:(cbn; lia))).
Defined.

Lemma zero_sized_frames_never_end_witness :
  extractFrames unit (fun _ _ => tt) _ record None (fun _ => "?"%byte)
    (Detector.sample_metadata 0 1) {| skipFrames := 0 |} 5 sample_stream []
  = Diverged.
Proof.
  apply (zero_sized_frames_never_end unit (fun _ _ => tt) _ record None (fun _ => "?"%byte)
           (Detector.sample_metadata 0 1) {| skipFrames := 0 |} 5 ["a"; "b"; "c"]%byte
           [["d"; "e"]%byte] []).
  - reflexivity.
  - intros frame st. eexists. reflexivity.
  - cbn. lia.
Defined.

End FFmpegDecoder.
